(** * A shallow embedding of the path tracer's sampling core

    Sources embedded: [pdf.h] (the probability-density classes),
    [hittable_list.h] (the aggregate used as scene and as light
    collection) and [camera.h] (the four radiance estimators
    [ray_color_1] .. [ray_color_4], stratified pixel sampling and the
    render loop).

    A C++ [double] is an IEEE-754 binary64 number: Rocq's primitive
    [float], whose operations round exactly as the hardware does.  An
    [int] is a [Z]; every [int] expression modelled below stays inside the
    32-bit range whenever its inputs do, so no wrap-around can occur.
    Code that draws from the global random generator is a state
    transformer over the generator. *)

From Stdlib Require Import ZArith List Bool Lia.
From Stdlib Require Import Floats.
From Stdlib Require Uint63.
Import ListNotations.

Set Implicit Arguments.
Set Warnings "-inexact-float".

Local Open Scope float_scope.

(** ** Scalars *)

Definition double := float.

(** [std::max(a, b)] returns [b] when [a < b] and [a] otherwise. *)
Definition std_max (a b : double) : double := if a <? b then b else a.

(** Conversion of an [int] (or a [size_t] below 2^63) to [double]. *)
Definition double_of_int (z : Z) : double :=
  if (z <? 0)%Z then - of_uint63 (Uint63.of_Z (- z)) else of_uint63 (Uint63.of_Z z).

Definition int_min : Z := - 2 ^ 31.
Definition int_max : Z := 2 ^ 31 - 1.

(** The value an integer takes in a 32-bit signed [int]. *)
Definition wrap_int (z : Z) : Z := ((z - int_min) mod 2 ^ 32 + int_min)%Z.

(** [int(x)] for a [double] [x]: truncation toward zero.  The conversion
    is undefined for NaN, for the infinities and when the truncated value
    does not fit an [int]; those cases are [None]. *)
Definition int_of_double (x : double) : option Z :=
  match Prim2SF x with
  | S754_zero _ => Some 0%Z
  | S754_finite sgn m e =>
      let mag := Z.shiftl (Zpos m) e in
      let z := if sgn then (- mag)%Z else mag in
      if ((int_min <=? z) && (z <=? int_max))%Z then Some z else None
  | S754_infinity _ | S754_nan => None
  end.

(** Modelled from the spec: the constant [pi] of the missing
    [rtweekend.h], the double nearest to the number the spec's formulas
    call pi. *)
Definition pi : double := 3.1415926535897932385.

(** Modelled from the spec: the constant [infinity] of the missing
    [rtweekend.h], the upper end of the intersection interval. *)
Definition infinity : double := PrimFloat.infinity.

(** ** Vectors, points and colours *)

(** Modelled from the spec: [vec3.h] is not among the sources; the spec
    lists "vector/point/color arithmetic primitives" as an external
    collaborator.  A [vec3] is three doubles with component-wise
    arithmetic. *)
Record vec3 : Type := mkvec3 { vx : double; vy : double; vz : double }.

(** Modelled from the spec: the alias [point3] of the missing [vec3.h]. *)
Definition point3 := vec3.

(** Modelled from the spec: the alias [color] of the missing [color.h],
    "an RGB triple". *)
Definition color := vec3.

Declare Scope vec_scope.
Delimit Scope vec_scope with vec.
Bind Scope vec_scope with vec3.

(** Modelled from the spec: [vec3::operator+] of the missing [vec3.h]. *)
Definition vadd (a b : vec3) : vec3 :=
  mkvec3 (vx a + vx b) (vy a + vy b) (vz a + vz b).

(** Modelled from the spec: [vec3::operator-] of the missing [vec3.h]. *)
Definition vsub (a b : vec3) : vec3 :=
  mkvec3 (vx a - vx b) (vy a - vy b) (vz a - vz b).

(** Modelled from the spec: unary minus of the missing [vec3.h]. *)
Definition vneg (a : vec3) : vec3 := mkvec3 (- vx a) (- vy a) (- vz a).

(** Modelled from the spec: the component-wise product of two colours
    ([operator*(vec3, vec3)] of the missing [vec3.h]). *)
Definition vmul (a b : vec3) : vec3 :=
  mkvec3 (vx a * vx b) (vy a * vy b) (vz a * vz b).

(** Modelled from the spec: [operator*(double, vec3)] of the missing
    [vec3.h]. *)
Definition vscale (t : double) (a : vec3) : vec3 :=
  mkvec3 (t * vx a) (t * vy a) (t * vz a).

(** Modelled from the spec: [operator*(vec3, double)] of the missing
    [vec3.h], which forwards to [t * v]. *)
Definition vscale_r (a : vec3) (t : double) : vec3 := vscale t a.

(** Modelled from the spec: [operator/(vec3, double)] of the missing
    [vec3.h], which multiplies by the reciprocal. *)
Definition vdiv (a : vec3) (t : double) : vec3 := vscale (1 / t) a.

(** Modelled from the spec: [dot] of the missing [vec3.h]. *)
Definition dot (a b : vec3) : double :=
  vx a * vx b + vy a * vy b + vz a * vz b.

(** Modelled from the spec: [cross] of the missing [vec3.h]. *)
Definition cross (a b : vec3) : vec3 :=
  mkvec3 (vy a * vz b - vz a * vy b)
         (vz a * vx b - vx a * vz b)
         (vx a * vy b - vy a * vx b).

(** Modelled from the spec: [vec3::length_squared] of the missing
    [vec3.h]. *)
Definition length_squared (a : vec3) : double :=
  vx a * vx a + vy a * vy a + vz a * vz a.

(** Modelled from the spec: [vec3::length] of the missing [vec3.h]. *)
Definition length (a : vec3) : double := sqrt (length_squared a).

(** Modelled from the spec: [unit_vector] of the missing [vec3.h]. *)
Definition unit_vector (a : vec3) : vec3 := vdiv a (length a).

Infix "+" := vadd : vec_scope.
Infix "-" := vsub : vec_scope.
Infix "*" := vmul : vec_scope.
Infix "*:" := vscale (at level 40, left associativity) : vec_scope.
Infix ":*" := vscale_r (at level 40, left associativity) : vec_scope.
Infix "/:" := vdiv (at level 40, left associativity) : vec_scope.

Definition black : color := mkvec3 0 0 0.

(** ** The random generator *)

(** Modelled from the spec: [random_double()] of the missing
    [rtweekend.h], "a uniform [0,1) source".  The generator's state is the
    sequence of draws it is still going to deliver; a draw takes the head
    of the sequence. *)
Definition rng : Type := nat -> double.

(** Computations that draw random numbers: they take the generator and
    return it with their result. *)
Definition M (A : Type) : Type := rng -> A * rng.

Definition ret {A} (a : A) : M A := fun s => (a, s).

Definition bind {A B} (m : M A) (f : A -> M B) : M B :=
  fun s => let (a, s') := m s in f a s'.

Notation "x <- m ;; k" := (bind m (fun x => k))
  (at level 61, m at next level, right associativity).

(** Modelled from the spec: [random_double()] of the missing
    [rtweekend.h]: the next draw of the generator. *)
Definition random_double : M double :=
  fun s => (s O, fun n => s (S n)).

(** ** Rays, intervals and hit records *)

(** Modelled from the spec: the [ray] class of the missing [ray.h]:
    "origin point, direction vector, scalar time". *)
Record ray : Type := mkray { origin : point3; direction : vec3; time : double }.

(** Modelled from the spec: the [interval] class of the missing
    [interval.h], a pair of bounds. *)
Record interval : Type := mkinterval { imin : double; imax : double }.

(** Modelled from the spec: [interval::clamp] of the missing
    [interval.h], which saturates at the two ends ("clamped exponent",
    "clamped cos"). *)
Definition clamp (i : interval) (x : double) : double :=
  if x <? imin i then imin i else if imax i <? x then imax i else x.

(** A [shared_ptr<material>] is the address of a material; the camera
    section below takes the store that maps addresses to materials. *)
Definition mat_ptr : Type := nat.

(** Modelled from the spec: [hit_record] of the missing [hittable.h]:
    "intersection point, surface normal, parametric distance t, surface
    parametrization (u,v), front-face flag, non-owning reference to the
    material at the hit". *)
Record hit_record : Type := mkhit_record {
  rec_p : point3;
  rec_normal : vec3;
  rec_mat : mat_ptr;
  rec_t : double;
  rec_u : double;
  rec_v : double;
  rec_front_face : bool
}.

(** ** The [pdf] interface and its implementations ([pdf.h]) *)

(** [class pdf]: the two pure-virtual methods. *)
Record pdf : Type := mkpdf {
  value : vec3 -> double;
  generate : M vec3
}.

(** Modelled from the spec: [class hittable] of the missing [hittable.h],
    restricted to the methods the embedded code calls.  [hit] returns the
    record it fills in when it answers [true]; it may draw random numbers
    ([constant_medium::hit] does). *)
Record hittable : Type := mkhittable {
  hit : ray -> interval -> M (option hit_record);
  pdf_value : point3 -> vec3 -> double;
  random : point3 -> M vec3
}.

(** [class hittable_pdf]. *)
Definition hittable_pdf (objects : hittable) (origin : point3) : pdf :=
  {| value := fun direction => pdf_value objects origin direction;
     generate := random objects origin |}.

(** [class mixture_pdf]. *)
Definition mixture_pdf (p0 p1 : pdf) : pdf :=
  {| value := fun direction => 0.5 * value p0 direction + 0.5 * value p1 direction;
     generate := r <- random_double ;;
                 if r <? 0.5 then generate p0 else generate p1 |}.

(** [sphere_pdf::value]. *)
Definition sphere_pdf_value (direction : vec3) : double := 1 / (4 * pi).

(** The number of points [k / n], [0 <= k < n], of the equally spaced grid
    on [0,1) that send [mixture_pdf::generate] to its first component. *)
Definition coin_heads_on_grid (n : Z) : Z :=
  snd (Z.iter n
         (fun '(k, heads) =>
            ((k + 1)%Z,
             if double_of_int k / double_of_int n <? 0.5 then (heads + 1)%Z else heads))
         (0%Z, 0%Z)).

(** ** What the embedded code takes from headers that are not among the
       sources *)

(** The [<cmath>] functions that IEEE-754 does not define exactly
    ([std::sqrt], which it does, is the primitive [sqrt]). *)
Class Libm : Type := {
  std_pow : double -> double -> double;
  std_cos : double -> double;
  std_sin : double -> double;
  std_tan : double -> double
}.

(** [random_int] of [rtweekend.h], [random_in_unit_disk] of [vec3.h] and
    the orthonormal basis [onb] of [onb.h]. *)
Class Externals : Type := {
  random_int : Z -> Z -> M Z;
  random_in_unit_disk : M vec3;
  onb : Type;
  onb_new : vec3 -> onb;
  onb_w : onb -> vec3;
  onb_transform : onb -> vec3 -> vec3
}.

(** *** [class phong_pdf] *)

Record phong_pdf `{Externals} : Type := mkphong_pdf {
  ph_uvw : onb;
  ph_alpha : double;
  ph_n : vec3
}.

(** The constructor [phong_pdf(w, alpha, n)]. *)
Definition phong_pdf_new `{Externals} (w : vec3) (alpha : double) (n : vec3)
  : phong_pdf :=
  {| ph_alpha := clamp (mkinterval 0.1 1000.0) alpha;
     ph_n := n;
     ph_uvw := onb_new w |}.

(** [phong_pdf::value]. *)
Definition phong_pdf_value `{Libm} `{Externals} (ph : phong_pdf) (direction : vec3)
  : double :=
  let cosine_theta := dot (unit_vector direction) (onb_w (ph_uvw ph)) in
  let cosine_theta := clamp (mkinterval 0.0 1.0) cosine_theta in
  (ph_alpha ph + 1) * std_pow cosine_theta (ph_alpha ph) / (2 * pi).

(** One turn of the [while (true)] loop of [phong_pdf::generate]: the
    candidate direction built from two draws. *)
Definition phong_pdf_candidate `{Libm} `{Externals} (ph : phong_pdf) : M vec3 :=
  r1 <- random_double ;;
  let phi := r1 * 2 * pi in
  r2 <- random_double ;;
  let xi := std_max 1e-10 r2 in
  let cos_theta := std_pow xi (1.0 / (ph_alpha ph + 1)) in
  let sin_theta := sqrt (std_max 0.0 (1.0 - cos_theta * cos_theta)) in
  ret (onb_transform (ph_uvw ph)
         (mkvec3 (std_cos phi * sin_theta) (std_sin phi * sin_theta) cos_theta)).

(** [phong_pdf::generate].  The loop has no bound in the source; [fuel]
    bounds the number of turns, and [None] says that the loop is still
    running when the fuel is spent. *)
Fixpoint phong_pdf_generate `{Libm} `{Externals} (fuel : nat) (ph : phong_pdf)
  (s : rng) : option (vec3 * rng) :=
  match fuel with
  | O => None
  | S fuel' =>
      let (direction, s') := phong_pdf_candidate ph s in
      if 0 <? dot direction (ph_n ph) then Some (direction, s')
      else phong_pdf_generate fuel' ph s'
  end.

(** ** [class hittable_list] ([hittable_list.h]) *)

(** The loop of [hittable_list::hit]: [rec] is the record written so far
    ([None] while [hit_anything] is false). *)
Fixpoint hittable_list_hit_loop (objects : list hittable) (r : ray)
  (ray_t_min closest_so_far : double) (rec : option hit_record)
  : M (option hit_record) :=
  match objects with
  | [] => ret rec
  | object :: rest =>
      h <- hit object r (mkinterval ray_t_min closest_so_far) ;;
      match h with
      | Some temp_rec =>
          hittable_list_hit_loop rest r ray_t_min (rec_t temp_rec) (Some temp_rec)
      | None => hittable_list_hit_loop rest r ray_t_min closest_so_far rec
      end
  end.

(** [hittable_list::hit]. *)
Definition hittable_list_hit (objects : list hittable) (r : ray) (ray_t : interval)
  : M (option hit_record) :=
  hittable_list_hit_loop objects r (imin ray_t) (imax ray_t) None.

(** [objects.size()]. *)
Definition size (objects : list hittable) : Z := Z.of_nat (List.length objects).

(** [hittable_list::pdf_value]. *)
Definition hittable_list_pdf_value (objects : list hittable)
  (origin : point3) (direction : vec3) : double :=
  let weight := 1.0 / double_of_int (size objects) in
  fold_left (fun sum object => sum + weight * pdf_value object origin direction)
            objects 0.0.

(** [objects[k]]: an index outside [0 .. size-1] is undefined behaviour,
    [None] here. *)
Definition index (objects : list hittable) (k : Z) : option hittable :=
  if ((0 <=? k) && (k <? size objects))%Z then nth_error objects (Z.to_nat k)
  else None.

(** [hittable_list::random]; [None] when the indexing is out of bounds. *)
Definition hittable_list_random `{Externals} (objects : list hittable)
  (origin : point3) : M (option vec3) :=
  let int_size := wrap_int (size objects) in
  k <- random_int 0 (wrap_int (int_size - 1)) ;;
  match index objects k with
  | Some object => d <- random object origin ;; ret (Some d)
  | None => ret None
  end.

(** ** Materials *)

(** Modelled from the spec: [scatter_record] of the missing [material.h]:
    "attenuation color, either a direction-sampling PDF object or a flag
    skip_pdf with an explicit continuation ray". *)
Record scatter_record : Type := mkscatter_record {
  attenuation : color;
  pdf_ptr : pdf;
  skip_pdf : bool;
  skip_pdf_ray : ray
}.

(** Modelled from the spec: [class material] of the missing [material.h].
    [scatter] returns the record it fills in when it answers [true], and
    may draw random numbers. *)
Record material : Type := mkmaterial {
  emitted : ray -> hit_record -> double -> double -> point3 -> color;
  scatter : ray -> hit_record -> M (option scatter_record);
  scattering_pdf : ray -> hit_record -> ray -> double
}.

(** The store of materials: what [rec.mat->] dereferences. *)
Class Materials : Type := { deref : mat_ptr -> material }.

(** The emission [rec.mat->emitted(r, rec, rec.u, rec.v, rec.p)] that the
    four estimators evaluate at a hit. *)
Definition emission `{Materials} (r : ray) (rec : hit_record) : color :=
  emitted (deref (rec_mat rec)) r rec (rec_u rec) (rec_v rec) (rec_p rec).

(** ** [class camera] ([camera.h]) *)

Inductive RenderMode : Type := BSDF_SAMPLING | MIXTURE_SAMPLING | NEE | MIS.

(** The public data members. *)
Record camera : Type := mkcamera {
  aspect_ratio : double;
  image_width : Z;
  samples_per_pixel : Z;
  max_depth : Z;
  background : color;
  vfov : double;
  lookfrom : point3;
  lookat : point3;
  vup : vec3;
  defocus_angle : double;
  focus_dist : double;
  render_mode : RenderMode
}.

(** The member initialisers of the class. *)
Definition default_camera (background : color) : camera :=
  {| aspect_ratio := 1.0;
     image_width := 100;
     samples_per_pixel := 10;
     max_depth := 10;
     background := background;
     vfov := 90;
     lookfrom := mkvec3 0 0 0;
     lookat := mkvec3 0 0 (-1);
     vup := mkvec3 0 1 0;
     defocus_angle := 0;
     focus_dist := 10;
     render_mode := MIS |}.

(** The private data members, which [initialize] computes. *)
Record camera_frame : Type := mkcamera_frame {
  image_height : Z;
  pixel_samples_scale : double;
  sqrt_spp : Z;
  recip_sqrt_spp : double;
  center : point3;
  pixel00_loc : point3;
  pixel_delta_u : vec3;
  pixel_delta_v : vec3;
  cam_u : vec3;
  cam_v : vec3;
  cam_w : vec3;
  defocus_disk_u : vec3;
  defocus_disk_v : vec3
}.

(** Modelled from the spec: [degrees_to_radians] of the missing
    [rtweekend.h]. *)
Definition degrees_to_radians (degrees : double) : double := degrees * pi / 180.0.

(** [camera::initialize].  The two [int(...)] conversions are the only
    steps that can be undefined; the frame is [None] when one of them
    is. *)
Definition initialize `{Libm} (cam : camera) : option camera_frame :=
  match int_of_double (double_of_int (image_width cam) / aspect_ratio cam),
        int_of_double (sqrt (double_of_int (samples_per_pixel cam))) with
  | Some image_height0, Some sqrt_spp =>
      let image_height := if (image_height0 <? 1)%Z then 1%Z else image_height0 in
      let pixel_samples_scale := 1.0 / double_of_int (sqrt_spp * sqrt_spp) in
      let recip_sqrt_spp := 1.0 / double_of_int sqrt_spp in
      let center := lookfrom cam in
      let theta := degrees_to_radians (vfov cam) in
      let h := std_tan (theta / 2) in
      let viewport_height := 2 * h * focus_dist cam in
      let viewport_width :=
        viewport_height * (double_of_int (image_width cam) / double_of_int image_height) in
      let w := unit_vector (lookfrom cam - lookat cam)%vec in
      let u := unit_vector (cross (vup cam) w) in
      let v := cross w u in
      let viewport_u := (viewport_width *: u)%vec in
      let viewport_v := (viewport_height *: vneg v)%vec in
      let pixel_delta_u := (viewport_u /: double_of_int (image_width cam))%vec in
      let pixel_delta_v := (viewport_v /: double_of_int image_height)%vec in
      let viewport_upper_left :=
        (center - (focus_dist cam *: w) - viewport_u /: 2 - viewport_v /: 2)%vec in
      let pixel00_loc :=
        (viewport_upper_left + 0.5 *: (pixel_delta_u + pixel_delta_v))%vec in
      let defocus_radius :=
        focus_dist cam * std_tan (degrees_to_radians (defocus_angle cam / 2)) in
      Some {| image_height := image_height;
              pixel_samples_scale := pixel_samples_scale;
              sqrt_spp := sqrt_spp;
              recip_sqrt_spp := recip_sqrt_spp;
              center := center;
              pixel00_loc := pixel00_loc;
              pixel_delta_u := pixel_delta_u;
              pixel_delta_v := pixel_delta_v;
              cam_u := u;
              cam_v := v;
              cam_w := w;
              defocus_disk_u := (u :* defocus_radius)%vec;
              defocus_disk_v := (v :* defocus_radius)%vec |}
  | _, _ => None
  end.

(** [camera::sample_square_stratified]. *)
Definition sample_square_stratified (fr : camera_frame) (s_i s_j : Z) : M vec3 :=
  r1 <- random_double ;;
  let px := ((double_of_int s_i + r1) * recip_sqrt_spp fr) - 0.5 in
  r2 <- random_double ;;
  let py := ((double_of_int s_j + r2) * recip_sqrt_spp fr) - 0.5 in
  ret (mkvec3 px py 0).

(** [camera::defocus_disk_sample]. *)
Definition defocus_disk_sample `{Externals} (fr : camera_frame) : M point3 :=
  p <- random_in_unit_disk ;;
  ret (center fr + (vx p *: defocus_disk_u fr) + (vy p *: defocus_disk_v fr))%vec.

(** [camera::get_ray]. *)
Definition get_ray `{Externals} (cam : camera) (fr : camera_frame)
  (i j s_i s_j : Z) : M ray :=
  offset <- sample_square_stratified fr s_i s_j ;;
  let pixel_sample :=
    (pixel00_loc fr
     + ((double_of_int i + vx offset)%float *: pixel_delta_u fr)
     + ((double_of_int j + vy offset)%float *: pixel_delta_v fr))%vec in
  ray_origin <- (if defocus_angle cam <=? 0 then ret (center fr)
                 else defocus_disk_sample fr) ;;
  let ray_direction := (pixel_sample - ray_origin)%vec in
  ray_time <- random_double ;;
  ret (mkray ray_origin ray_direction ray_time).

(** *** The four radiance estimators

    Each estimator is written once as its body, with the recursive calls
    going through [self]; the estimator itself ties the knot.  The
    recursion is on [depth]: a call at [depth <= 0] makes no recursive
    call, and a call at [depth > 0] only calls at [depth - 1] and at [0],
    so [S (Z.to_nat depth)] unfoldings of the body are enough (lemmas
    [ray_color_1_eq] .. [ray_color_4_eq] prove the recursive equations). *)

Fixpoint unfold_n {A : Type} (body : A -> A) (bottom : A) (n : nat) : A :=
  match n with
  | O => bottom
  | S n' => body (unfold_n body bottom n')
  end.

Section Estimators.

Context `{Libm} `{Materials}.
Variable cam : camera.

(** [camera::ray_color_1]: BSDF sampling. *)
Definition ray_color_1_body (self : ray -> Z -> M color) (r : ray) (depth : Z)
  (world lights : hittable) : M color :=
  if (depth <=? 0)%Z then ret (mkvec3 0 0 0)
  else
    h <- hit world r (mkinterval 0.001 infinity) ;;
    match h with
    | None => ret (background cam)
    | Some rec =>
        let mat := deref (rec_mat rec) in
        let color_from_emission := emitted mat r rec (rec_u rec) (rec_v rec) (rec_p rec) in
        sc <- scatter mat r rec ;;
        match sc with
        | None => ret color_from_emission
        | Some srec =>
            if skip_pdf srec then
              c <- self (skip_pdf_ray srec) (depth - 1)%Z ;;
              ret (attenuation srec * c)%vec
            else
              dir <- generate (pdf_ptr srec) ;;
              if length_squared dir <? 0.0001 then ret color_from_emission
              else
                let scattered := mkray (rec_p rec) dir (time r) in
                let pdf_value := value (pdf_ptr srec) (direction scattered) in
                let scattering_pdf := scattering_pdf mat r rec scattered in
                sample_color <- self scattered (depth - 1)%Z ;;
                let color_from_scatter :=
                  ((attenuation srec :* scattering_pdf * sample_color) /: pdf_value)%vec in
                ret (color_from_emission + color_from_scatter)%vec
        end
    end.

Definition ray_color_1 (r : ray) (depth : Z) (world lights : hittable) : M color :=
  unfold_n (fun self r' depth' => ray_color_1_body self r' depth' world lights)
           (fun _ _ => ret black) (S (Z.to_nat depth)) r depth.

(** [camera::ray_color_2]: mixture sampling. *)
Definition ray_color_2_body (self : ray -> Z -> M color) (r : ray) (depth : Z)
  (world lights : hittable) : M color :=
  if (depth <=? 0)%Z then ret (mkvec3 0 0 0)
  else
    h <- hit world r (mkinterval 0.001 infinity) ;;
    match h with
    | None => ret (background cam)
    | Some rec =>
        let mat := deref (rec_mat rec) in
        let color_from_emission := emitted mat r rec (rec_u rec) (rec_v rec) (rec_p rec) in
        sc <- scatter mat r rec ;;
        match sc with
        | None => ret color_from_emission
        | Some srec =>
            if skip_pdf srec then
              c <- self (skip_pdf_ray srec) (depth - 1)%Z ;;
              ret (attenuation srec * c)%vec
            else
              let light_ptr := hittable_pdf lights (rec_p rec) in
              let p := mixture_pdf light_ptr (pdf_ptr srec) in
              dir <- generate p ;;
              let scattered := mkray (rec_p rec) dir (time r) in
              let pdf_value := value p (direction scattered) in
              let scattering_pdf := scattering_pdf mat r rec scattered in
              sample_color <- self scattered (depth - 1)%Z ;;
              let color_from_scatter :=
                ((attenuation srec :* scattering_pdf * sample_color) /: pdf_value)%vec in
              ret (color_from_emission + color_from_scatter)%vec
        end
    end.

Definition ray_color_2 (r : ray) (depth : Z) (world lights : hittable) : M color :=
  unfold_n (fun self r' depth' => ray_color_2_body self r' depth' world lights)
           (fun _ _ => ret black) (S (Z.to_nat depth)) r depth.

(** [camera::ray_color_3]: next-event estimation. *)
Definition ray_color_3_body (self : ray -> Z -> bool -> M color)
  (r : ray) (depth : Z) (world lights : hittable) (includeLe : bool) : M color :=
  h <- hit world r (mkinterval 0.001 infinity) ;;
  match h with
  | None => ret (background cam)
  | Some rec =>
      let mat := deref (rec_mat rec) in
      let Le := if includeLe then emitted mat r rec (rec_u rec) (rec_v rec) (rec_p rec)
                else mkvec3 0 0 0 in
      if (depth <=? 0)%Z then ret Le
      else
        sc <- scatter mat r rec ;;
        match sc with
        | None => ret Le
        | Some srec =>
            if skip_pdf srec then
              c <- self (skip_pdf_ray srec) (depth - 1)%Z true ;;
              ret (attenuation srec * c)%vec
            else
              let light_ptr := hittable_pdf lights (rec_p rec) in
              ldir <- generate light_ptr ;;
              let light_ray := mkray (rec_p rec) ldir (time r) in
              let brdf := (attenuation srec :* scattering_pdf mat r rec light_ray)%vec in
              let pdf_light := value light_ptr (direction light_ray) in
              cdir <- self light_ray 0%Z true ;;
              let Ldir := (brdf * cdir /: pdf_light)%vec in
              bdir <- generate (pdf_ptr srec) ;;
              let bsdf_ray := mkray (rec_p rec) bdir (time r) in
              let bsdf := (attenuation srec :* scattering_pdf mat r rec bsdf_ray)%vec in
              let pdf_bsdf := value (pdf_ptr srec) (direction bsdf_ray) in
              cind <- self bsdf_ray (depth - 1)%Z false ;;
              let Lind := (bsdf * cind /: pdf_bsdf)%vec in
              ret (Le + Ldir + Lind)%vec
        end
  end.

Definition ray_color_3 (r : ray) (depth : Z) (world lights : hittable)
  (includeLe : bool) : M color :=
  unfold_n (fun self r' depth' w' => ray_color_3_body self r' depth' world lights w')
           (fun _ _ _ => ret black) (S (Z.to_nat depth)) r depth includeLe.

(** [camera::ray_color_4]: multiple importance sampling.  The call on the
    [skip_pdf] path passes [true] for [Leweight], which converts to
    [1.0]. *)
Definition ray_color_4_body (self : ray -> Z -> double -> M color)
  (r : ray) (depth : Z) (world lights : hittable) (Leweight : double) : M color :=
  h <- hit world r (mkinterval 0.001 infinity) ;;
  match h with
  | None => ret (background cam)
  | Some rec =>
      let mat := deref (rec_mat rec) in
      let Le := (Leweight *: emitted mat r rec (rec_u rec) (rec_v rec) (rec_p rec))%vec in
      if (depth <=? 0)%Z then ret Le
      else
        sc <- scatter mat r rec ;;
        match sc with
        | None => ret Le
        | Some srec =>
            if skip_pdf srec then
              c <- self (skip_pdf_ray srec) (depth - 1)%Z 1.0 ;;
              ret (attenuation srec * c)%vec
            else
              let light_ptr := hittable_pdf lights (rec_p rec) in
              ldir <- generate light_ptr ;;
              let light_ray := mkray (rec_p rec) ldir (time r) in
              let brdf := (attenuation srec :* scattering_pdf mat r rec light_ray)%vec in
              let pdf_light := value light_ptr (direction light_ray) in
              let pdf_light_bsdf := value (pdf_ptr srec) (direction light_ray) in
              let weight_light :=
                std_pow pdf_light 2 / (std_pow pdf_light 2 + std_pow pdf_light_bsdf 2) in
              cdir <- self light_ray 0%Z weight_light ;;
              let Ldir := (brdf * cdir /: pdf_light)%vec in
              dir <- generate (pdf_ptr srec) ;;
              let bsdf_ray := mkray (rec_p rec) dir (time r) in
              let bsdf := (attenuation srec :* scattering_pdf mat r rec bsdf_ray)%vec in
              let pdf_bsdf := value (pdf_ptr srec) (direction bsdf_ray) in
              let pdf_bsdf_light := value light_ptr (direction bsdf_ray) in
              let weight_bsdf :=
                std_pow pdf_bsdf 2 / (std_pow pdf_bsdf 2 + std_pow pdf_bsdf_light 2) in
              cind <- self bsdf_ray (depth - 1)%Z weight_bsdf ;;
              let Lind := (bsdf * cind /: pdf_bsdf)%vec in
              ret (Le + Ldir + Lind)%vec
        end
  end.

Definition ray_color_4 (r : ray) (depth : Z) (world lights : hittable)
  (Leweight : double) : M color :=
  unfold_n (fun self r' depth' w' => ray_color_4_body self r' depth' world lights w')
           (fun _ _ _ => ret black) (S (Z.to_nat depth)) r depth Leweight.

End Estimators.

(** *** The render loop *)

(** The values [0, 1, .., n-1] a counter takes in
    [for (int k = 0; k < n; k++)]; none when [n <= 0]. *)
Definition counter_values (n : Z) : list Z := map Z.of_nat (seq 0 (Z.to_nat n)).

(** A [for] loop over the counter values that updates the loop state
    [acc]. *)
Fixpoint for_each {A S : Type} (ks : list A) (body : A -> S -> M S) (acc : S) : M S :=
  match ks with
  | [] => ret acc
  | k :: ks' => acc' <- body k acc ;; for_each ks' body acc'
  end.

(** A [for] loop that fills one slot of a [std::vector] per turn. *)
Fixpoint for_each_collect {A B : Type} (ks : list A) (body : A -> M B) : M (list B) :=
  match ks with
  | [] => ret []
  | k :: ks' => b <- body k ;; bs <- for_each_collect ks' body ;; ret (b :: bs)
  end.

Section Render.

Context `{Libm} `{Externals} `{Materials}.
Variable cam : camera.
Variable fr : camera_frame.
Variables world lights : hittable.

(** The [switch (render_mode)] of [camera::render]. *)
Definition ray_color (r : ray) : M color :=
  match render_mode cam with
  | BSDF_SAMPLING => ray_color_1 cam r (max_depth cam) world lights
  | MIXTURE_SAMPLING => ray_color_2 cam r (max_depth cam) world lights
  | NEE => ray_color_3 cam r (max_depth cam) world lights true
  | MIS => ray_color_4 cam r (max_depth cam) world lights 1.0
  end.

(** The body of the innermost loop, up to the assignment of [c]: the
    radiance of the sample in sub-pixel cell [(s_i, s_j)] of pixel
    [(i, j)]. *)
Definition sample_radiance (i j s_i s_j : Z) : M color :=
  r <- get_ray cam fr i j s_i s_j ;;
  ray_color r.

(** The accumulators [x], [y], [z]. *)
Definition accumulate (xyz : double * double * double) (c : color)
  : double * double * double :=
  let '(x, y, z) := xyz in (x + vx c, y + vy c, z + vz c).

(** The body of the [i] loop: the colour stored in [img[j][i]]. *)
Definition render_pixel (i j : Z) : M color :=
  xyz <- for_each (counter_values (sqrt_spp fr))
           (fun s_j acc =>
              for_each (counter_values (sqrt_spp fr))
                (fun s_i acc' =>
                   c <- sample_radiance i j s_i s_j ;;
                   ret (accumulate acc' c))
                acc)
           (0, 0, 0) ;;
  let '(x, y, z) := xyz in
  ret (mkvec3 x y z :* pixel_samples_scale fr)%vec.

(** The two outer loops: the image buffer [img], row by row. *)
Definition render_image : M (list (list color)) :=
  for_each_collect (counter_values (image_height fr))
    (fun j => for_each_collect (counter_values (image_width cam))
                (fun i => render_pixel i j)).

End Render.

(** [camera::render], up to the image buffer it fills; writing the buffer
    out is left to [write_color], which is not among the sources. *)
Definition render `{Libm} `{Externals} `{Materials} (cam : camera)
  (world lights : hittable) : option (M (list (list color))) :=
  match initialize cam with
  | Some fr => Some (render_image cam fr world lights)
  | None => None
  end.

(** The sub-pixel cells in the order the two inner loops visit them. *)
Definition sample_cells (s : Z) : list (Z * Z) :=
  flat_map (fun s_j => map (fun s_i => (s_i, s_j)) (counter_values s))
           (counter_values s).

(** The radiances of the samples of pixel [(i, j)], drawn one after the
    other in loop order. *)
Definition pixel_radiances `{Libm} `{Externals} `{Materials} (cam : camera)
  (fr : camera_frame) (world lights : hittable) (i j : Z) : M (list color) :=
  for_each_collect (sample_cells (sqrt_spp fr))
    (fun cell => sample_radiance cam fr world lights i j (fst cell) (snd cell)).


(** ** Specification-side definitions *)

(** The power heuristic as the spec words it: the squared density of the
    technique used over the sum of both squared densities. *)
Definition power_heuristic `{Libm} (pdf_used pdf_other : double) : double :=
  std_pow pdf_used 2 / (std_pow pdf_used 2 + std_pow pdf_other 2).

(** The density of a uniform discrete mixture as the spec words it: each
    of the [N] member densities enters with weight [1/N]; the sum runs
    over the members in order. *)
Fixpoint weighted_sum (weight : double) (densities : list double) (sum : double)
  : double :=
  match densities with
  | [] => sum
  | d :: rest => weighted_sum weight rest (sum + weight * d)
  end.

Definition uniform_mixture_density (members : list hittable)
  (origin : point3) (direction : vec3) : double :=
  weighted_sum (1.0 / double_of_int (Z.of_nat (List.length members)))
               (map (fun m => pdf_value m origin direction) members) 0.0.

(** Two worlds that answer every query on the interval
    [(0.001, infinity)] alike. *)
Definition same_hits (world1 world2 : hittable) : Prop :=
  forall r s, hit world1 r (mkinterval 0.001 infinity) s
              = hit world2 r (mkinterval 0.001 infinity) s.

(** ** A concrete scene

    Stand-ins for the missing headers and a small scene, on which the
    definitions above can be run.  The theorems below hold for every
    instance of [Libm], [Externals] and [Materials]; these instances only
    serve to evaluate them on concrete inputs. *)

(** A stand-in for [<cmath>]: [std_pow] squares when the exponent is [2],
    [std_cos] and [std_sin] are the values at angle zero. *)
#[export] Instance crude_libm : Libm :=
  {| std_pow := fun x y => if y =? 2 then x * x else x;
     std_cos := fun _ => 1;
     std_sin := fun _ => 0;
     std_tan := fun x => x |}.

(** [random_int(min, max)] as [int(min + (max + 1 - min) * random_double())]. *)
Definition linear_random_int (min max : Z) : M Z :=
  r <- random_double ;;
  ret (match int_of_double (double_of_int min
                            + (double_of_int (max + 1) - double_of_int min) * r) with
       | Some k => k
       | None => 0%Z
       end).

(** An orthonormal basis around [n], kept as its three axes. *)
Definition axes_new (n : vec3) : vec3 * vec3 * vec3 :=
  let w := unit_vector n in
  let a := if 0.9 <? abs (vx w) then mkvec3 0 1 0 else mkvec3 1 0 0 in
  let v := unit_vector (cross w a) in
  let u := cross w v in
  (u, v, w).

Definition axes_transform (uvw : vec3 * vec3 * vec3) (a : vec3) : vec3 :=
  let '(u, v, w) := uvw in
  (vx a *: u + vy a *: v + vz a *: w)%vec.

#[export] Instance plain_externals : Externals :=
  {| random_int := linear_random_int;
     random_in_unit_disk :=
       (r1 <- random_double ;; r2 <- random_double ;;
        ret (mkvec3 (r1 - 0.5) (r2 - 0.5) 0));
     onb := (vec3 * vec3 * vec3)%type;
     onb_new := axes_new;
     onb_w := fun uvw => snd uvw;
     onb_transform := axes_transform |}.

Definition up : vec3 := mkvec3 0 1 0.
Definition down : vec3 := mkvec3 0 (-1) 0.
Definition grey : color := mkvec3 0.5 0.5 0.5.
Definition white : color := mkvec3 1 1 1.

(** A generator that delivers [c] forever. *)
Definition constant_tape (c : double) : rng := fun _ => c.

(** A density that always proposes the direction [d]. *)
Definition fixed_pdf (density : double) (d : vec3) : pdf :=
  {| value := fun _ => density; generate := ret d |}.

(** A density that proposes the null vector and is zero there. *)
Definition null_pdf : pdf :=
  {| value := fun d => if length_squared d <? 0.0001 then 0 else 0.5;
     generate := ret (mkvec3 0 0 0) |}.

Definition no_ray : ray := mkray (mkvec3 0 0 0) (mkvec3 0 0 0) 0.

(** A matt, non-emissive surface. *)
Definition matt_scatter : scatter_record :=
  mkscatter_record grey (fixed_pdf 0.5 up) false no_ray.

Definition matt : material :=
  {| emitted := fun _ _ _ _ _ => mkvec3 0 0 0;
     scatter := fun _ _ => ret (Some matt_scatter);
     scattering_pdf := fun _ _ _ => 0.25 |}.

(** A light: it emits and does not scatter. *)
Definition lamp_material : material :=
  {| emitted := fun _ _ _ _ _ => mkvec3 15 15 15;
     scatter := fun _ _ => ret None;
     scattering_pdf := fun _ _ _ => 0 |}.

(** A mirror: it continues along an explicit ray. *)
Definition mirror : material :=
  {| emitted := fun _ _ _ _ _ => mkvec3 0 0 0;
     scatter := fun r rec =>
       ret (Some (mkscatter_record white (fixed_pdf 0 up) true
                    (mkray (rec_p rec) up (time r))));
     scattering_pdf := fun _ _ _ => 0 |}.

(** A non-emissive surface whose scatter density proposes the null
    vector. *)
Definition grazing_scatter : scatter_record :=
  mkscatter_record grey null_pdf false no_ray.

Definition grazing : material :=
  {| emitted := fun _ _ _ _ _ => mkvec3 0 0 0;
     scatter := fun _ _ => ret (Some grazing_scatter);
     scattering_pdf := fun _ _ _ => 0.25 |}.

(** The addresses of the four materials. *)
Definition matt_ptr : mat_ptr := 0%nat.
Definition lamp_ptr : mat_ptr := 1%nat.
Definition mirror_ptr : mat_ptr := 2%nat.
Definition grazing_ptr : mat_ptr := 3%nat.

#[export] Instance scene_materials : Materials :=
  {| deref := fun m =>
       match m with
       | 0%nat => matt
       | 1%nat => lamp_material
       | 2%nat => mirror
       | _ => grazing
       end |}.

(** A floor of material [floor_mat] below and a lamp above: a ray going
    down hits the floor, a ray going up hits the lamp, both at [t = 1];
    any other ray hits nothing. *)
Definition floor_hit (floor_mat : mat_ptr) : hit_record :=
  mkhit_record (mkvec3 0 0 0) up floor_mat 1 0 0 true.

Definition lamp_hit : hit_record :=
  mkhit_record (mkvec3 0 1 0) down lamp_ptr 1 0 0 true.

Definition room (floor_mat : mat_ptr) : hittable :=
  {| hit := fun r ray_t =>
       ret (if (imin ray_t <? 1) && (1 <? imax ray_t) then
              if vy (direction r) <? 0 then Some (floor_hit floor_mat)
              else if 0 <? vy (direction r) then Some lamp_hit
              else None
            else None);
     pdf_value := fun _ _ => 0;
     random := fun _ => ret up |}.

(** The same room to every query on the interval [(0.001, infinity)],
    and a wall in the way on every other interval. *)
Definition walled_room (floor_mat : mat_ptr) : hittable :=
  {| hit := fun r ray_t =>
       if (imin ray_t =? 0.001) && (imax ray_t =? infinity)
       then hit (room floor_mat) r ray_t
       else ret (Some lamp_hit);
     pdf_value := fun _ _ => 0;
     random := fun _ => ret up |}.

(** Nothing to hit. *)
Definition empty_world : hittable :=
  {| hit := fun _ _ => ret None;
     pdf_value := fun _ _ => 0;
     random := fun _ => ret up |}.

(** The lamp as a light to sample: its direction is [up]. *)
Definition lamp : hittable :=
  {| hit := fun _ _ => ret None;
     pdf_value := fun _ d => if 0 <? vy d then 0.25 else 0;
     random := fun _ => ret up |}.

Definition ray_down : ray := mkray (mkvec3 0 1 0) down 0.
Definition ray_up : ray := mkray (mkvec3 0 0 0) up 0.
Definition ray_level : ray := mkray (mkvec3 0 0 0) (mkvec3 1 0 0) 0.

(** The configuration of [main.cc], on a 2 x 2 image. *)
Definition main_camera : camera :=
  {| aspect_ratio := 1.0;
     image_width := 2;
     samples_per_pixel := 150;
     max_depth := 50;
     background := mkvec3 0 0 0;
     vfov := 40;
     lookfrom := mkvec3 278 278 (-800);
     lookat := mkvec3 278 278 0;
     vup := mkvec3 0 1 0;
     defocus_angle := 0;
     focus_dist := 10;
     render_mode := BSDF_SAMPLING |}.

(** ** Further code of the embedded files *)

(** *** [class cosine_pdf] ([pdf.h]) *)

(** [std::fmax(a, b)]: the larger operand; a NaN operand is ignored. *)
Definition std_fmax (a b : double) : double :=
  if is_nan a then b else if is_nan b then a else if a <? b then b else a.

Record cosine_pdf `{Externals} : Type := mkcosine_pdf { cos_uvw : onb }.

(** The constructor [cosine_pdf(w)]. *)
Definition cosine_pdf_new `{Externals} (w : vec3) : cosine_pdf :=
  {| cos_uvw := onb_new w |}.

(** [cosine_pdf::value]. *)
Definition cosine_pdf_value `{Externals} (cp : cosine_pdf) (direction : vec3)
  : double :=
  let cosine_theta := dot (unit_vector direction) (onb_w (cos_uvw cp)) in
  std_fmax 0 (cosine_theta / pi).

(** *** The container part of [class hittable_list] ([hittable_list.h]) *)

(** [class aabb] of [aabb.h] and the [bounding_box] method of
    [class hittable], neither among the sources: the default box
    [aabb()], the box [aabb(box0, box1)] around two boxes, and the box of
    an object. *)
Class Boxes : Type := {
  aabb : Type;
  aabb_default : aabb;
  aabb_around : aabb -> aabb -> aabb;
  bounding_box : hittable -> aabb
}.

(** The data members [objects] and [bbox]. *)
Record hittable_list `{Boxes} : Type := mkhittable_list {
  hl_objects : list hittable;
  hl_bbox : aabb
}.

(** The constructor [hittable_list()]. *)
Definition hittable_list_new `{Boxes} : hittable_list :=
  {| hl_objects := []; hl_bbox := aabb_default |}.

(** [hittable_list::add]. *)
Definition hittable_list_add `{Boxes} (l : hittable_list) (object : hittable)
  : hittable_list :=
  {| hl_objects := hl_objects l ++ [object];
     hl_bbox := aabb_around (hl_bbox l) (bounding_box object) |}.

(** The constructor [hittable_list(object)]. *)
Definition hittable_list_of `{Boxes} (object : hittable) : hittable_list :=
  hittable_list_add hittable_list_new object.

(** [hittable_list::clear]: it empties [objects] and leaves [bbox]. *)
Definition hittable_list_clear `{Boxes} (l : hittable_list) : hittable_list :=
  {| hl_objects := []; hl_bbox := hl_bbox l |}.

(** [hittable_list::bounding_box]. *)
Definition hittable_list_bounding_box `{Boxes} (l : hittable_list) : aabb :=
  hl_bbox l.

(** *** [class constant_medium] ([constant_medium.h]) *)

(** [std::log] of [<cmath>]. *)
Class Logarithm : Type := { std_log : double -> double }.

(** Modelled from the spec: [ray::at] of the missing [ray.h], the point
    at parameter [t] of a ray. *)
Definition ray_at (r : ray) (t : double) : point3 :=
  (origin r + t *: direction r)%vec.

(** Modelled from the spec: [interval::universe] of the missing
    [interval.h], the interval of all numbers. *)
Definition universe : interval := mkinterval (- infinity) infinity.

(** The data members; [phase_function] is the address of the isotropic
    material that the constructor allocates. *)
Record constant_medium : Type := mkconstant_medium {
  boundary : hittable;
  neg_inv_density : double;
  phase_function : mat_ptr
}.

(** The two constructors, after the allocation of the phase function. *)
Definition constant_medium_new (boundary : hittable) (density : double)
  (phase_function : mat_ptr) : constant_medium :=
  {| boundary := boundary;
     neg_inv_density := (-1) / density;
     phase_function := phase_function |}.

(** [constant_medium::hit].  [rec] is the caller's record, which the
    method receives by reference: it writes the fields [t], [p],
    [normal], [front_face] and [mat], and leaves [u] and [v] as they
    are. *)
Definition constant_medium_hit `{Logarithm} (cm : constant_medium)
  (r : ray) (ray_t : interval) (rec : hit_record) : M (option hit_record) :=
  h1 <- hit (boundary cm) r universe ;;
  match h1 with
  | None => ret None
  | Some rec1 =>
      h2 <- hit (boundary cm) r (mkinterval (rec_t rec1 + 0.0001) infinity) ;;
      match h2 with
      | None => ret None
      | Some rec2 =>
          let t1 := if rec_t rec1 <? imin ray_t then imin ray_t else rec_t rec1 in
          let t2 := if imax ray_t <? rec_t rec2 then imax ray_t else rec_t rec2 in
          if t2 <=? t1 then ret None
          else
            let t1 := if t1 <? 0 then 0 else t1 in
            let ray_length := length (direction r) in
            let distance_inside_boundary := (t2 - t1) * ray_length in
            u <- random_double ;;
            let hit_distance := neg_inv_density cm * std_log u in
            if distance_inside_boundary <? hit_distance then ret None
            else
              let t := t1 + hit_distance / ray_length in
              ret (Some {| rec_t := t;
                           rec_p := ray_at r t;
                           rec_normal := mkvec3 1 0 0;
                           rec_front_face := true;
                           rec_mat := phase_function cm;
                           rec_u := rec_u rec;
                           rec_v := rec_v rec |})
      end
  end.

(** *** Helpers for statements *)

(** The generator after [n] draws. *)
Fixpoint after_draws (n : nat) (s : rng) : rng :=
  match n with
  | O => s
  | S n' => after_draws n' (fun k => s (S k))
  end.

(** *** More of the concrete scene *)

(** A stand-in for [aabb.h]: a box is kept as its extent in height, and
    every object is one unit high. *)
#[export] Instance height_boxes : Boxes :=
  {| aabb := interval;
     aabb_default := mkinterval infinity (- infinity);
     aabb_around := fun a b =>
       mkinterval (if imin a <? imin b then imin a else imin b)
                  (if imax a <? imax b then imax b else imax a);
     bounding_box := fun _ => mkinterval 0 1 |}.

(** A stand-in for [std::log]: its tangent at one. *)
#[export] Instance crude_log : Logarithm := {| std_log := fun x => x - 1 |}.

(** The room to every query whose interval starts at [0.001], and a wall
    in the way on every other interval. *)
Definition curtained_room (floor_mat : mat_ptr) : hittable :=
  {| hit := fun r ray_t =>
       if imin ray_t =? 0.001 then hit (room floor_mat) r ray_t
       else ret (Some lamp_hit);
     pdf_value := fun _ _ => 0;
     random := fun _ => ret up |}.

(** The lamp of [lamp], with a body that every ray hits. *)
Definition solid_lamp : hittable :=
  {| hit := fun _ _ => ret (Some lamp_hit);
     pdf_value := fun _ d => if 0 <? vy d then 0.25 else 0;
     random := fun _ => ret up |}.

(** A slab that every ray enters at [t = 1] and leaves at [t = 2]. *)
Definition slab_hit (t : double) : hit_record :=
  mkhit_record (mkvec3 0 0 0) up matt_ptr t 0 0 true.

Definition slab : hittable :=
  {| hit := fun _ ray_t =>
       ret (if (imin ray_t <? 1) && (1 <? imax ray_t) then Some (slab_hit 1)
            else if (imin ray_t <? 2) && (2 <? imax ray_t) then Some (slab_hit 2)
            else None);
     pdf_value := fun _ _ => 0;
     random := fun _ => ret up |}.

(** The record a caller hands to [hit], with [u] and [v] set. *)
Definition stale_record : hit_record :=
  mkhit_record (mkvec3 0 0 0) down lamp_ptr 7 0.25 0.75 false.

(** The default camera with another sample count or aspect ratio. *)
Definition camera_with (aspect_ratio : double) (samples_per_pixel : Z) : camera :=
  {| aspect_ratio := aspect_ratio;
     image_width := 100;
     samples_per_pixel := samples_per_pixel;
     max_depth := 10;
     background := mkvec3 0 0 0;
     vfov := 90;
     lookfrom := mkvec3 0 0 0;
     lookat := mkvec3 0 0 (-1);
     vup := mkvec3 0 1 0;
     defocus_angle := 0;
     focus_dist := 10;
     render_mode := MIS |}.

(** A generator that delivers [0.5] twice and [0.9] from then on. *)
Definition stepped_tape : rng :=
  fun k => match k with O | 1%nat => 0.5 | _ => 0.9 end.

(** A reference normal between the axis [up] and the tangent of the
    basis around it. *)
Definition slanted : vec3 := mkvec3 1 1 0.

(** * Properties of the embedded code *)

(** ** Facts about binary64 arithmetic *)

Lemma Prim2SF_zero : Prim2SF 0 = S754_zero false.
Proof. reflexivity. Qed.

Lemma is_finite_cases x :
  is_finite x = true ->
  (exists sgn, Prim2SF x = S754_zero sgn)
  \/ (exists sgn m e, Prim2SF x = S754_finite sgn m e).
Proof.
  unfold is_finite, is_nan, is_infinity.
  rewrite !FloatAxioms.eqb_spec, abs_spec.
  change (Prim2SF PrimFloat.infinity) with (S754_infinity false).
  destruct (Prim2SF x) as [sgn| sgn | | sgn m e] eqn:E; cbn.
  - intros _. left. now exists sgn.
  - destruct sgn; discriminate.
  - discriminate.
  - intros _. right. now exists sgn, m, e.
Qed.

(** A finite number times zero compares equal to zero. *)
Lemma mul_zero_finite x : is_finite x = true -> (x * 0 =? 0) = true.
Proof.
  intros Hx. rewrite FloatAxioms.eqb_spec, mul_spec, Prim2SF_zero.
  destruct (@is_finite_cases x Hx) as [[sgn ->] | (sgn & m & e & ->)]; reflexivity.
Qed.

(** A number above zero is not below zero. *)
Lemma ltb_zero_asym x : (0 <? x) = true -> (x <? 0) = false.
Proof.
  rewrite !FloatAxioms.ltb_spec, Prim2SF_zero.
  destruct (Prim2SF x) as [sgn| sgn | | sgn m e]; cbn; try discriminate.
  - destruct sgn; [discriminate | reflexivity].
  - destruct sgn; [discriminate | reflexivity].
Qed.

Lemma binary_round_aux_sign sgn m e l z k :
  binary_round_aux prec emax false m e l = S754_finite sgn z k -> sgn = false.
Proof.
  unfold binary_round_aux.
  destruct (shr_fexp prec emax m e l) as [mrs' e'].
  destruct (shr_fexp prec emax _ e' loc_Exact) as [mrs'' e''].
  destruct (shr_m mrs''); try discriminate.
  destruct (e'' <=? emax - prec)%Z; [|discriminate].
  congruence.
Qed.


(** *** The reciprocal of a member count

    [1.0 / objects.size()] is finite for every count from 1 up to the
    largest [size_t] that [double_of_int] converts. *)

Lemma digits2_pos_size p : digits2_pos p = Pos.size p.
Proof. induction p; cbn; congruence. Qed.

Lemma Zdigits2_nonneg m : (0 <= Zdigits2 m)%Z.
Proof. destruct m; cbn; lia. Qed.

Lemma Zdigits2_gt m : (0 <= m)%Z -> (m < 2 ^ Zdigits2 m)%Z.
Proof.
  destruct m as [|p|p]; intros Hm; cbn [Zdigits2]; try lia.
  rewrite digits2_pos_size.
  pose proof (Pos.size_gt p) as Hgt.
  apply Pos2Z.pos_lt_pos in Hgt. rewrite Pos2Z.inj_pow in Hgt. exact Hgt.
Qed.

Lemma Zdigits2_le_pow m k : (0 <= k)%Z -> (0 <= m < 2 ^ k)%Z -> (Zdigits2 m <= k)%Z.
Proof.
  intros Hk [Hm Hlt]. destruct m as [|p|p]; cbn [Zdigits2]; try lia.
  rewrite digits2_pos_size.
  pose proof (Pos.size_le p) as Hle.
  apply Pos2Z.pos_le_pos in Hle. rewrite Pos2Z.inj_pow in Hle.
  change (Z.pos p~0) with (2 * Z.pos p)%Z in Hle.
  (* 2 ^ size p <= 2 * p < 2 ^ (k + 1) *)
  assert (H2 : (2 ^ Z.pos (Pos.size p) < 2 ^ (k + 1))%Z).
  { replace (k + 1)%Z with (Z.succ k) by lia. rewrite Z.pow_succ_r by exact Hk. lia. }
  apply Z.pow_lt_mono_r_iff in H2; lia.
Qed.

Lemma Zdigits2_succ m : (0 <= m)%Z -> (Zdigits2 (m + 1) <= Zdigits2 m + 1)%Z.
Proof.
  intros Hm. pose proof (Zdigits2_gt Hm) as Hgt. pose proof (Zdigits2_nonneg m) as Hd.
  apply Zdigits2_le_pow; [lia|]. split; [lia|].
  replace (Zdigits2 m + 1)%Z with (Z.succ (Zdigits2 m)) by lia.
  rewrite Z.pow_succ_r by exact Hd. lia.
Qed.

Lemma Zdigits2_mono a b : (0 <= a <= b)%Z -> (Zdigits2 a <= Zdigits2 b)%Z.
Proof.
  intros [Ha Hab]. apply Zdigits2_le_pow; [apply Zdigits2_nonneg|].
  pose proof (@Zdigits2_gt b ltac:(lia)). lia.
Qed.

(** [shr_1] halves a mantissa that is not negative. *)
Lemma shr_1_div2 mrs :
  (0 <= shr_m mrs)%Z -> shr_m (shr_1 mrs) = Z.div2 (shr_m mrs).
Proof.
  destruct mrs as [m r s]. cbn [shr_m]. intros Hm.
  destruct m as [|[p|p|]|p]; cbn; try reflexivity; lia.
Qed.

Lemma iter_pos_invariant {A : Type} (f : A -> A) (R : Z -> A -> Prop) :
  (forall k x, R k x -> R (k + 1)%Z (f x)) ->
  forall p k x, R k x -> R (k + Z.pos p)%Z (iter_pos f p x).
Proof.
  intros Hstep. induction p as [p IH|p IH|]; intros k x Hx; cbn [iter_pos].
  - replace (k + Z.pos p~1)%Z with (k + 1 + Z.pos p + Z.pos p)%Z by lia.
    apply IH, IH, Hstep, Hx.
  - replace (k + Z.pos p~0)%Z with (k + Z.pos p + Z.pos p)%Z by lia.
    apply IH, IH, Hx.
  - apply Hstep, Hx.
Qed.

(** After [n] halvings a mantissa below [2 ^ d] is below
    [2 ^ max 0 (d - n)]. *)
Lemma iter_shr_1_bound p mrs d :
  (0 <= shr_m mrs < 2 ^ d)%Z -> (0 <= d)%Z ->
  (0 <= shr_m (iter_pos shr_1 p mrs) < 2 ^ Z.max 0 (d - Z.pos p))%Z.
Proof.
  intros Hm Hd.
  pose (R := fun (k : Z) (x : shr_record) =>
               (0 <= shr_m x < 2 ^ Z.max 0 (d - k))%Z).
  assert (Hstep : forall k x, R k x -> R (k + 1)%Z (shr_1 x)).
  { intros k x [Hx0 Hx1]. unfold R. rewrite shr_1_div2 by exact Hx0.
    rewrite Z.div2_div.
    remember (Z.max 0 (d - k)) as a eqn:Ha.
    remember (Z.max 0 (d - (k + 1))) as b eqn:Hb.
    assert (Hab : (a = Z.succ b /\ 0 <= b)%Z \/ (a = 0 /\ b = 0)%Z) by lia.
    destruct Hab as [[-> Hb0] | [-> ->]].
    - rewrite Z.pow_succ_r in Hx1 by exact Hb0.
      split; [apply Z.div_pos; lia|]. apply Z.div_lt_upper_bound; lia.
    - change (2 ^ 0)%Z with 1%Z in *.
      split; [apply Z.div_pos; lia|]. apply Z.div_lt_upper_bound; lia. }
  pose proof (@iter_pos_invariant _ shr_1 R Hstep p 0%Z mrs) as Hiter.
  unfold R in Hiter. rewrite Z.sub_0_r, Z.max_r in Hiter by lia.
  cbn [Z.add] in Hiter. apply Hiter, Hm.
Qed.

Lemma shr_record_of_loc_m m l : shr_m (shr_record_of_loc m l) = m.
Proof. destruct l as [|[ | | ]]; reflexivity. Qed.

(** What [shr_fexp] does to the mantissa and the exponent. *)
Lemma shr_fexp_bound m e l :
  (0 <= m)%Z ->
  let D := (Zdigits2 m + e)%Z in
  (0 <= shr_m (fst (shr_fexp prec emax m e l)))%Z
  /\ (Zdigits2 (shr_m (fst (shr_fexp prec emax m e l))) + snd (shr_fexp prec emax m e l)
      <= Z.max D (-1074))%Z
  /\ (snd (shr_fexp prec emax m e l) <= Z.max e (Z.max (D - 53) (-1074)))%Z.
Proof.
  intros Hm D. unfold shr_fexp, shr.
  assert (Hfexp : fexp prec emax (Zdigits2 m + e) = Z.max (D - 53) (-1074))
    by reflexivity.
  rewrite Hfexp.
  destruct (Z.max (D - 53) (-1074) - e)%Z as [|p|p] eqn:Hn; cbn [fst snd].
  - rewrite shr_record_of_loc_m. fold D. lia.
  - pose proof (Zdigits2_nonneg m) as Hd.
    destruct (@iter_shr_1_bound p (shr_record_of_loc m l) (Zdigits2 m)) as [H0 H1];
      [rewrite shr_record_of_loc_m; split; [exact Hm | apply Zdigits2_gt, Hm] | exact Hd |].
    split; [exact H0|].
    assert (Hdig : (Zdigits2 (shr_m (iter_pos shr_1 p (shr_record_of_loc m l)))
                    <= Z.max 0 (Zdigits2 m - Z.pos p))%Z)
      by (apply Zdigits2_le_pow; [lia | split; assumption]).
    unfold D in *. lia.
  - rewrite shr_record_of_loc_m. fold D. lia.
Qed.

Lemma round_nearest_even_bound m l :
  (m <= round_nearest_even m l <= m + 1)%Z.
Proof.
  destruct l as [|[ | | ]]; cbn; try lia. destruct (Z.even m); lia.
Qed.

(** Rounding a mantissa that is not negative, with few enough digits for
    its exponent, gives zero or a finite number. *)
Lemma binary_round_aux_finite sx mx ex lx :
  (0 <= mx)%Z -> (Zdigits2 mx + ex <= 1023)%Z -> (ex <= 971)%Z ->
  match binary_round_aux prec emax sx mx ex lx with
  | S754_zero _ | S754_finite _ _ _ => True
  | S754_infinity _ | S754_nan => False
  end.
Proof.
  intros Hm HD He. unfold binary_round_aux.
  destruct (@shr_fexp_bound mx ex lx Hm) as (H0 & H1 & H2).
  destruct (shr_fexp prec emax mx ex lx) as [mrs' e']. cbn [fst snd] in *.
  pose proof (round_nearest_even_bound (shr_m mrs') (loc_of_shr_record mrs')) as Hr.
  set (m1 := round_nearest_even (shr_m mrs') (loc_of_shr_record mrs')) in *.
  assert (Hm1 : (0 <= m1)%Z) by lia.
  assert (Hd1 : (Zdigits2 m1 <= Zdigits2 (shr_m mrs') + 1)%Z).
  { etransitivity; [apply Zdigits2_mono with (b := (shr_m mrs' + 1)%Z); lia|].
    apply Zdigits2_succ, H0. }
  destruct (@shr_fexp_bound m1 e' loc_Exact Hm1) as (H0' & _ & H2').
  destruct (shr_fexp prec emax m1 e' loc_Exact) as [mrs'' e'']. cbn [fst snd] in *.
  destruct (shr_m mrs'') as [|m|m]; [exact I| |lia].
  replace (e'' <=? emax - prec)%Z with true; [exact I|].
  symmetry. apply Z.leb_le. change (emax - prec)%Z with 971%Z. lia.
Qed.

Lemma Zdigits2_le m : (0 < m)%Z -> (2 ^ (Zdigits2 m - 1) <= m)%Z.
Proof.
  destruct m as [|p|p]; intros Hm; cbn [Zdigits2]; try lia.
  rewrite digits2_pos_size.
  pose proof (Pos.size_le p) as Hle.
  apply Pos2Z.pos_le_pos in Hle. rewrite Pos2Z.inj_pow in Hle.
  change (Z.pos p~0) with (2 * Z.pos p)%Z in Hle.
  replace (Z.pos (Pos.size p)) with (Z.succ (Z.pos (Pos.size p) - 1)) in Hle by lia.
  rewrite Z.pow_succ_r in Hle by lia. lia.
Qed.

(** Halving a mantissa of [d] digits fewer than [d] times leaves it
    above zero. *)
Lemma iter_shr_1_pos p mrs :
  (0 < shr_m mrs)%Z -> (Z.pos p < Zdigits2 (shr_m mrs))%Z ->
  (0 < shr_m (iter_pos shr_1 p mrs))%Z.
Proof.
  intros Hm Hp. set (d := Zdigits2 (shr_m mrs)) in *.
  pose (R := fun (k : Z) (x : shr_record) =>
               (0 <= shr_m x /\ 2 ^ (d - 1 - k) <= shr_m x)%Z).
  assert (Hstep : forall k x, R k x -> R (k + 1)%Z (shr_1 x)).
  { intros k x [Hx0 Hx1]. unfold R. rewrite shr_1_div2 by exact Hx0.
    rewrite Z.div2_div. split; [apply Z.div_pos; lia|].
    destruct (Z.le_gt_cases 1 (d - 1 - k)) as [Hc | Hc].
    - replace (d - 1 - k)%Z with (Z.succ (d - 1 - (k + 1))) in Hx1 by lia.
      rewrite Z.pow_succ_r in Hx1 by lia.
      apply Z.div_le_lower_bound; lia.
    - rewrite Z.pow_neg_r by lia. apply Z.div_pos; lia. }
  destruct (@iter_pos_invariant _ shr_1 R Hstep p 0%Z mrs) as [_ Hlow].
  { unfold R. rewrite Z.sub_0_r. split; [lia|]. apply Zdigits2_le, Hm. }
  cbn [Z.add] in Hlow.
  assert (0 < 2 ^ (d - 1 - Z.pos p))%Z by (apply Z.pow_pos_nonneg; lia).
  lia.
Qed.

Lemma Zdigits2_pos m : (0 < m)%Z -> (1 <= Zdigits2 m)%Z.
Proof. destruct m; cbn; lia. Qed.

(** [shr_fexp] keeps a positive mantissa positive and does not lower the
    exponent. *)
Lemma shr_fexp_pos m e l :
  (0 < m)%Z -> (-1074 <= e)%Z ->
  (0 < shr_m (fst (shr_fexp prec emax m e l)))%Z
  /\ (e <= snd (shr_fexp prec emax m e l))%Z.
Proof.
  intros Hm He. unfold shr_fexp, shr.
  assert (Hfexp : fexp prec emax (Zdigits2 m + e)
                  = Z.max (Zdigits2 m + e - 53) (-1074)) by reflexivity.
  rewrite Hfexp. pose proof (Zdigits2_pos Hm) as Hd.
  destruct (Z.max (Zdigits2 m + e - 53) (-1074) - e)%Z as [|p|p] eqn:Hn; cbn [fst snd].
  - rewrite shr_record_of_loc_m. lia.
  - split; [|lia]. apply iter_shr_1_pos; rewrite shr_record_of_loc_m; lia.
  - rewrite shr_record_of_loc_m. lia.
Qed.

(** Rounding a positive mantissa whose value lies in the binary64 range
    gives a finite number of the same sign, with an exponent that is not
    lower. *)
Lemma binary_round_aux_pos sx mx ex lx :
  (0 < mx)%Z -> (Zdigits2 mx + ex <= 1023)%Z -> (-1074 <= ex <= 971)%Z ->
  exists m e, binary_round_aux prec emax sx mx ex lx = S754_finite sx m e
              /\ (ex <= e)%Z.
Proof.
  intros Hm HD He. unfold binary_round_aux.
  destruct (@shr_fexp_bound mx ex lx ltac:(lia)) as (_ & H1 & H2).
  destruct (@shr_fexp_pos mx ex lx Hm ltac:(lia)) as (H0 & H3).
  destruct (shr_fexp prec emax mx ex lx) as [mrs' e']. cbn [fst snd] in *.
  pose proof (round_nearest_even_bound (shr_m mrs') (loc_of_shr_record mrs')) as Hr.
  set (m1 := round_nearest_even (shr_m mrs') (loc_of_shr_record mrs')) in *.
  assert (Hm1 : (0 < m1)%Z) by lia.
  assert (Hd1 : (Zdigits2 m1 <= Zdigits2 (shr_m mrs') + 1)%Z).
  { etransitivity; [apply Zdigits2_mono with (b := (shr_m mrs' + 1)%Z); lia|].
    apply Zdigits2_succ. lia. }
  destruct (@shr_fexp_bound m1 e' loc_Exact ltac:(lia)) as (_ & _ & H2').
  destruct (@shr_fexp_pos m1 e' loc_Exact Hm1 ltac:(lia)) as (H0' & H3').
  destruct (shr_fexp prec emax m1 e' loc_Exact) as [mrs'' e'']. cbn [fst snd] in *.
  destruct (shr_m mrs'') as [|m|m]; try lia.
  replace (e'' <=? emax - prec)%Z with true.
  - exists m, e''. split; [reflexivity | lia].
  - symmetry. apply Z.leb_le. change (emax - prec)%Z with 971%Z. lia.
Qed.

Lemma digits2_pos_iter_xO p k :
  digits2_pos (Pos.iter xO p k) = (digits2_pos p + k)%positive.
Proof.
  induction k as [|k IH] using Pos.peano_ind.
  - cbn. lia.
  - rewrite Pos.iter_succ. cbn [digits2_pos]. rewrite IH. lia.
Qed.

(** The conversion of a positive integer below [2 ^ 63] is a finite
    positive number with an exponent of at least [-52]. *)
Lemma binary_normalize_count N :
  (1 <= N < 2 ^ 63)%Z ->
  exists m e, binary_normalize prec emax N 0 false = S754_finite false m e
              /\ (-52 <= e)%Z.
Proof.
  intros [H1 H63]. destruct N as [|p|p]; try lia. cbn [binary_normalize].
  unfold binary_round.
  assert (Hd : (1 <= Z.pos (digits2_pos p) <= 63)%Z).
  { split; [lia|]. apply (@Zdigits2_le_pow (Z.pos p) 63); lia. }
  assert (Hfexp : fexp prec emax (Z.pos (digits2_pos p) + 0)
                  = (Z.pos (digits2_pos p) - 53)%Z).
  { change (fexp prec emax (Z.pos (digits2_pos p) + 0))
      with (Z.max (Z.pos (digits2_pos p) + 0 - 53) (-1074)). lia. }
  rewrite Hfexp. unfold shl_align.
  destruct (Z.pos (digits2_pos p) - 53 - 0)%Z as [|k|k] eqn:Hk.
  - destruct (@binary_round_aux_pos false (Z.pos p) 0 loc_Exact) as (m & e & Hr & He);
      cbn [Zdigits2]; try lia.
    exists m, e. split; [exact Hr | lia].
  - destruct (@binary_round_aux_pos false (Z.pos p) 0 loc_Exact) as (m & e & Hr & He);
      cbn [Zdigits2]; try lia.
    exists m, e. split; [exact Hr | lia].
  - destruct (@binary_round_aux_pos false (Z.pos (Pos.iter xO p k))
                (Z.pos (digits2_pos p) - 53) loc_Exact) as (m & e & Hr & He);
      cbn [Zdigits2]; try rewrite digits2_pos_iter_xO; try lia.
    exists m, e. split; [exact Hr | lia].
Qed.

(** The quotient mantissa and exponent that [SFdiv] hands to the
    rounding. *)
Lemma SFdiv_core_binary_bound m1 e1 m2 e2 :
  let '(q, e', _) := SFdiv_core_binary prec emax (Z.pos m1) e1 (Z.pos m2) e2 in
  (0 <= q)%Z
  /\ (Zdigits2 q + e' <= Z.pos (digits2_pos m1) + e1 - e2)%Z
  /\ (e' <= e1 - e2)%Z.
Proof.
  unfold SFdiv_core_binary. cbn [Zdigits2].
  set (e' := Z.min _ (e1 - e2)).
  assert (He' : (e' <= e1 - e2)%Z) by apply Z.le_min_r.
  set (s := (e1 - e2 - e')%Z).
  assert (Hs : (0 <= s)%Z) by (unfold s; lia).
  set (m' := match s with
             | Z.pos _ => Z.shiftl (Z.pos m1) s
             | 0%Z => Z.pos m1
             | Z.neg _ => 0%Z
             end).
  assert (Hm' : (0 <= m' < 2 ^ (Z.pos (digits2_pos m1) + s))%Z).
  { pose proof (@Zdigits2_gt (Z.pos m1) ltac:(lia)) as Hgt. cbn [Zdigits2] in Hgt.
    unfold m'. destruct s as [|k|k] eqn:Es; try lia.
    - rewrite Z.add_0_r. lia.
    - rewrite Z.shiftl_mul_pow2 by lia. rewrite Z.pow_add_r by lia.
      assert (0 < 2 ^ Z.pos k)%Z by (apply Z.pow_pos_nonneg; lia). nia. }
  destruct (Z.div_eucl m' (Z.pos m2)) as [q r] eqn:Hdiv.
  assert (Hq : q = (m' / Z.pos m2)%Z).
  { change (m' / Z.pos m2)%Z with (fst (Z.div_eucl m' (Z.pos m2))).
    rewrite Hdiv. reflexivity. }
  assert (Hq0 : (0 <= q <= m')%Z).
  { subst q. split; [apply Z.div_pos; lia|].
    apply Z.div_le_upper_bound; [lia|]. nia. }
  split; [lia|]. split; [|exact He'].
  assert (Hdq : (Zdigits2 q <= Z.pos (digits2_pos m1) + s)%Z)
    by (apply Zdigits2_le_pow; lia).
  unfold s in Hdq. lia.
Qed.

(** One divided by a finite positive number with an exponent of at least
    [-52] is zero or finite. *)
Lemma SFdiv_one_finite m e :
  (-52 <= e)%Z ->
  match SF64div (Prim2SF 1) (S754_finite false m e) with
  | S754_zero _ | S754_finite _ _ _ => True
  | S754_infinity _ | S754_nan => False
  end.
Proof.
  intros He.
  change (Prim2SF 1) with (S754_finite false 4503599627370496 (-52)).
  unfold SF64div, SFdiv.
  pose proof (@SFdiv_core_binary_bound 4503599627370496 (-52) m e) as Hcore.
  destruct (SFdiv_core_binary prec emax 4503599627370496 (-52) (Z.pos m) e)
    as [[q e'] l].
  destruct Hcore as (Hq & Hd & He').
  change (Z.pos (digits2_pos 4503599627370496)) with 53%Z in Hd.
  apply binary_round_aux_finite; lia.
Qed.

Lemma is_finite_of_SF x :
  match Prim2SF x with
  | S754_zero _ | S754_finite _ _ _ => True
  | S754_infinity _ | S754_nan => False
  end ->
  is_finite x = true.
Proof.
  unfold is_finite, is_nan, is_infinity.
  rewrite !FloatAxioms.eqb_spec, abs_spec.
  change (Prim2SF infinity) with (S754_infinity false).
  destruct (Prim2SF x) as [sgn| sgn | | sgn m e]; try contradiction; intros _.
  - reflexivity.
  - unfold SFeqb, SFcompare, SFabs.
    rewrite Z.compare_refl, Pos.compare_cont_refl. destruct sgn; reflexivity.
Qed.

(** The reciprocal of a member count below [2 ^ 63] is finite. *)
Lemma reciprocal_of_count_finite N :
  (1 <= N < 2 ^ 63)%Z -> is_finite (1 / of_uint63 (Uint63.of_Z N)) = true.
Proof.
  intros HN. apply is_finite_of_SF.
  rewrite FloatAxioms.div_spec, FloatAxioms.of_uint63_spec, Uint63.of_Z_spec.
  rewrite Z.mod_small by (change Uint63.wB with (2 ^ 63)%Z; lia).
  destruct (binary_normalize_count HN) as (m & e & -> & He).
  apply SFdiv_one_finite. lia.
Qed.

(** ** The recursive equations of the estimators *)

Ltac break_match :=
  match goal with
  | |- context [match ?e with _ => _ end] => destruct e eqn:?
  end.

Ltac self_side := first [ assumption | left; reflexivity | right; reflexivity ].

Ltac body_ext_tac Hself :=
  repeat first [ reflexivity | rewrite Hself by self_side | break_match ].

Section EstimatorEquations.

Context `{Libm} `{Materials}.
Variable cam : camera.

(** The bodies only look at the world through [hit] on the interval
    [(0.001, infinity)], and at [self] through the calls at [depth - 1]
    (and at [0] for variants 3 and 4), made only when [depth > 0]. *)

Lemma ray_color_1_body_ext world1 world2 lights
  (self1 self2 : ray -> Z -> M color) r depth s :
  same_hits world1 world2 ->
  (forall r' s', (0 < depth)%Z -> self1 r' (depth - 1)%Z s' = self2 r' (depth - 1)%Z s') ->
  ray_color_1_body cam self1 r depth world1 lights s
  = ray_color_1_body cam self2 r depth world2 lights s.
Proof.
  intros Hhit Hself. unfold ray_color_1_body, bind, ret.
  destruct (depth <=? 0)%Z eqn:Hd; [reflexivity|].
  apply Z.leb_gt in Hd. rewrite Hhit. body_ext_tac Hself.
Qed.

Lemma ray_color_2_body_ext world1 world2 lights
  (self1 self2 : ray -> Z -> M color) r depth s :
  same_hits world1 world2 ->
  (forall r' s', (0 < depth)%Z -> self1 r' (depth - 1)%Z s' = self2 r' (depth - 1)%Z s') ->
  ray_color_2_body cam self1 r depth world1 lights s
  = ray_color_2_body cam self2 r depth world2 lights s.
Proof.
  intros Hhit Hself. unfold ray_color_2_body, bind, ret.
  destruct (depth <=? 0)%Z eqn:Hd; [reflexivity|].
  apply Z.leb_gt in Hd. rewrite Hhit. body_ext_tac Hself.
Qed.

Lemma ray_color_3_body_ext world1 world2 lights
  (self1 self2 : ray -> Z -> bool -> M color) r depth b s :
  same_hits world1 world2 ->
  (forall d' r' b' s', (0 < depth)%Z -> d' = (depth - 1)%Z \/ d' = 0%Z ->
     self1 r' d' b' s' = self2 r' d' b' s') ->
  ray_color_3_body cam self1 r depth world1 lights b s
  = ray_color_3_body cam self2 r depth world2 lights b s.
Proof.
  intros Hhit Hself. unfold ray_color_3_body, bind, ret. rewrite Hhit.
  destruct (hit world2 r _ s) as [[rec|] s1]; [|reflexivity].
  destruct (depth <=? 0)%Z eqn:Hd; [reflexivity|].
  apply Z.leb_gt in Hd. body_ext_tac Hself.
Qed.

Lemma ray_color_4_body_ext world1 world2 lights
  (self1 self2 : ray -> Z -> double -> M color) r depth w s :
  same_hits world1 world2 ->
  (forall d' r' w' s', (0 < depth)%Z -> d' = (depth - 1)%Z \/ d' = 0%Z ->
     self1 r' d' w' s' = self2 r' d' w' s') ->
  ray_color_4_body cam self1 r depth world1 lights w s
  = ray_color_4_body cam self2 r depth world2 lights w s.
Proof.
  intros Hhit Hself. unfold ray_color_4_body, bind, ret. rewrite Hhit.
  destruct (hit world2 r _ s) as [[rec|] s1]; [|reflexivity].
  destruct (depth <=? 0)%Z eqn:Hd; [reflexivity|].
  apply Z.leb_gt in Hd. body_ext_tac Hself.
Qed.

Lemma same_hits_refl world : same_hits world world.
Proof. intros r s. reflexivity. Qed.

(** [ray_color_1] satisfies the recursive equation of the source. *)
Lemma ray_color_1_eq world lights r depth s :
  ray_color_1 cam r depth world lights s
  = ray_color_1_body cam (fun r' d' => ray_color_1 cam r' d' world lights)
      r depth world lights s.
Proof.
  unfold ray_color_1 at 1. cbn [unfold_n].
  apply ray_color_1_body_ext; [apply same_hits_refl|].
  intros r' s' Hd. unfold ray_color_1.
  replace (Z.to_nat depth) with (S (Z.to_nat (depth - 1))) by lia. reflexivity.
Qed.

Lemma ray_color_2_eq world lights r depth s :
  ray_color_2 cam r depth world lights s
  = ray_color_2_body cam (fun r' d' => ray_color_2 cam r' d' world lights)
      r depth world lights s.
Proof.
  unfold ray_color_2 at 1. cbn [unfold_n].
  apply ray_color_2_body_ext; [apply same_hits_refl|].
  intros r' s' Hd. unfold ray_color_2.
  replace (Z.to_nat depth) with (S (Z.to_nat (depth - 1))) by lia. reflexivity.
Qed.

(** More unfoldings than [S (Z.to_nat depth)] change nothing. *)
Lemma ray_color_3_fuel world1 world2 lights n : forall m r depth b s,
  same_hits world1 world2 ->
  (Z.to_nat depth < n)%nat -> (Z.to_nat depth < m)%nat ->
  unfold_n (fun self r' depth' w' => ray_color_3_body cam self r' depth' world1 lights w')
           (fun _ _ _ => ret black) n r depth b s
  = unfold_n (fun self r' depth' w' => ray_color_3_body cam self r' depth' world2 lights w')
           (fun _ _ _ => ret black) m r depth b s.
Proof.
  induction n as [|n IH]; intros m r depth b s Hhit Hn Hm; [lia|].
  destruct m as [|m]; [lia|]. cbn [unfold_n].
  apply ray_color_3_body_ext; [exact Hhit|].
  intros d' r' b' s' Hd [-> | ->]; apply IH; try lia; exact Hhit.
Qed.

Lemma ray_color_3_eq world lights r depth b s :
  ray_color_3 cam r depth world lights b s
  = ray_color_3_body cam (fun r' d' b' => ray_color_3 cam r' d' world lights b')
      r depth world lights b s.
Proof.
  unfold ray_color_3 at 1. cbn [unfold_n].
  apply ray_color_3_body_ext; [apply same_hits_refl|].
  intros d' r' b' s' Hd Hd'. unfold ray_color_3.
  apply ray_color_3_fuel; [apply same_hits_refl| |]; destruct Hd' as [-> | ->]; lia.
Qed.

Lemma ray_color_4_fuel world1 world2 lights n : forall m r depth w s,
  same_hits world1 world2 ->
  (Z.to_nat depth < n)%nat -> (Z.to_nat depth < m)%nat ->
  unfold_n (fun self r' depth' w' => ray_color_4_body cam self r' depth' world1 lights w')
           (fun _ _ _ => ret black) n r depth w s
  = unfold_n (fun self r' depth' w' => ray_color_4_body cam self r' depth' world2 lights w')
           (fun _ _ _ => ret black) m r depth w s.
Proof.
  induction n as [|n IH]; intros m r depth w s Hhit Hn Hm; [lia|].
  destruct m as [|m]; [lia|]. cbn [unfold_n].
  apply ray_color_4_body_ext; [exact Hhit|].
  intros d' r' w' s' Hd [-> | ->]; apply IH; try lia; exact Hhit.
Qed.

Lemma ray_color_4_eq world lights r depth w s :
  ray_color_4 cam r depth world lights w s
  = ray_color_4_body cam (fun r' d' w' => ray_color_4 cam r' d' world lights w')
      r depth world lights w s.
Proof.
  unfold ray_color_4 at 1. cbn [unfold_n].
  apply ray_color_4_body_ext; [apply same_hits_refl|].
  intros d' r' w' s' Hd Hd'. unfold ray_color_4.
  apply ray_color_4_fuel; [apply same_hits_refl| |]; destruct Hd' as [-> | ->]; lia.
Qed.

Lemma ray_color_1_fuel world1 world2 lights n : forall r depth s,
  same_hits world1 world2 ->
  unfold_n (fun self r' depth' => ray_color_1_body cam self r' depth' world1 lights)
           (fun _ _ => ret black) n r depth s
  = unfold_n (fun self r' depth' => ray_color_1_body cam self r' depth' world2 lights)
           (fun _ _ => ret black) n r depth s.
Proof.
  induction n as [|n IH]; intros r depth s Hhit; [reflexivity|]. cbn [unfold_n].
  apply ray_color_1_body_ext; [exact Hhit|]. intros r' s' _. apply IH, Hhit.
Qed.

Lemma ray_color_2_fuel world1 world2 lights n : forall r depth s,
  same_hits world1 world2 ->
  unfold_n (fun self r' depth' => ray_color_2_body cam self r' depth' world1 lights)
           (fun _ _ => ret black) n r depth s
  = unfold_n (fun self r' depth' => ray_color_2_body cam self r' depth' world2 lights)
           (fun _ _ => ret black) n r depth s.
Proof.
  induction n as [|n IH]; intros r depth s Hhit; [reflexivity|]. cbn [unfold_n].
  apply ray_color_2_body_ext; [exact Hhit|]. intros r' s' _. apply IH, Hhit.
Qed.

End EstimatorEquations.

(** ** The estimators *)

Section EstimatorProperties.

Context `{Libm} `{Materials}.
Variable cam : camera.
Variables world lights : hittable.

(** X23.  Variant 1 has the guard on the length of the scattered
    direction: when its square is below [0.0001] the call ends with the
    emission, and [self] is not consulted. *)
Lemma ray_color_1_degenerate_direction r depth s rec s1 srec s2 dir s3 :
  (0 < depth)%Z ->
  hit world r (mkinterval 0.001 infinity) s = (Some rec, s1) ->
  scatter (deref (rec_mat rec)) r rec s1 = (Some srec, s2) ->
  skip_pdf srec = false ->
  generate (pdf_ptr srec) s2 = (dir, s3) ->
  (length_squared dir <? 0.0001) = true ->
  (forall self, ray_color_1_body cam self r depth world lights s = (emission r rec, s3))
  /\ ray_color_1 cam r depth world lights s = (emission r rec, s3).
Proof.
  intros Hd Hhit Hsc Hskip Hgen Hlen.
  assert (Hbody : forall self,
             ray_color_1_body cam self r depth world lights s = (emission r rec, s3)).
  { intros self. unfold ray_color_1_body, bind, ret.
    apply Z.leb_gt in Hd. rewrite Hd, Hhit, Hsc, Hskip, Hgen, Hlen. reflexivity. }
  split; [exact Hbody|]. rewrite ray_color_1_eq. apply Hbody.
Qed.

(** C3 (amended).  On a ray that [world.hit] misses on the interval
    [(0.001, infinity)], variants 3 and 4 return the background colour at
    every depth, and variants 1 and 2 return it at every depth above
    zero; at a depth of zero or less variants 1 and 2 return black
    without querying the world. *)
Theorem miss_returns_background r s s' :
  hit world r (mkinterval 0.001 infinity) s = (None, s') ->
  (forall depth, (0 < depth)%Z ->
     ray_color_1 cam r depth world lights s = (background cam, s')
     /\ ray_color_2 cam r depth world lights s = (background cam, s'))
  /\ (forall depth, (depth <= 0)%Z ->
     ray_color_1 cam r depth world lights s = (mkvec3 0 0 0, s)
     /\ ray_color_2 cam r depth world lights s = (mkvec3 0 0 0, s))
  /\ (forall depth includeLe,
     ray_color_3 cam r depth world lights includeLe s = (background cam, s'))
  /\ (forall depth Leweight,
     ray_color_4 cam r depth world lights Leweight s = (background cam, s')).
Proof.
  intros Hhit. split; [|split; [|split]].
  - intros depth Hd. apply Z.leb_gt in Hd. split.
    + rewrite ray_color_1_eq. unfold ray_color_1_body, bind, ret.
      rewrite Hd, Hhit. reflexivity.
    + rewrite ray_color_2_eq. unfold ray_color_2_body, bind, ret.
      rewrite Hd, Hhit. reflexivity.
  - intros depth Hd. apply Z.leb_le in Hd. split.
    + rewrite ray_color_1_eq. unfold ray_color_1_body, bind, ret.
      rewrite Hd. reflexivity.
    + rewrite ray_color_2_eq. unfold ray_color_2_body, bind, ret.
      rewrite Hd. reflexivity.
  - intros depth includeLe. rewrite ray_color_3_eq.
    unfold ray_color_3_body, bind, ret. rewrite Hhit. reflexivity.
  - intros depth Leweight. rewrite ray_color_4_eq.
    unfold ray_color_4_body, bind, ret. rewrite Hhit. reflexivity.
Qed.

(** C5 (amended).  At a depth of zero or less no variant makes a recursive
    call (the result does not depend on [self]).  Variants 1 and 2 return
    black.  Variants 3 and 4, on a hit, return the emission term:
    the material's emission when [includeLe] holds and black otherwise
    for variant 3, [Leweight] times the emission for variant 4.  When the
    material emits nothing this is black for variant 3, black for variant
    4 called with [Leweight = 1.0], and a colour whose components compare
    equal to zero for variant 4 called with any finite [Leweight]. *)
Theorem depth_exhausted_returns_emission r depth :
  (depth <= 0)%Z ->
  (forall s,
     (forall self, ray_color_1_body cam self r depth world lights s = (mkvec3 0 0 0, s))
     /\ ray_color_1 cam r depth world lights s = (mkvec3 0 0 0, s)
     /\ (forall self, ray_color_2_body cam self r depth world lights s = (mkvec3 0 0 0, s))
     /\ ray_color_2 cam r depth world lights s = (mkvec3 0 0 0, s))
  /\ (forall s rec s1,
     hit world r (mkinterval 0.001 infinity) s = (Some rec, s1) ->
     (forall includeLe : bool,
        let Le := if includeLe then emission r rec else mkvec3 0 0 0 in
        (forall self, ray_color_3_body cam self r depth world lights includeLe s = (Le, s1))
        /\ ray_color_3 cam r depth world lights includeLe s = (Le, s1))
     /\ (forall Leweight,
        let Le := (Leweight *: emission r rec)%vec in
        (forall self, ray_color_4_body cam self r depth world lights Leweight s = (Le, s1))
        /\ ray_color_4 cam r depth world lights Leweight s = (Le, s1))
     /\ (emission r rec = mkvec3 0 0 0 ->
        (forall includeLe,
           ray_color_3 cam r depth world lights includeLe s = (mkvec3 0 0 0, s1))
        /\ ray_color_4 cam r depth world lights 1.0 s = (mkvec3 0 0 0, s1)
        /\ (forall Leweight, is_finite Leweight = true ->
            let c := fst (ray_color_4 cam r depth world lights Leweight s) in
            (vx c =? 0) = true /\ (vy c =? 0) = true /\ (vz c =? 0) = true))).
Proof.
  intros Hd. apply Z.leb_le in Hd.
  assert (H1 : forall s self,
             ray_color_1_body cam self r depth world lights s = (mkvec3 0 0 0, s)).
  { intros s self. unfold ray_color_1_body. rewrite Hd. reflexivity. }
  assert (H2 : forall s self,
             ray_color_2_body cam self r depth world lights s = (mkvec3 0 0 0, s)).
  { intros s self. unfold ray_color_2_body. rewrite Hd. reflexivity. }
  split.
  { intros s. split; [apply H1|]. split; [rewrite ray_color_1_eq; apply H1|].
    split; [apply H2|]. rewrite ray_color_2_eq. apply H2. }
  intros s rec s1 Hhit.
  assert (H3 : forall includeLe self,
             ray_color_3_body cam self r depth world lights includeLe s
             = (if includeLe then emission r rec else mkvec3 0 0 0, s1)).
  { intros includeLe self. unfold ray_color_3_body, bind, ret.
    rewrite Hhit, Hd. reflexivity. }
  assert (H4 : forall Leweight self,
             ray_color_4_body cam self r depth world lights Leweight s
             = ((Leweight *: emission r rec)%vec, s1)).
  { intros Leweight self. unfold ray_color_4_body, bind, ret.
    rewrite Hhit, Hd. reflexivity. }
  split; [|split].
  - intros includeLe Le. split; [apply H3|]. rewrite ray_color_3_eq. apply H3.
  - intros Leweight Le. split; [apply H4|]. rewrite ray_color_4_eq. apply H4.
  - intros Hdark. split; [|split].
    + intros includeLe. rewrite ray_color_3_eq, H3, Hdark.
      destruct includeLe; reflexivity.
    + rewrite ray_color_4_eq, H4, Hdark. reflexivity.
    + intros Leweight Hfin c. subst c.
      rewrite ray_color_4_eq, H4, Hdark. cbn.
      split; [|split]; apply mul_zero_finite, Hfin.
Qed.

(** C4.  In [ray_color_4], on a hit whose material scatters with a
    density, the emission of the vertex reached by the light-sampled
    direction is scaled by the power heuristic of the light density and
    of the material density at that direction, the emission of the vertex
    reached by the material-sampled direction by the power heuristic of
    the material density and of the light density at that direction: each
    weight is the [Leweight] of the recursive call that traces the
    direction, and a call scales the emission of the vertex it reaches by
    its [Leweight]. *)
Theorem mis_power_heuristic_weights r depth Leweight s rec s1 srec s2
  light_dir s3 direct s4 dir s5 indirect s6 :
  let mat := deref (rec_mat rec) in
  let light_ptr := hittable_pdf lights (rec_p rec) in
  let light_ray := mkray (rec_p rec) light_dir (time r) in
  let bsdf_ray := mkray (rec_p rec) dir (time r) in
  let weight_light :=
    power_heuristic (value light_ptr light_dir) (value (pdf_ptr srec) light_dir) in
  let weight_bsdf :=
    power_heuristic (value (pdf_ptr srec) dir) (value light_ptr dir) in
  (0 < depth)%Z ->
  hit world r (mkinterval 0.001 infinity) s = (Some rec, s1) ->
  scatter mat r rec s1 = (Some srec, s2) ->
  skip_pdf srec = false ->
  generate light_ptr s2 = (light_dir, s3) ->
  ray_color_4 cam light_ray 0 world lights weight_light s3 = (direct, s4) ->
  generate (pdf_ptr srec) s4 = (dir, s5) ->
  ray_color_4 cam bsdf_ray (depth - 1) world lights weight_bsdf s5 = (indirect, s6) ->
  let Le := (Leweight *: emission r rec)%vec in
  let Ldir :=
    ((attenuation srec :* scattering_pdf mat r rec light_ray) * direct
     /: value light_ptr light_dir)%vec in
  let Lind :=
    ((attenuation srec :* scattering_pdf mat r rec bsdf_ray) * indirect
     /: value (pdf_ptr srec) dir)%vec in
  ray_color_4 cam r depth world lights Leweight s = ((Le + Ldir + Lind)%vec, s6)
  /\ (forall rec' s4',
        hit world light_ray (mkinterval 0.001 infinity) s3 = (Some rec', s4') ->
        direct = (weight_light *: emission light_ray rec')%vec)
  /\ (forall rec' s6',
        hit world bsdf_ray (mkinterval 0.001 infinity) s5 = (Some rec', s6') ->
        (depth - 1 <= 0)%Z
        \/ scatter (deref (rec_mat rec')) bsdf_ray rec' s6' = (None, s6) ->
        indirect = (weight_bsdf *: emission bsdf_ray rec')%vec).
Proof.
  intros mat light_ptr light_ray bsdf_ray weight_light weight_bsdf
         Hd Hhit Hsc Hskip Hgl Hdirect Hgb Hindirect Le Ldir Lind.
  subst mat light_ptr light_ray bsdf_ray weight_light weight_bsdf Le Ldir Lind.
  unfold power_heuristic in *.
  split; [|split].
  - rewrite ray_color_4_eq. unfold ray_color_4_body at 1, bind, ret.
    apply Z.leb_gt in Hd. rewrite Hhit, Hd. cbv zeta.
    rewrite Hsc, Hskip, Hgl. cbn [direction].
    rewrite Hdirect, Hgb. cbn [direction]. rewrite Hindirect. reflexivity.
  - intros rec' s4' Hhit'. rewrite ray_color_4_eq in Hdirect.
    unfold ray_color_4_body, bind, ret in Hdirect. rewrite Hhit' in Hdirect.
    cbn in Hdirect. apply (f_equal fst) in Hdirect. symmetry. exact Hdirect.
  - intros rec' s6' Hhit' Hend. rewrite ray_color_4_eq in Hindirect.
    unfold ray_color_4_body at 1, bind, ret in Hindirect. rewrite Hhit' in Hindirect.
    destruct Hend as [Hend | Hend].
    + apply Z.leb_le in Hend. rewrite Hend in Hindirect.
      apply (f_equal fst) in Hindirect. symmetry. exact Hindirect.
    + destruct (depth - 1 <=? 0)%Z.
      * apply (f_equal fst) in Hindirect. symmetry. exact Hindirect.
      * rewrite Hend in Hindirect. apply (f_equal fst) in Hindirect. symmetry. exact Hindirect.
Qed.

(** C9.  The four variants query the world only through [hit] on the
    interval [(0.001, infinity)]: two worlds that answer alike on that
    interval give the same radiance for every ray and depth, however they
    answer on other intervals. *)
Theorem hit_queries_on_fixed_interval world2 :
  (forall r s, hit world r (mkinterval 0.001 infinity) s
               = hit world2 r (mkinterval 0.001 infinity) s) ->
  forall r depth s,
    ray_color_1 cam r depth world lights s = ray_color_1 cam r depth world2 lights s
    /\ ray_color_2 cam r depth world lights s = ray_color_2 cam r depth world2 lights s
    /\ (forall includeLe,
          ray_color_3 cam r depth world lights includeLe s
          = ray_color_3 cam r depth world2 lights includeLe s)
    /\ (forall Leweight,
          ray_color_4 cam r depth world lights Leweight s
          = ray_color_4 cam r depth world2 lights Leweight s).
Proof.
  intros Hhit r depth s. split; [|split; [|split]].
  - unfold ray_color_1. apply ray_color_1_fuel. exact Hhit.
  - unfold ray_color_2. apply ray_color_2_fuel. exact Hhit.
  - intros includeLe. unfold ray_color_3.
    apply ray_color_3_fuel; [exact Hhit| |]; lia.
  - intros Leweight. unfold ray_color_4.
    apply ray_color_4_fuel; [exact Hhit| |]; lia.
Qed.

End EstimatorProperties.

(** ** The densities of [pdf.h] *)

(** C6.  The value of a mixture is half the value of the first component
    plus half the value of the second, as computed in binary64.  Its
    [generate] makes one draw from the generator and hands over to the
    first component when the draw is below 0.5 and to the second
    otherwise; 0.5 is the midpoint of the range of the draws, and of the
    32768 equally spaced draws [k / 32768] exactly half select the first
    component. *)
Theorem mixture_pdf_value_generate (p0 p1 : pdf) :
  (forall direction,
     value (mixture_pdf p0 p1) direction
     = 0.5 * value p0 direction + 0.5 * value p1 direction)
  /\ (forall s : rng,
     generate (mixture_pdf p0 p1) s
     = if s O <? 0.5 then generate p0 (fun n => s (S n))
       else generate p1 (fun n => s (S n)))
  /\ (0.5 - 0 = 1 - 0.5 /\ 0.5 + 0.5 = 1)
  /\ coin_heads_on_grid 32768 = 16384%Z.
Proof.
  split; [|split; [|split]].
  - intros direction. reflexivity.
  - intros s. cbn. unfold bind, random_double.
    destruct (s O <? 0.5); reflexivity.
  - split; reflexivity.
  - vm_compute. reflexivity.
Qed.

(** C8.  A direction that [phong_pdf::generate] returns, after any number
    of turns of its loop, has a dot product with the reference normal
    that is above zero, hence not below zero. *)
Theorem phong_pdf_generate_above_surface `{Libm} `{Externals}
  (fuel : nat) (ph : phong_pdf) (s : rng) (direction : vec3) (s' : rng) :
  phong_pdf_generate fuel ph s = Some (direction, s') ->
  (0 <? dot direction (ph_n ph)) = true
  /\ (dot direction (ph_n ph) <? 0) = false.
Proof.
  revert s. induction fuel as [|fuel IH]; intros s; cbn [phong_pdf_generate].
  - discriminate.
  - destruct (phong_pdf_candidate ph s) as [d s1].
    destruct (0 <? dot d (ph_n ph)) eqn:Hdot.
    + intros [= <- <-]. split; [exact Hdot|]. apply ltb_zero_asym, Hdot.
    + apply IH.
Qed.

(** A run of the loop that has returned keeps its result when given more
    turns. *)
Lemma phong_pdf_generate_more_fuel `{Libm} `{Externals}
  (fuel extra : nat) (ph : phong_pdf) (s : rng) (res : vec3 * rng) :
  phong_pdf_generate fuel ph s = Some res ->
  phong_pdf_generate (fuel + extra) ph s = Some res.
Proof.
  revert s. induction fuel as [|fuel IH]; intros s; cbn [phong_pdf_generate Nat.add].
  - discriminate.
  - destruct (phong_pdf_candidate ph s) as [d s1].
    destruct (0 <? dot d (ph_n ph)); [trivial | apply IH].
Qed.

(** ** [hittable_list] *)

Lemma weighted_sum_fold (members : list hittable) origin direction weight sum :
  fold_left (fun sum object => sum + weight * pdf_value object origin direction)
            members sum
  = weighted_sum weight (map (fun m => pdf_value m origin direction) members) sum.
Proof.
  revert sum. induction members as [|m members IH]; intros sum; cbn.
  - reflexivity.
  - apply IH.
Qed.

Lemma index_in_bounds (objects : list hittable) (k : Z) :
  (0 <= k <= size objects - 1)%Z ->
  exists object, index objects k = Some object /\ In object objects.
Proof.
  intros Hk. unfold index, size in *.
  replace ((0 <=? k) && (k <? Z.of_nat (List.length objects)))%Z with true
    by (symmetry; apply andb_true_iff; split; [apply Z.leb_le | apply Z.ltb_lt]; lia).
  destruct (nth_error objects (Z.to_nat k)) as [object|] eqn:E.
  - exists object. split; [reflexivity|]. eapply nth_error_In, E.
  - apply nth_error_None in E. lia.
Qed.

Lemma index_nil (k : Z) : index [] k = None.
Proof.
  unfold index, size. cbn.
  destruct (0 <=? k)%Z eqn:E1, (k <? 0)%Z eqn:E2; cbn; try reflexivity.
  apply Z.leb_le in E1. apply Z.ltb_lt in E2. lia.
Qed.

(** A member count that fits an [int] is what [int(objects.size())]
    returns, and the last index follows without wrap-around. *)
Lemma wrap_int_small z : (int_min <= z <= int_max)%Z -> wrap_int z = z.
Proof.
  unfold wrap_int, int_min, int_max. intros Hz.
  rewrite Z.mod_small; lia.
Qed.

Lemma last_index_small (objects : list hittable) :
  (size objects <= int_max)%Z ->
  wrap_int (wrap_int (size objects) - 1) = (size objects - 1)%Z.
Proof.
  intros Hmax. assert (0 <= size objects)%Z by (unfold size; lia).
  unfold int_max in Hmax.
  rewrite (@wrap_int_small (size objects)) by (unfold int_min, int_max; lia).
  apply wrap_int_small. unfold int_min, int_max. lia.
Qed.

(** C7.  The density of a collection of [N] members is the sum, taken in
    member order, of the member densities each weighted by [1/N].  Its
    [random] draws an index with [random_int(0, N-1)] and returns what the
    [random] of the member at that index returns; every index from [0] to
    [N-1] designates a member. *)
Theorem hittable_list_uniform_mixture `{Externals}
  (objects : list hittable) (origin : point3) :
  (forall direction,
     hittable_list_pdf_value objects origin direction
     = uniform_mixture_density objects origin direction)
  /\ (forall s k s1 object,
     random_int 0 (wrap_int (wrap_int (size objects) - 1)) s = (k, s1) ->
     index objects k = Some object ->
     hittable_list_random objects origin s
     = (Some (fst (random object origin s1)), snd (random object origin s1)))
  /\ ((size objects <= int_max)%Z ->
      wrap_int (wrap_int (size objects) - 1) = (size objects - 1)%Z)
  /\ (forall k, (0 <= k <= size objects - 1)%Z ->
      exists object, index objects k = Some object /\ In object objects).
Proof.
  split; [|split; [|split]].
  - intros direction. unfold hittable_list_pdf_value, uniform_mixture_density, size.
    apply weighted_sum_fold.
  - intros s k s1 object Hk Hobj. unfold hittable_list_random, bind, ret.
    rewrite Hk, Hobj. destruct (random object origin s1). reflexivity.
  - apply last_index_small.
  - intros k. apply index_in_bounds.
Qed.

(** X1.  The members of a list are queried on intervals that keep the
    lower end of the list's own interval: lists whose members answer
    alike on such intervals answer alike. *)
Lemma hittable_list_hit_same_min (objects1 objects2 : list hittable) (t_min : double) :
  Forall2 (fun o1 o2 => forall r t_max s,
             hit o1 r (mkinterval t_min t_max) s = hit o2 r (mkinterval t_min t_max) s)
          objects1 objects2 ->
  forall r t_max s,
    hittable_list_hit objects1 r (mkinterval t_min t_max) s
    = hittable_list_hit objects2 r (mkinterval t_min t_max) s.
Proof.
  intros Hall r t_max s. unfold hittable_list_hit. cbn [imin imax].
  generalize (@None hit_record) as rec. revert t_max s.
  induction Hall as [|o1 o2 objects1 objects2 Ho _ IH]; intros t_max s rec;
    cbn [hittable_list_hit_loop].
  - reflexivity.
  - unfold bind. rewrite Ho.
    destruct (hit o2 r (mkinterval t_min t_max) s) as [[temp_rec|] s1]; apply IH.
Qed.

(** ** The render loop *)

Lemma for_each_app {A S : Type} (ks1 ks2 : list A) (body : A -> S -> M S) acc s :
  for_each (ks1 ++ ks2) body acc s
  = let (acc', s') := for_each ks1 body acc s in for_each ks2 body acc' s'.
Proof.
  revert acc s. induction ks1 as [|k ks1 IH]; intros acc s; cbn.
  - reflexivity.
  - unfold bind. destruct (body k acc s) as [acc1 s1]. apply IH.
Qed.

Lemma for_each_map {A B S : Type} (f : A -> B) (ks : list A)
  (body : B -> S -> M S) acc s :
  for_each (map f ks) body acc s = for_each ks (fun k => body (f k)) acc s.
Proof.
  revert acc s. induction ks as [|k ks IH]; intros acc s; cbn.
  - reflexivity.
  - unfold bind. destruct (body (f k) acc s) as [acc1 s1]. apply IH.
Qed.

(** Two nested loops visit the cells of the grid row by row. *)
Lemma for_each_nested {A B S : Type} (outer : list A) (inner : list B)
  (body : B * A -> S -> M S) acc s :
  for_each outer (fun a acc' => for_each inner (fun b => body (b, a)) acc') acc s
  = for_each (flat_map (fun a => map (fun b => (b, a)) inner) outer) body acc s.
Proof.
  revert acc s. induction outer as [|a outer IH]; intros acc s; cbn.
  - reflexivity.
  - rewrite for_each_app, for_each_map. unfold bind.
    destruct (for_each inner (fun b => body (b, a)) acc s) as [acc1 s1]. apply IH.
Qed.

(** A loop that accumulates the results of its turns computes the fold
    of the results collected in order. *)
Lemma for_each_accumulate {A B S : Type} (ks : list A) (f : A -> M B)
  (step : S -> B -> S) acc s :
  for_each ks (fun k acc' => b <- f k ;; ret (step acc' b)) acc s
  = let (bs, s') := for_each_collect ks f s in (fold_left step bs acc, s').
Proof.
  revert acc s. induction ks as [|k ks IH]; intros acc s; cbn.
  - reflexivity.
  - unfold bind, ret. destruct (f k s) as [b s1]. rewrite IH.
    destruct (for_each_collect ks f s1) as [bs s2]. reflexivity.
Qed.

Lemma for_each_collect_length {A B : Type} (ks : list A) (f : A -> M B) s :
  List.length (fst (for_each_collect ks f s)) = List.length ks.
Proof.
  revert s. induction ks as [|k ks IH]; intros s; cbn.
  - reflexivity.
  - unfold bind, ret. destruct (f k s) as [b s1]. specialize (IH s1).
    destruct (for_each_collect ks f s1) as [bs s2]. cbn in *. now rewrite IH.
Qed.

Lemma counter_values_length (n : Z) : List.length (counter_values n) = Z.to_nat n.
Proof. unfold counter_values. now rewrite length_map, length_seq. Qed.


Lemma initialize_samples `{Libm} (cam : camera) (fr : camera_frame) :
  initialize cam = Some fr ->
  int_of_double (sqrt (double_of_int (samples_per_pixel cam))) = Some (sqrt_spp fr)
  /\ pixel_samples_scale fr = 1.0 / double_of_int (sqrt_spp fr * sqrt_spp fr).
Proof.
  unfold initialize.
  destruct (int_of_double (double_of_int (image_width cam) / aspect_ratio cam));
    [|discriminate].
  destruct (int_of_double (sqrt (double_of_int (samples_per_pixel cam))));
    [|discriminate].
  intros [= <-]. split; reflexivity.
Qed.


(** ** The theorems on the concrete scene *)

(** The rejection loop of [phong_pdf::generate] need not return: with the
    reference normal opposite to the lobe axis every candidate is
    rejected, however many turns are allowed. *)
Lemma phong_pdf_generate_may_not_return (fuel : nat) :
  phong_pdf_generate fuel (phong_pdf_new up 30 down) (constant_tape 0.5) = None.
Proof.
  induction fuel as [|fuel IH]; [reflexivity|].
  cbn [phong_pdf_generate].
  change (phong_pdf_candidate (phong_pdf_new up 30 down) (constant_tape 0.5))
    with (mkvec3 (-0.8660254037844386) 0.5 0, constant_tape 0.5).
  exact IH.
Qed.

(** On the sample counts up to 4096, [int(std::sqrt(n))] is the integer
    square root. *)
Lemma int_sqrt_up_to_4096 :
  forallb (fun n => match int_of_double (sqrt (double_of_int n)) with
                    | Some s => (s =? Z.sqrt n)%Z
                    | None => false
                    end)
          (counter_values 4097) = true.
Proof. vm_compute. reflexivity. Qed.

(** [miss_returns_background] on the empty world. *)
Lemma miss_returns_background_witness :
  hit empty_world ray_level (mkinterval 0.001 infinity) (constant_tape 0.5)
  = (None, constant_tape 0.5)
  /\ ray_color_1 (default_camera white) ray_level 1 empty_world lamp (constant_tape 0.5)
     = (white, constant_tape 0.5)
  /\ ray_color_2 (default_camera white) ray_level 1 empty_world lamp (constant_tape 0.5)
     = (white, constant_tape 0.5)
  /\ ray_color_3 (default_camera white) ray_level 0 empty_world lamp true (constant_tape 0.5)
     = (white, constant_tape 0.5)
  /\ ray_color_4 (default_camera white) ray_level 0 empty_world lamp 1 (constant_tape 0.5)
     = (white, constant_tape 0.5).
Proof.
  split; [reflexivity|].
  destruct (@miss_returns_background crude_libm scene_materials (default_camera white)
              empty_world lamp ray_level (constant_tape 0.5) (constant_tape 0.5) eq_refl)
    as (H12 & _ & H3 & H4).
  destruct (H12 1%Z eq_refl) as [H1 H2].
  split; [exact H1|]. split; [exact H2|]. split; [apply H3 | apply H4].
Defined.

(** C3, as stated, fails: at depth 0 variants 1 and 2 return black on a
    ray that misses, whatever the background. *)
Lemma ray_color_1_miss_at_depth_zero :
  hit empty_world ray_level (mkinterval 0.001 infinity) (constant_tape 0.5)
  = (None, constant_tape 0.5)
  /\ fst (ray_color_1 (default_camera white) ray_level 0 empty_world lamp (constant_tape 0.5))
     <> background (default_camera white)
  /\ fst (ray_color_2 (default_camera white) ray_level 0 empty_world lamp (constant_tape 0.5))
     <> background (default_camera white).
Proof.
  split; [reflexivity|].
  split; intros Heq; apply (f_equal (fun c => vx c =? 1)) in Heq;
    vm_compute in Heq; discriminate.
Qed.

(** [depth_exhausted_returns_emission] on the room with the matt floor:
    the ray going down hits the floor, the ray going up hits the lamp. *)
Lemma depth_exhausted_returns_emission_witness :
  ray_color_1 (default_camera white) ray_down 0 (room matt_ptr) lamp (constant_tape 0.5)
  = (mkvec3 0 0 0, constant_tape 0.5)
  /\ ray_color_2 (default_camera white) ray_down 0 (room matt_ptr) lamp (constant_tape 0.5)
     = (mkvec3 0 0 0, constant_tape 0.5)
  /\ ray_color_3 (default_camera white) ray_down 0 (room matt_ptr) lamp true (constant_tape 0.5)
     = (mkvec3 0 0 0, constant_tape 0.5)
  /\ ray_color_4 (default_camera white) ray_down 0 (room matt_ptr) lamp 1 (constant_tape 0.5)
     = (mkvec3 0 0 0, constant_tape 0.5)
  /\ ray_color_4 (default_camera white) ray_up 0 (room matt_ptr) lamp 0.5 (constant_tape 0.5)
     = (mkvec3 7.5 7.5 7.5, constant_tape 0.5).
Proof.
  assert (Hd : (0 <= 0)%Z) by (intros Hgt; discriminate).
  destruct (@depth_exhausted_returns_emission crude_libm scene_materials
              (default_camera white) (room matt_ptr) lamp ray_down 0%Z Hd) as [H12 H34].
  destruct (H12 (constant_tape 0.5)) as (_ & H1 & _ & H2).
  destruct (H34 (constant_tape 0.5) (floor_hit matt_ptr) (constant_tape 0.5) eq_refl)
    as (_ & _ & Hdark).
  destruct (Hdark eq_refl) as (H3 & H4 & _).
  split; [exact H1|]. split; [exact H2|]. split; [apply H3|]. split; [exact H4|].
  destruct (@depth_exhausted_returns_emission crude_libm scene_materials
              (default_camera white) (room matt_ptr) lamp ray_up 0%Z Hd) as [_ Hup].
  destruct (Hup (constant_tape 0.5) lamp_hit (constant_tape 0.5) eq_refl)
    as (_ & H4' & _).
  apply (H4' 0.5).
Defined.

(** C5, as stated, fails for variant 4: the power heuristic of two zero
    densities is [0/0], and with that [Leweight] a call at depth 0 that
    hits a non-emissive material returns NaN, not zero. *)
Lemma ray_color_4_undefined_weight_not_zero :
  hit (room matt_ptr) ray_down (mkinterval 0.001 infinity) (constant_tape 0.5)
  = (Some (floor_hit matt_ptr), constant_tape 0.5)
  /\ emission ray_down (floor_hit matt_ptr) = mkvec3 0 0 0
  /\ power_heuristic 0 0 = nan
  /\ fst (ray_color_4 (default_camera white) ray_down 0 (room matt_ptr) lamp
            (power_heuristic 0 0) (constant_tape 0.5))
     = mkvec3 nan nan nan
  /\ fst (ray_color_4 (default_camera white) ray_down 0 (room matt_ptr) lamp
            (power_heuristic 0 0) (constant_tape 0.5))
     <> mkvec3 0 0 0.
Proof.
  split; [reflexivity|]. split; [reflexivity|]. split; [reflexivity|].
  split; [reflexivity|].
  intros Heq. apply (f_equal (fun c => vx c =? 0)) in Heq.
  vm_compute in Heq. discriminate.
Qed.

(** C1: the input on which variants 2, 3 and 4 go on where variant 1
    stops.  The floor's material scatters with a density whose [generate]
    returns the null vector.  Variant 1 returns the emission.  Variant 2
    draws the null vector from the mixture, calls itself on the ray with
    that direction and divides by the density [0]; variants 3 and 4 do the
    same for their indirect term.  None of the three returns the
    emission. *)
Theorem unguarded_degenerate_direction :
  let cam := default_camera white in
  let s := constant_tape 0.75 in
  let null_ray := mkray (mkvec3 0 0 0) (mkvec3 0 0 0) 0 in
  hit (room grazing_ptr) ray_down (mkinterval 0.001 infinity) s = (Some (floor_hit grazing_ptr), s)
  /\ scatter (deref (rec_mat (floor_hit grazing_ptr))) ray_down (floor_hit grazing_ptr) s
     = (Some grazing_scatter, s)
  /\ skip_pdf grazing_scatter = false
  /\ generate (pdf_ptr grazing_scatter) s = (mkvec3 0 0 0, s)
  /\ generate (mixture_pdf (hittable_pdf lamp (mkvec3 0 0 0)) (pdf_ptr grazing_scatter)) s
     = (mkvec3 0 0 0, s)
  /\ (length_squared (mkvec3 0 0 0) <? 0.0001) = true
  /\ emission ray_down (floor_hit grazing_ptr) = mkvec3 0 0 0
  /\ ray_color_1 cam ray_down 1 (room grazing_ptr) lamp s = (mkvec3 0 0 0, s)
  /\ (forall self,
        ray_color_2_body cam self ray_down 1 (room grazing_ptr) lamp s
        = (let (sample_color, s') := self null_ray 0%Z s in
           ((mkvec3 0 0 0 + (grey :* 0.25 * sample_color) /: 0)%vec, s')))
  /\ ray_color_2 cam ray_down 1 (room grazing_ptr) lamp s = (mkvec3 nan nan nan, s)
  /\ (forall self,
        ray_color_3_body cam self ray_down 1 (room grazing_ptr) lamp true s
        = (let (direct, s') := self ray_up 0%Z true s in
           let (indirect, s'') := self null_ray 0%Z false s' in
           ((mkvec3 0 0 0 + (grey :* 0.25 * direct) /: 0.25
             + (grey :* 0.25 * indirect) /: 0)%vec, s'')))
  /\ ray_color_3 cam ray_down 1 (room grazing_ptr) lamp true s
     = (mkvec3 PrimFloat.infinity PrimFloat.infinity PrimFloat.infinity, s)
  /\ ray_color_4 cam ray_down 1 (room grazing_ptr) lamp 1 s
     = (mkvec3 PrimFloat.infinity PrimFloat.infinity PrimFloat.infinity, s).
Proof.
  intros cam s null_ray.
  do 8 (split; [reflexivity|]).
  split; [intros self; reflexivity|].
  split; [reflexivity|].
  split; [intros self; reflexivity|].
  split; reflexivity.
Qed.

(** [mis_power_heuristic_weights] on the room with the matt floor: the
    light density of the direction [up] is 0.25 and the material density
    is 0.5, so the two weights are 0.2 and 0.8. *)
Lemma mis_power_heuristic_weights_witness :
  power_heuristic 0.25 0.5 = 0.2
  /\ power_heuristic 0.5 0.25 = 0.8
  /\ ray_color_4 (default_camera white) ray_up 0 (room matt_ptr) lamp
       (power_heuristic 0.25 0.5) (constant_tape 0.5)
     = ((power_heuristic 0.25 0.5 *: mkvec3 15 15 15)%vec, constant_tape 0.5)
  /\ ray_color_4 (default_camera white) ray_down 1 (room matt_ptr) lamp 1 (constant_tape 0.5)
     = (mkvec3 4.5 4.5 4.5, constant_tape 0.5).
Proof.
  split; [reflexivity|]. split; [reflexivity|]. split; [reflexivity|].
  refine (proj1 (@mis_power_heuristic_weights crude_libm scene_materials
                   (default_camera white) (room matt_ptr) lamp
                   ray_down 1%Z 1 (constant_tape 0.5)
                   (floor_hit matt_ptr) (constant_tape 0.5)
                   matt_scatter (constant_tape 0.5)
                   up (constant_tape 0.5)
                   (power_heuristic 0.25 0.5 *: mkvec3 15 15 15)%vec (constant_tape 0.5)
                   up (constant_tape 0.5)
                   (power_heuristic 0.5 0.25 *: mkvec3 15 15 15)%vec (constant_tape 0.5)
                   _ _ _ _ _ _ _ _));
    reflexivity.
Defined.

(** [hit_queries_on_fixed_interval] on the room and the walled room,
    which differ on the interval [(0, 0.5)]. *)
Lemma hit_queries_on_fixed_interval_witness :
  hit (room matt_ptr) ray_down (mkinterval 0 0.5) (constant_tape 0.5)
  <> hit (walled_room matt_ptr) ray_down (mkinterval 0 0.5) (constant_tape 0.5)
  /\ ray_color_1 (default_camera white) ray_down 3 (room matt_ptr) lamp (constant_tape 0.5)
     = ray_color_1 (default_camera white) ray_down 3 (walled_room matt_ptr) lamp
         (constant_tape 0.5)
  /\ ray_color_4 (default_camera white) ray_down 3 (room matt_ptr) lamp 1 (constant_tape 0.5)
     = ray_color_4 (default_camera white) ray_down 3 (walled_room matt_ptr) lamp 1
         (constant_tape 0.5).
Proof.
  split; [intros Heq; vm_compute in Heq; discriminate|].
  assert (Hsame : forall r s,
             hit (room matt_ptr) r (mkinterval 0.001 infinity) s
             = hit (walled_room matt_ptr) r (mkinterval 0.001 infinity) s)
    by (intros r s; reflexivity).
  destruct (@hit_queries_on_fixed_interval crude_libm scene_materials
              (default_camera white) (room matt_ptr) lamp (walled_room matt_ptr) Hsame
              ray_down 3%Z (constant_tape 0.5)) as (H1 & _ & _ & H4).
  split; [exact H1 | apply H4].
Defined.



(** [phong_pdf_generate_above_surface] on a lobe around its own reference
    normal: the first candidate is returned. *)
Lemma phong_pdf_generate_above_surface_witness :
  exists direction s',
    phong_pdf_generate 1 (phong_pdf_new up 30 up) (constant_tape 0.5)
    = Some (direction, s')
    /\ (0 <? dot direction up) = true
    /\ (dot direction up <? 0) = false.
Proof.
  destruct (phong_pdf_generate 1 (phong_pdf_new up 30 up) (constant_tape 0.5))
    as [[direction s']|] eqn:Hgen; [|vm_compute in Hgen; discriminate].
  exists direction, s'. split; [reflexivity|].
  exact (@phong_pdf_generate_above_surface crude_libm plain_externals 1
           (phong_pdf_new up 30 up) (constant_tape 0.5) direction s' Hgen).
Defined.

(** [hittable_list_uniform_mixture] on a list of three members, of which
    the draw 0.5 selects the second. *)
Lemma hittable_list_uniform_mixture_witness :
  hittable_list_pdf_value [lamp; room matt_ptr; empty_world] (mkvec3 0 0 0) up
  = 0.0 + 1.0 / 3 * 0.25 + 1.0 / 3 * 0 + 1.0 / 3 * 0
  /\ random_int 0 (wrap_int (wrap_int (size [lamp; room matt_ptr; empty_world]) - 1))
       (constant_tape 0.5)
     = (1%Z, constant_tape 0.5)
  /\ index [lamp; room matt_ptr; empty_world] 1 = Some (room matt_ptr)
  /\ hittable_list_random [lamp; room matt_ptr; empty_world] (mkvec3 0 0 0)
       (constant_tape 0.5)
     = (Some up, constant_tape 0.5).
Proof.
  destruct (@hittable_list_uniform_mixture plain_externals
              [lamp; room matt_ptr; empty_world] (mkvec3 0 0 0))
    as (Hval & Hrand & _ & _).
  split; [rewrite Hval; reflexivity|].
  split; [reflexivity|]. split; [reflexivity|].
  exact (Hrand (constant_tape 0.5) 1%Z (constant_tape 0.5) (room matt_ptr)
           eq_refl eq_refl).
Defined.

(** * Properties of the further code *)

(** ** More facts about binary64 arithmetic *)

(** Comparing the other way round gives the opposite answer. *)
Lemma SFcompare_antisym x y :
  SFcompare y x = option_map CompOpp (SFcompare x y).
Proof.
  destruct x as [sx|sx| |sx mx ex], y as [sy|sy| |sy my ey]; cbn;
    try reflexivity;
    try (destruct sx; reflexivity); try (destruct sy; reflexivity);
    try (destruct sx, sy; reflexivity).
  destruct sx, sy; cbn; try reflexivity.
  - rewrite (Z.compare_antisym ex ey).
    destruct (ex ?= ey)%Z; cbn; try reflexivity.
    rewrite (Pos.compare_cont_antisym mx my Eq). cbn.
    destruct (Pos.compare_cont Eq mx my); reflexivity.
  - rewrite (Z.compare_antisym ex ey).
    destruct (ex ?= ey)%Z; cbn; try reflexivity.
    rewrite (Pos.compare_cont_antisym mx my Eq). reflexivity.
Qed.

Lemma is_nan_SF x : is_nan x = true <-> Prim2SF x = S754_nan.
Proof.
  unfold is_nan. rewrite FloatAxioms.eqb_spec.
  destruct (Prim2SF x) as [s|s| |s m e]; cbn.
  - split; discriminate.
  - destruct s; cbn; split; discriminate.
  - split; reflexivity.
  - unfold SFeqb, SFcompare. rewrite Z.compare_refl, Pos.compare_cont_refl.
    destruct s; cbn; split; discriminate.
Qed.

(** For two numbers, "not below" is "above or equal". *)
Lemma ltb_false_leb x y :
  is_nan x = false -> is_nan y = false -> (x <? y) = false -> (y <=? x) = true.
Proof.
  intros Hx Hy. rewrite FloatAxioms.ltb_spec, FloatAxioms.leb_spec.
  unfold SFltb, SFleb. rewrite (SFcompare_antisym (Prim2SF x) (Prim2SF y)).
  assert (Hx' : Prim2SF x <> S754_nan)
    by (intros E; apply is_nan_SF in E; congruence).
  assert (Hy' : Prim2SF y <> S754_nan)
    by (intros E; apply is_nan_SF in E; congruence).
  destruct (Prim2SF x) as [sx|sx| |sx mx ex], (Prim2SF y) as [sy|sy| |sy my ey];
    try congruence; cbn;
    try (destruct sx; cbn; congruence); try (destruct sy; cbn; congruence);
    try (destruct sx, sy; cbn; congruence).
  destruct (match sx with true => _ | false => _ end); cbn; congruence.
Qed.

Lemma ltb_leb x y : (x <? y) = true -> (x <=? y) = true.
Proof.
  rewrite FloatAxioms.ltb_spec, FloatAxioms.leb_spec. unfold SFltb, SFleb.
  destruct (SFcompare (Prim2SF x) (Prim2SF y)) as [[ | | ]|]; congruence.
Qed.

Lemma leb_not_nan x y : (x <=? y) = true -> is_nan x = false /\ is_nan y = false.
Proof.
  rewrite FloatAxioms.leb_spec. unfold SFleb. intros H.
  split; destruct (is_nan _) eqn:E; try reflexivity; apply is_nan_SF in E;
    rewrite E in H; [|destruct (Prim2SF x)]; discriminate.
Qed.

Lemma Prim2SF_one : Prim2SF 1 = S754_finite false 4503599627370496 (-52).
Proof. reflexivity. Qed.

(** Multiplying by one changes nothing, whatever the number. *)
Lemma mul_one_l v : 1 * v = v.
Proof.
  apply Prim2SF_inj. rewrite mul_spec, Prim2SF_one.
  pose proof (Prim2SF_valid v) as Hvalid.
  destruct (Prim2SF v) as [s|s| |s m e]; try reflexivity.
  unfold SF64mul, SFmul. cbn [xorb].
  cbn [valid_binary] in Hvalid. unfold bounded, canonical_mantissa in Hvalid.
  apply andb_true_iff in Hvalid. destruct Hvalid as [Hcan Hmax].
  apply Z.eqb_eq in Hcan. apply Z.leb_le in Hmax.
  change (emax - prec)%Z with 971%Z in Hmax.
  change (fexp prec emax (Z.pos (digits2_pos m) + e))
    with (Z.max (Z.pos (digits2_pos m) + e - 53) (-1074)) in Hcan.
  unfold binary_round_aux.
  assert (Hshr1 : shr_fexp prec emax (Z.pos (4503599627370496 * m)) (-52 + e) loc_Exact
                  = ({| shr_m := Z.pos m; shr_r := false; shr_s := false |}, e)).
  { unfold shr_fexp, shr. cbn [shr_record_of_loc].
    assert (Hdig : Zdigits2 (Z.pos (4503599627370496 * m))
                   = (Z.pos (digits2_pos m) + 52)%Z).
    { cbn [Pos.mul Zdigits2 digits2_pos]. lia. }
    rewrite Hdig.
    change (fexp prec emax (Z.pos (digits2_pos m) + 52 + (-52 + e)))
      with (Z.max (Z.pos (digits2_pos m) + 52 + (-52 + e) - 53) (-1074)).
    replace (Z.max (Z.pos (digits2_pos m) + 52 + (-52 + e) - 53) (-1074) - (-52 + e))%Z
      with 52%Z by lia.
    cbn [iter_pos Pos.mul shr_1 orb].
    f_equal. lia. }
  rewrite Hshr1. cbn [shr_m loc_of_shr_record round_nearest_even].
  assert (Hshr2 : shr_fexp prec emax (Z.pos m) e loc_Exact
                  = ({| shr_m := Z.pos m; shr_r := false; shr_s := false |}, e)).
  { unfold shr_fexp, shr. cbn [Zdigits2 shr_record_of_loc].
    change (fexp prec emax (Z.pos (digits2_pos m) + e))
      with (Z.max (Z.pos (digits2_pos m) + e - 53) (-1074)).
    replace (Z.max (Z.pos (digits2_pos m) + e - 53) (-1074) - e)%Z with 0%Z by lia.
    reflexivity. }
  rewrite Hshr2. cbn [shr_m].
  replace (e <=? emax - prec)%Z with true; [reflexivity|].
  symmetry. apply Z.leb_le. exact Hmax.
Qed.

(** Adding zero changes nothing, except that it turns [-0.0] into
    [0.0]. *)
Lemma add_zero_l v : v <> neg_zero -> 0 + v = v.
Proof.
  intros Hv. apply Prim2SF_inj. rewrite add_spec, Prim2SF_zero.
  destruct (Prim2SF v) as [s|s| |s m e] eqn:E; try reflexivity.
  destruct s; [|reflexivity].
  exfalso. apply Hv. rewrite <- (SF2Prim_Prim2SF v), E. reflexivity.
Qed.

(** A finite number times a zero is a zero, and adding a zero to [0.0]
    leaves [0.0]. *)
Lemma add_mul_zero w z :
  is_finite w = true -> (z =? 0) = true -> 0 + w * z = 0.
Proof.
  intros Hw Hz. apply Prim2SF_inj.
  rewrite add_spec, mul_spec, Prim2SF_zero.
  rewrite FloatAxioms.eqb_spec, Prim2SF_zero in Hz.
  destruct (Prim2SF z) as [sz|sz| |sz mz ez]; cbn in Hz;
    try discriminate; try (destruct sz; discriminate).
  destruct (@is_finite_cases w Hw) as [[s ->] | (s & m & e & ->)];
    cbn; destruct (xorb s sz); reflexivity.
Qed.

(** Dividing by a zero gives an infinity or NaN, which [int(...)] does not
    convert. *)
Lemma int_of_double_div_zero x y : (y =? 0) = true -> int_of_double (x / y) = None.
Proof.
  intros Hy. unfold int_of_double. rewrite FloatAxioms.div_spec.
  rewrite FloatAxioms.eqb_spec, Prim2SF_zero in Hy.
  destruct (Prim2SF y) as [sy|sy| |sy my ey]; cbn in Hy;
    try discriminate; try (destruct sy; discriminate).
  destruct (Prim2SF x) as [sx|sx| |sx mx ex]; reflexivity.
Qed.

Lemma binary_round_aux_zero_sign sgn m e l :
  binary_round_aux prec emax false m e l = S754_zero sgn -> sgn = false.
Proof.
  unfold binary_round_aux.
  destruct (shr_fexp prec emax m e l) as [mrs' e'].
  destruct (shr_fexp prec emax _ e' loc_Exact) as [mrs'' e''].
  destruct (shr_m mrs''); try discriminate.
  - congruence.
  - destruct (e'' <=? emax - prec)%Z; discriminate.
Qed.

(** The reciprocal of a count from 1 up to [2 ^ 63] is [+0] or a finite
    positive number, so that its product with [+0] is [+0] itself. *)
Lemma reciprocal_of_count_mul_zero N :
  (1 <= N < 2 ^ 63)%Z -> 1 / of_uint63 (Uint63.of_Z N) * 0 = 0.
Proof.
  intros HN. apply Prim2SF_inj.
  rewrite FloatAxioms.mul_spec, FloatAxioms.div_spec, FloatAxioms.of_uint63_spec,
    Uint63.of_Z_spec.
  rewrite Z.mod_small by (change Uint63.wB with (2 ^ 63)%Z; lia).
  destruct (binary_normalize_count HN) as (m & e & -> & He).
  pose proof (@SFdiv_one_finite m e ltac:(lia)) as Hfin.
  change (Prim2SF 0) with (S754_zero false).
  destruct (SF64div (Prim2SF 1) (S754_finite false m e)) as [sgn| sgn | | sgn m' e'] eqn:E;
    try contradiction.
  - assert (sgn = false) as ->; [|reflexivity].
    revert E. change (Prim2SF 1) with (S754_finite false 4503599627370496 (-52)).
    unfold SF64div, SFdiv.
    destruct (SFdiv_core_binary prec emax 4503599627370496 (-52) (Z.pos m) e)
      as [[q e''] l].
    apply binary_round_aux_zero_sign.
  - assert (sgn = false) as ->; [|reflexivity].
    revert E. change (Prim2SF 1) with (S754_finite false 4503599627370496 (-52)).
    unfold SF64div, SFdiv.
    destruct (SFdiv_core_binary prec emax 4503599627370496 (-52) (Z.pos m) e)
      as [[q e''] l].
    apply binary_round_aux_sign.
Qed.

Lemma int_of_double_range x z :
  int_of_double x = Some z -> (int_min <= z <= int_max)%Z.
Proof.
  unfold int_of_double. destruct (Prim2SF x) as [sgn| sgn | | sgn m e]; try discriminate.
  - intros [= <-]. unfold int_min, int_max. lia.
  - destruct (_ && _)%Z eqn:E; [|discriminate]. intros [= <-].
    apply andb_true_iff in E. destruct E as [E1 E2].
    apply Z.leb_le in E1, E2. split; assumption.
Qed.

(** A finite number is below [infinity]. *)
Lemma finite_below_infinity x : is_finite x = true -> (x <? infinity) = true.
Proof.
  unfold is_finite, is_nan, is_infinity.
  rewrite FloatAxioms.ltb_spec, !FloatAxioms.eqb_spec, abs_spec.
  change (Prim2SF infinity) with (S754_infinity false).
  destruct (Prim2SF x) as [sgn| sgn | | sgn m e]; try destruct sgn; cbn;
    try discriminate; reflexivity.
Qed.

(** Minus infinity times a number below zero is [infinity]. *)
Lemma neg_infinity_mul_negative x : (x <? 0) = true -> neg_infinity * x = infinity.
Proof.
  rewrite FloatAxioms.ltb_spec. intros Hneg. apply Prim2SF_inj.
  rewrite FloatAxioms.mul_spec.
  change (Prim2SF neg_infinity) with (S754_infinity true).
  change (Prim2SF infinity) with (S754_infinity false).
  change (Prim2SF 0) with (S754_zero false) in Hneg.
  destruct (Prim2SF x) as [sgn| sgn | | sgn m e]; try destruct sgn; cbn in *;
    try discriminate; reflexivity.
Qed.

(** ** [hittable_list] as a container *)

(** The upper end of the interval a member is queried on: the [t] of the
    record written so far, or the upper end the loop started with. *)
Lemma hittable_list_hit_loop_app (objects1 objects2 : list hittable) r t_min t_max :
  forall rec s,
    let closest rec := match rec with Some rc => rec_t rc | None => t_max end in
    hittable_list_hit_loop (objects1 ++ objects2) r t_min (closest rec) rec s
    = let (h, s1) := hittable_list_hit_loop objects1 r t_min (closest rec) rec s in
      hittable_list_hit_loop objects2 r t_min (closest h) h s1.
Proof.
  induction objects1 as [|o objects1 IH]; intros rec s closest;
    cbn [app hittable_list_hit_loop].
  - reflexivity.
  - unfold bind.
    destruct (hit o r (mkinterval t_min (closest rec)) s) as [[temp_rec|] s1].
    + apply (IH (Some temp_rec) s1).
    + apply (IH rec s1).
Qed.

(** X2.  Adding an object to a list: the new list answers a query as the
    old list does, then queries the added object between the lower end of
    the interval and the [t] of the old list's hit (the upper end of the
    interval when the old list missed); the added object's hit replaces
    the old list's. *)
Theorem hittable_list_hit_add `{Boxes} (l : hittable_list) (object : hittable)
  (r : ray) (ray_t : interval) (s : rng) :
  hittable_list_hit (hl_objects (hittable_list_add l object)) r ray_t s
  = let (h, s1) := hittable_list_hit (hl_objects l) r ray_t s in
    let closest_so_far := match h with Some rec => rec_t rec | None => imax ray_t end in
    let (h', s2) := hit object r (mkinterval (imin ray_t) closest_so_far) s1 in
    (match h' with Some rec' => Some rec' | None => h end, s2).
Proof.
  unfold hittable_list_hit. cbn [hittable_list_add hl_objects].
  rewrite (hittable_list_hit_loop_app (hl_objects l) [object] r (imin ray_t)
             (imax ray_t) None s).
  destruct (hittable_list_hit_loop (hl_objects l) r (imin ray_t) (imax ray_t) None s)
    as [h s1].
  cbn [hittable_list_hit_loop]. unfold bind, ret.
  destruct (hit object r _ s1) as [[rec'|] s2]; reflexivity.
Qed.

Lemma hittable_list_hit_loop_sound (objects : list hittable) r t_min :
  forall closest_so_far rec0 s rec s',
    hittable_list_hit_loop objects r t_min closest_so_far rec0 s = (Some rec, s') ->
    rec0 = Some rec
    \/ exists object t_max s1 s2,
         In object objects
         /\ hit object r (mkinterval t_min t_max) s1 = (Some rec, s2).
Proof.
  induction objects as [|o objects IH]; intros closest rec0 s rec s';
    cbn [hittable_list_hit_loop].
  - intros [= -> _]. left. reflexivity.
  - unfold bind. destruct (hit o r (mkinterval t_min closest) s) as [[temp_rec|] s1] eqn:Ho.
    + intros Hloop. apply IH in Hloop. destruct Hloop as [[= ->] | Hin].
      * right. exists o, closest, s, s1. split; [left; reflexivity | exact Ho].
      * right. destruct Hin as (o' & t' & s1' & s2' & Hin & Hhit).
        exists o', t', s1', s2'. split; [right; exact Hin | exact Hhit].
    + intros Hloop. apply IH in Hloop. destruct Hloop as [-> | Hin].
      * left. reflexivity.
      * right. destruct Hin as (o' & t' & s1' & s2' & Hin & Hhit).
        exists o', t', s1', s2'. split; [right; exact Hin | exact Hhit].
Qed.

Lemma hittable_list_hit_loop_miss (objects : list hittable) r t_min :
  (forall object t_max s1, In object objects ->
     fst (hit object r (mkinterval t_min t_max) s1) = None) ->
  forall closest_so_far rec0 s,
    fst (hittable_list_hit_loop objects r t_min closest_so_far rec0 s) = rec0.
Proof.
  induction objects as [|o objects IH]; intros Hmiss closest rec0 s;
    cbn [hittable_list_hit_loop].
  - reflexivity.
  - unfold bind. pose proof (Hmiss o closest s (or_introl eq_refl)) as Ho.
    destruct (hit o r (mkinterval t_min closest) s) as [[temp_rec|] s1];
      cbn in Ho; [discriminate|].
    apply IH. intros o' t' s1' Hin. apply Hmiss. right. exact Hin.
Qed.

(** X3.  A list never invents a hit: a record it returns is a record that
    one of its members returned on an interval with the list's lower end,
    and when every member misses on every such interval the list
    misses. *)
Theorem hittable_list_hit_sound (objects : list hittable) (r : ray)
  (ray_t : interval) (s : rng) :
  (forall rec s',
     hittable_list_hit objects r ray_t s = (Some rec, s') ->
     exists object t_max s1 s2,
       In object objects
       /\ hit object r (mkinterval (imin ray_t) t_max) s1 = (Some rec, s2))
  /\ ((forall object t_max s1, In object objects ->
         fst (hit object r (mkinterval (imin ray_t) t_max) s1) = None) ->
      fst (hittable_list_hit objects r ray_t s) = None).
Proof.
  split.
  - intros rec s' Hhit. unfold hittable_list_hit in Hhit.
    apply hittable_list_hit_loop_sound in Hhit.
    destruct Hhit as [Hnone | Hin]; [discriminate | exact Hin].
  - intros Hmiss. unfold hittable_list_hit.
    apply hittable_list_hit_loop_miss, Hmiss.
Qed.

(** X4.  A list of one object, as [main.cc] builds for its lights, is its
    object: it answers a query as the object does, its density is the
    object's (a density of [-0.0] comes out as [0.0]), and its [random]
    is the object's when [random_int(0, 0)] returns [0]. *)
Theorem hittable_list_of_one `{Boxes} `{Externals} (object : hittable)
  (origin : point3) :
  hl_objects (hittable_list_of object) = [object]
  /\ (forall r ray_t s,
        hittable_list_hit [object] r ray_t s = hit object r ray_t s)
  /\ (forall direction,
        pdf_value object origin direction <> neg_zero ->
        hittable_list_pdf_value [object] origin direction
        = pdf_value object origin direction)
  /\ (forall s s1,
        random_int 0 0 s = (0%Z, s1) ->
        hittable_list_random [object] origin s
        = (Some (fst (random object origin s1)), snd (random object origin s1))).
Proof.
  split; [reflexivity|]. split; [|split].
  - intros r [t_min t_max] s. unfold hittable_list_hit.
    cbn [hittable_list_hit_loop imin imax]. unfold bind, ret.
    destruct (hit object r (mkinterval t_min t_max) s) as [[rec|] s1]; reflexivity.
  - intros direction Hv. unfold hittable_list_pdf_value. cbn [fold_left].
    change (1.0 / double_of_int (size [object])) with 1.
    rewrite mul_one_l. apply add_zero_l, Hv.
  - intros s s1 Hk. unfold hittable_list_random, bind, ret.
    change (wrap_int (wrap_int (size [object]) - 1)) with 0%Z.
    rewrite Hk. change (index [object] 0) with (Some object). cbv beta iota.
    destruct (random object origin s1). reflexivity.
Qed.

Lemma weighted_zero_fold (objects : list hittable) origin direction weight :
  is_finite weight = true ->
  Forall (fun o => (pdf_value o origin direction =? 0) = true) objects ->
  fold_left (fun sum object => sum + weight * pdf_value object origin direction)
            objects 0 = 0.
Proof.
  intros Hw Hall. induction Hall as [|o objects Ho _ IH]; cbn [fold_left].
  - reflexivity.
  - rewrite (@add_mul_zero weight _ Hw Ho). exact IH.
Qed.

(** X5.  When every member has density zero in a direction, the density
    of the list in that direction is exactly [0.0] (for a list whose size
    fits the [int] it is converted to, the empty list included). *)
Theorem hittable_list_pdf_value_zero (objects : list hittable)
  (origin : point3) (direction : vec3) :
  (size objects <= int_max)%Z ->
  Forall (fun o => (pdf_value o origin direction =? 0) = true) objects ->
  hittable_list_pdf_value objects origin direction = 0.
Proof.
  intros Hmax Hall. destruct objects as [|o objects]; [reflexivity|].
  unfold hittable_list_pdf_value. apply weighted_zero_fold; [|exact Hall].
  unfold double_of_int.
  assert (Hsize : (1 <= size (o :: objects))%Z) by (unfold size; cbn; lia).
  replace (size (o :: objects) <? 0)%Z with false by (symmetry; apply Z.ltb_ge; lia).
  apply reciprocal_of_count_finite. unfold int_max in Hmax. lia.
Qed.

(** X6.  Objects added one after the other end up in [objects] in that
    order, after the objects already there, and the box is the
    left-to-right fold of [aabb(bbox, box)] over their boxes, starting
    from the box the list had.  [clear] leaves that box in place: a list
    that is cleared and filled again holds only the new objects, under a
    box that is still built on the old one. *)
Theorem hittable_list_adds `{Boxes} (l : hittable_list) (new_objects : list hittable) :
  let grow box := fold_left (fun box o => aabb_around box (bounding_box o))
                            new_objects box in
  fold_left hittable_list_add new_objects l
  = {| hl_objects := hl_objects l ++ new_objects; hl_bbox := grow (hl_bbox l) |}
  /\ fold_left hittable_list_add new_objects (hittable_list_clear l)
     = {| hl_objects := new_objects; hl_bbox := grow (hl_bbox l) |}
  /\ fold_left hittable_list_add new_objects hittable_list_new
     = {| hl_objects := new_objects; hl_bbox := grow aabb_default |}
  /\ size (hl_objects (fold_left hittable_list_add new_objects l))
     = (size (hl_objects l) + size new_objects)%Z.
Proof.
  intros grow.
  assert (Hfold : forall l0 : hittable_list,
             fold_left hittable_list_add new_objects l0
             = {| hl_objects := hl_objects l0 ++ new_objects;
                  hl_bbox := grow (hl_bbox l0) |}).
  { subst grow. induction new_objects as [|o new_objects IH]; intros l0; cbn [fold_left].
    - rewrite app_nil_r. destruct l0; reflexivity.
    - rewrite IH. cbn [hittable_list_add hl_objects hl_bbox].
      rewrite <- app_assoc. reflexivity. }
  split; [apply Hfold|].
  split; [exact (Hfold (hittable_list_clear l))|].
  split; [exact (Hfold hittable_list_new)|].
  rewrite Hfold. cbn [hl_objects]. unfold size. rewrite length_app. lia.
Qed.

(** ** More on the densities of [pdf.h] *)

Lemma std_fmax_zero_nonneg x : (0 <=? std_fmax 0 x) = true.
Proof.
  unfold std_fmax. change (is_nan 0) with false. cbv iota.
  destruct (is_nan x) eqn:Hnan; [reflexivity|].
  destruct (0 <? x) eqn:Hlt; [apply ltb_leb, Hlt | reflexivity].
Qed.

(** X7.  The value of a cosine density is never below zero and never
    NaN, whatever the direction and the axis, a direction of length zero
    (whose cosine is NaN) included. *)
Theorem cosine_pdf_value_nonneg `{Externals} (cp : cosine_pdf) (direction : vec3) :
  (0 <=? cosine_pdf_value cp direction) = true
  /\ is_nan (cosine_pdf_value cp direction) = false.
Proof.
  assert (Hle : (0 <=? cosine_pdf_value cp direction) = true)
    by apply std_fmax_zero_nonneg.
  split; [exact Hle|]. apply (leb_not_nan Hle).
Qed.

Lemma clamp_bounds (i : interval) (x : double) :
  (imin i <=? imax i) = true -> is_nan x = false ->
  (imin i <=? clamp i x) = true /\ (clamp i x <=? imax i) = true.
Proof.
  intros Hi Hx. destruct (leb_not_nan Hi) as [Hmin Hmax]. unfold clamp.
  assert (Hrefl : forall y, is_nan y = false -> (y <=? y) = true).
  { intros y Hy. apply ltb_false_leb; try exact Hy.
    destruct (y <? y) eqn:E; [|reflexivity].
    rewrite FloatAxioms.ltb_spec in E. unfold SFltb in E.
    pose proof (SFcompare_antisym (Prim2SF y) (Prim2SF y)) as Ha.
    destruct (SFcompare (Prim2SF y) (Prim2SF y)) as [[ | | ]|]; cbn in Ha; congruence. }
  destruct (x <? imin i) eqn:E1.
  - split; [apply Hrefl, Hmin | exact Hi].
  - destruct (imax i <? x) eqn:E2.
    + split; [exact Hi | apply Hrefl, Hmax].
    + split; apply ltb_false_leb; assumption.
Qed.

(** X8.  The exponent a Phong density keeps is the given one brought
    into [0.1 .. 1000]; only a NaN exponent is kept as it is. *)
Theorem phong_pdf_new_alpha `{Externals} (w : vec3) (alpha : double) (n : vec3) :
  (is_nan alpha = false ->
     (0.1 <=? ph_alpha (phong_pdf_new w alpha n)) = true
     /\ (ph_alpha (phong_pdf_new w alpha n) <=? 1000) = true)
  /\ (is_nan alpha = true -> ph_alpha (phong_pdf_new w alpha n) = alpha)
  /\ ((0.1 <=? alpha) = true -> (alpha <=? 1000) = true ->
      ph_alpha (phong_pdf_new w alpha n) = alpha).
Proof.
  cbn [phong_pdf_new ph_alpha]. split; [|split].
  - intros Hx. apply (@clamp_bounds (mkinterval 0.1 1000.0) alpha); [reflexivity | exact Hx].
  - intros Hx. unfold clamp. cbn [imin imax].
    apply is_nan_SF in Hx.
    rewrite !FloatAxioms.ltb_spec, Hx. unfold SFltb.
    destruct (Prim2SF 0.1), (Prim2SF 1000.0); reflexivity.
  - intros Hlo Hhi. unfold clamp. cbn [imin imax].
    assert (Hnot : forall a b, (a <=? b) = true -> (b <? a) = false).
    { intros a b. rewrite FloatAxioms.ltb_spec, FloatAxioms.leb_spec.
      unfold SFltb, SFleb. rewrite (SFcompare_antisym (Prim2SF a) (Prim2SF b)).
      destruct (SFcompare (Prim2SF a) (Prim2SF b)) as [[ | | ]|]; cbn; congruence. }
    rewrite (Hnot _ _ Hlo), (Hnot _ _ Hhi). reflexivity.
Qed.

Lemma after_draws_add (a b : nat) (s : rng) :
  after_draws (a + b) s = after_draws b (after_draws a s).
Proof.
  revert s. induction a as [|a IH]; intros s; cbn [Nat.add after_draws].
  - reflexivity.
  - apply IH.
Qed.

(** X9.  A run of [phong_pdf::generate] that returns has rejected every
    earlier candidate and returns the first one on the side of the
    normal; it has drawn two numbers per candidate, the rejected ones
    included. *)
Theorem phong_pdf_generate_draws `{Libm} `{Externals}
  (fuel : nat) (ph : phong_pdf) (s : rng) (direction : vec3) (s' : rng) :
  phong_pdf_generate fuel ph s = Some (direction, s') ->
  exists turns,
    (turns < fuel)%nat
    /\ phong_pdf_candidate ph (after_draws (2 * turns) s) = (direction, s')
    /\ s' = after_draws (2 * (turns + 1)) s
    /\ forall j, (j < turns)%nat ->
         (0 <? dot (fst (phong_pdf_candidate ph (after_draws (2 * j) s))) (ph_n ph))
         = false.
Proof.
  revert s. induction fuel as [|fuel IH]; intros s; cbn [phong_pdf_generate].
  - discriminate.
  - destruct (phong_pdf_candidate ph s) as [d s1] eqn:Hcand.
    assert (Hs1 : s1 = after_draws 2 s).
    { change s1 with (snd (d, s1)). rewrite <- Hcand. reflexivity. }
    destruct (0 <? dot d (ph_n ph)) eqn:Hdot.
    + intros [= <- <-]. exists 0%nat. split; [lia|]. split; [exact Hcand|].
      split; [exact Hs1|]. intros j Hj. lia.
    + intros Hgen. subst s1. destruct (IH _ Hgen) as (k & Hk & Hc & Hs' & Hrej).
      exists (S k). split; [lia|].
      replace (2 * S k)%nat with (2 + 2 * k)%nat by lia.
      replace (2 * (S k + 1))%nat with (2 + 2 * (k + 1))%nat by lia.
      rewrite !after_draws_add. split; [exact Hc|]. split; [exact Hs'|].
      intros [|j] Hj.
      * change (after_draws (2 * 0) s) with s. rewrite Hcand. exact Hdot.
      * replace (2 * S j)%nat with (2 + 2 * j)%nat by lia.
        rewrite after_draws_add. apply Hrej. lia.
Qed.

(** ** More on the camera *)

Lemma for_each_collect_Forall {A B : Type} (P : B -> Prop) (ks : list A)
  (body : A -> M B) :
  (forall k s, P (fst (body k s))) ->
  forall s, Forall P (fst (for_each_collect ks body s)).
Proof.
  intros Hbody. induction ks as [|k ks IH]; intros s; cbn [for_each_collect].
  - constructor.
  - unfold bind, ret. pose proof (Hbody k s) as Hk.
    destruct (body k s) as [b s1]. specialize (IH s1).
    destruct (for_each_collect ks body s1) as [bs s2]. cbn in *.
    constructor; assumption.
Qed.

Lemma initialize_height `{Libm} (cam : camera) (fr : camera_frame) :
  initialize cam = Some fr ->
  exists h0,
    int_of_double (double_of_int (image_width cam) / aspect_ratio cam) = Some h0
    /\ image_height fr = Z.max 1 h0
    /\ center fr = lookfrom cam.
Proof.
  unfold initialize.
  destruct (int_of_double (double_of_int (image_width cam) / aspect_ratio cam))
    as [h0|]; [|discriminate].
  destruct (int_of_double (sqrt (double_of_int (samples_per_pixel cam))));
    [|discriminate].
  intros [= <-]. exists h0. split; [reflexivity|]. cbn [image_height center].
  split; [|reflexivity]. destruct (h0 <? 1)%Z eqn:E.
  - apply Z.ltb_lt in E. lia.
  - apply Z.ltb_ge in E. lia.
Qed.

(** X10.  For an [image_width] that is not negative, the image buffer
    has [image_height] rows, which is the larger of 1 and
    [int(image_width / aspect_ratio)], so at least one, and every row has
    [image_width] pixels, whatever the scene and the draws. *)
Theorem render_image_dimensions `{Libm} `{Externals} `{Materials}
  (cam : camera) (fr : camera_frame) (world lights : hittable) (s : rng) :
  (0 <= image_width cam)%Z ->
  initialize cam = Some fr ->
  (exists h0,
     int_of_double (double_of_int (image_width cam) / aspect_ratio cam) = Some h0
     /\ image_height fr = Z.max 1 h0)
  /\ List.length (fst (render_image cam fr world lights s))
     = Z.to_nat (image_height fr)
  /\ (1 <= List.length (fst (render_image cam fr world lights s)))%nat
  /\ Forall (fun row => List.length row = Z.to_nat (image_width cam))
            (fst (render_image cam fr world lights s)).
Proof.
  intros _ Hinit. destruct (@initialize_height _ cam fr Hinit) as (h0 & Hh0 & Hh & _).
  assert (Hlen : List.length (fst (render_image cam fr world lights s))
                 = Z.to_nat (image_height fr)).
  { unfold render_image. rewrite for_each_collect_length. apply counter_values_length. }
  split; [exists h0; split; assumption|]. split; [exact Hlen|].
  split; [rewrite Hlen; lia|].
  unfold render_image. apply for_each_collect_Forall. intros j s0.
  rewrite for_each_collect_length. apply counter_values_length.
Qed.

Lemma sqrt_of_negative_undefined z :
  (- 2 ^ 63 < z < 0)%Z -> int_of_double (sqrt (double_of_int z)) = None.
Proof.
  intros Hz. unfold int_of_double, double_of_int.
  replace (z <? 0)%Z with true by (symmetry; apply Z.ltb_lt; lia).
  rewrite sqrt_spec, opp_spec, FloatAxioms.of_uint63_spec, Uint63.of_Z_spec.
  rewrite Z.mod_small by (change Uint63.wB with (2 ^ 63)%Z; lia).
  destruct (@binary_normalize_count (- z)%Z ltac:(lia)) as (m & e & -> & _).
  reflexivity.
Qed.

(** X11.  [initialize] is undefined when [aspect_ratio] is zero (the
    image height would be the conversion of an infinity or of NaN) and
    when [samples_per_pixel] is negative (the conversion of the NaN that
    the square root returns). *)
Theorem initialize_undefined `{Libm} (cam : camera) :
  ((aspect_ratio cam =? 0) = true -> initialize cam = None)
  /\ ((int_min <= samples_per_pixel cam < 0)%Z -> initialize cam = None).
Proof.
  split.
  - intros Hzero. unfold initialize.
    rewrite (@int_of_double_div_zero (double_of_int (image_width cam)) _ Hzero).
    reflexivity.
  - intros Hneg. unfold initialize.
    rewrite (@sqrt_of_negative_undefined (samples_per_pixel cam))
      by (unfold int_min in Hneg; lia).
    destruct (int_of_double _); reflexivity.
Qed.

(** X12.  With [samples_per_pixel = 0] the grid is empty: no ray is
    traced, no number is drawn, and every pixel is [(0,0,0)] times the
    scale [1.0 / 0], that is NaN in its three components. *)
Theorem zero_samples_give_nan `{Libm} `{Externals} `{Materials}
  (cam : camera) (fr : camera_frame) (world lights : hittable) (i j : Z) (s : rng) :
  initialize cam = Some fr ->
  samples_per_pixel cam = 0%Z ->
  sqrt_spp fr = 0%Z
  /\ pixel_radiances cam fr world lights i j s = ([], s)
  /\ render_pixel cam fr world lights i j s = (mkvec3 nan nan nan, s).
Proof.
  intros Hinit Hzero. destruct (@initialize_samples _ cam fr Hinit) as [Hs Hscale].
  rewrite Hzero in Hs.
  assert (Hs0 : sqrt_spp fr = 0%Z).
  { vm_compute in Hs. injection Hs as Hs. symmetry. exact Hs. }
  split; [exact Hs0|]. split.
  - unfold pixel_radiances. rewrite Hs0. reflexivity.
  - unfold render_pixel. rewrite Hscale, Hs0. reflexivity.
Qed.

Lemma sum_of_black (cs : list color) :
  Forall (fun c => c = mkvec3 0 0 0) cs -> fold_left accumulate cs (0, 0, 0) = (0, 0, 0).
Proof.
  induction 1 as [|c cs Hc _ IH]; [reflexivity|]. subst c. exact IH.
Qed.

Lemma ray_color_of_miss `{Libm} `{Materials} (cam : camera) (world lights : hittable) :
  background cam = mkvec3 0 0 0 ->
  (forall r s, fst (hit world r (mkinterval 0.001 infinity) s) = None) ->
  forall r s, fst (ray_color cam world lights r s) = mkvec3 0 0 0.
Proof.
  intros Hbg Hmiss r s. specialize (Hmiss r s). unfold ray_color.
  destruct (render_mode cam).
  - rewrite ray_color_1_eq. unfold ray_color_1_body, bind, ret.
    destruct (max_depth cam <=? 0)%Z; [reflexivity|].
    destruct (hit world r _ s) as [[rec|] s1]; [discriminate | exact Hbg].
  - rewrite ray_color_2_eq. unfold ray_color_2_body, bind, ret.
    destruct (max_depth cam <=? 0)%Z; [reflexivity|].
    destruct (hit world r _ s) as [[rec|] s1]; [discriminate | exact Hbg].
  - rewrite ray_color_3_eq. unfold ray_color_3_body, bind, ret.
    destruct (hit world r _ s) as [[rec|] s1]; [discriminate | exact Hbg].
  - rewrite ray_color_4_eq. unfold ray_color_4_body, bind, ret.
    destruct (hit world r _ s) as [[rec|] s1]; [discriminate | exact Hbg].
Qed.

(** X13.  A camera with a black background that looks at a world no ray
    hits stores exactly [(0,0,0)] in every pixel, in every render mode
    and at every [max_depth], provided the sample grid is not empty: the
    sum of the samples is [+0] and the scale [1.0 / (s * s)] is finite. *)
Theorem unhit_world_renders_black `{Libm} `{Externals} `{Materials}
  (cam : camera) (fr : camera_frame) (world lights : hittable) :
  initialize cam = Some fr ->
  background cam = mkvec3 0 0 0 ->
  (1 <= sqrt_spp fr)%Z ->
  (forall r s, fst (hit world r (mkinterval 0.001 infinity) s) = None) ->
  forall i j s, fst (render_pixel cam fr world lights i j s) = mkvec3 0 0 0.
Proof.
  intros Hinit Hbg Hspp Hmiss i j s.
  destruct (@initialize_samples _ cam fr Hinit) as [Hs Hscale].
  pose proof (int_of_double_range _ Hs) as Hrange. unfold int_min, int_max in Hrange.
  unfold render_pixel, bind at 1.
  rewrite (for_each_nested (counter_values (sqrt_spp fr)) (counter_values (sqrt_spp fr))
             (fun cell acc' =>
                c <- sample_radiance cam fr world lights i j (fst cell) (snd cell) ;;
                ret (accumulate acc' c))).
  rewrite for_each_accumulate.
  pose proof (@for_each_collect_Forall _ _ (fun c => c = mkvec3 0 0 0)
                (flat_map (fun a => map (fun b => (b, a)) (counter_values (sqrt_spp fr)))
                          (counter_values (sqrt_spp fr)))
                (fun cell => sample_radiance cam fr world lights i j (fst cell) (snd cell)))
    as Hall.
  specialize (Hall ltac:(intros cell s0; unfold sample_radiance, bind;
                         destruct (get_ray cam fr i j (fst cell) (snd cell) s0) as [r s1];
                         apply ray_color_of_miss; assumption) s).
  destruct (for_each_collect _ _ s) as [cs s'']. cbn [fst] in Hall.
  rewrite (sum_of_black Hall). unfold ret. cbn [fst]. rewrite Hscale.
  unfold vscale_r, vscale. cbn [vx vy vz]. unfold double_of_int.
  replace (sqrt_spp fr * sqrt_spp fr <? 0)%Z with false by (symmetry; apply Z.ltb_ge; nia).
  rewrite reciprocal_of_count_mul_zero by nia. reflexivity.
Qed.

(** X14.  Without defocus ([defocus_angle <= 0]) every camera ray starts
    at [lookfrom]; [get_ray] takes three draws: the first two jitter the
    sample inside its sub-pixel cell, the third is the time of the ray. *)
Theorem get_ray_without_defocus `{Libm} `{Externals}
  (cam : camera) (fr : camera_frame) (i j s_i s_j : Z) (s : rng) :
  initialize cam = Some fr ->
  (defocus_angle cam <=? 0) = true ->
  let px := (double_of_int s_i + s 0%nat) * recip_sqrt_spp fr - 0.5 in
  let py := (double_of_int s_j + s 1%nat) * recip_sqrt_spp fr - 0.5 in
  let pixel_sample :=
    (pixel00_loc fr
     + ((double_of_int i + px)%float *: pixel_delta_u fr)
     + ((double_of_int j + py)%float *: pixel_delta_v fr))%vec in
  get_ray cam fr i j s_i s_j s
  = (mkray (lookfrom cam) (pixel_sample - lookfrom cam)%vec (s 2%nat),
     after_draws 3 s).
Proof.
  intros Hinit Hdefocus px py pixel_sample.
  destruct (@initialize_height _ cam fr Hinit) as (h0 & _ & _ & Hcenter).
  unfold get_ray, sample_square_stratified, bind, ret, random_double.
  rewrite Hdefocus, Hcenter. reflexivity.
Qed.

(** ** More on the estimators *)

Ltac lights_ext_tac Hself Hpdf Hrand :=
  repeat first [ reflexivity
               | rewrite Hself by self_side
               | rewrite Hrand
               | rewrite Hpdf
               | match goal with
                 | |- context [(if ?c then _ else _) _] => destruct c eqn:?
                 end
               | break_match ].

Section EstimatorLights.

Context `{Libm} `{Materials}.
Variable cam : camera.
Variables world1 world2 lights1 lights2 : hittable.

Hypothesis Hhit : same_hits world1 world2.
Hypothesis Hpdf : forall o d, pdf_value lights1 o d = pdf_value lights2 o d.
Hypothesis Hrand : forall o s, random lights1 o s = random lights2 o s.

Lemma ray_color_2_body_lights (self1 self2 : ray -> Z -> M color) r depth s :
  (forall r' s', (0 < depth)%Z -> self1 r' (depth - 1)%Z s' = self2 r' (depth - 1)%Z s') ->
  ray_color_2_body cam self1 r depth world1 lights1 s
  = ray_color_2_body cam self2 r depth world2 lights2 s.
Proof.
  intros Hself. unfold ray_color_2_body, bind, ret.
  destruct (depth <=? 0)%Z eqn:Hd; [reflexivity|].
  apply Z.leb_gt in Hd. rewrite Hhit.
  cbn [generate value mixture_pdf hittable_pdf]. unfold bind, ret, random_double.
  lights_ext_tac Hself Hpdf Hrand.
Qed.

Lemma ray_color_3_body_lights (self1 self2 : ray -> Z -> bool -> M color) r depth b s :
  (forall d' r' b' s', (0 < depth)%Z -> d' = (depth - 1)%Z \/ d' = 0%Z ->
     self1 r' d' b' s' = self2 r' d' b' s') ->
  ray_color_3_body cam self1 r depth world1 lights1 b s
  = ray_color_3_body cam self2 r depth world2 lights2 b s.
Proof.
  intros Hself. unfold ray_color_3_body, bind, ret. rewrite Hhit.
  destruct (hit world2 r _ s) as [[rec|] s1]; [|reflexivity].
  destruct (depth <=? 0)%Z eqn:Hd; [reflexivity|].
  apply Z.leb_gt in Hd. cbn [generate value hittable_pdf].
  lights_ext_tac Hself Hpdf Hrand.
Qed.

Lemma ray_color_4_body_lights (self1 self2 : ray -> Z -> double -> M color) r depth w s :
  (forall d' r' w' s', (0 < depth)%Z -> d' = (depth - 1)%Z \/ d' = 0%Z ->
     self1 r' d' w' s' = self2 r' d' w' s') ->
  ray_color_4_body cam self1 r depth world1 lights1 w s
  = ray_color_4_body cam self2 r depth world2 lights2 w s.
Proof.
  intros Hself. unfold ray_color_4_body, bind, ret. rewrite Hhit.
  destruct (hit world2 r _ s) as [[rec|] s1]; [|reflexivity].
  destruct (depth <=? 0)%Z eqn:Hd; [reflexivity|].
  apply Z.leb_gt in Hd. cbn [generate value hittable_pdf].
  lights_ext_tac Hself Hpdf Hrand.
Qed.

Lemma ray_color_1_lights lights3 n : forall r depth s,
  unfold_n (fun self r' depth' => ray_color_1_body cam self r' depth' world1 lights1)
           (fun _ _ => ret black) n r depth s
  = unfold_n (fun self r' depth' => ray_color_1_body cam self r' depth' world2 lights3)
           (fun _ _ => ret black) n r depth s.
Proof.
  induction n as [|n IH]; intros r depth s; [reflexivity|]. cbn [unfold_n].
  unfold ray_color_1_body, bind, ret.
  destruct (depth <=? 0)%Z eqn:Hd; [reflexivity|]. rewrite Hhit.
  repeat first [ reflexivity | rewrite IH | break_match ].
Qed.

Lemma ray_color_2_lights n : forall r depth s,
  unfold_n (fun self r' depth' => ray_color_2_body cam self r' depth' world1 lights1)
           (fun _ _ => ret black) n r depth s
  = unfold_n (fun self r' depth' => ray_color_2_body cam self r' depth' world2 lights2)
           (fun _ _ => ret black) n r depth s.
Proof.
  induction n as [|n IH]; intros r depth s; [reflexivity|]. cbn [unfold_n].
  apply ray_color_2_body_lights. intros r' s' _. apply IH.
Qed.

Lemma ray_color_3_lights n : forall m r depth b s,
  (Z.to_nat depth < n)%nat -> (Z.to_nat depth < m)%nat ->
  unfold_n (fun self r' depth' w' => ray_color_3_body cam self r' depth' world1 lights1 w')
           (fun _ _ _ => ret black) n r depth b s
  = unfold_n (fun self r' depth' w' => ray_color_3_body cam self r' depth' world2 lights2 w')
           (fun _ _ _ => ret black) m r depth b s.
Proof.
  induction n as [|n IH]; intros m r depth b s Hn Hm; [lia|].
  destruct m as [|m]; [lia|]. cbn [unfold_n].
  apply ray_color_3_body_lights.
  intros d' r' b' s' Hd [-> | ->]; apply IH; lia.
Qed.

Lemma ray_color_4_lights n : forall m r depth w s,
  (Z.to_nat depth < n)%nat -> (Z.to_nat depth < m)%nat ->
  unfold_n (fun self r' depth' w' => ray_color_4_body cam self r' depth' world1 lights1 w')
           (fun _ _ _ => ret black) n r depth w s
  = unfold_n (fun self r' depth' w' => ray_color_4_body cam self r' depth' world2 lights2 w')
           (fun _ _ _ => ret black) m r depth w s.
Proof.
  induction n as [|n IH]; intros m r depth w s Hn Hm; [lia|].
  destruct m as [|m]; [lia|]. cbn [unfold_n].
  apply ray_color_4_body_lights.
  intros d' r' w' s' Hd [-> | ->]; apply IH; lia.
Qed.

End EstimatorLights.

(** X15.  The estimators use [lights] only through [pdf_value] and
    [random], and never call [hit] on it; variant 1 does not use [lights]
    at all.  Two light lists that agree on [pdf_value] and [random] give
    the same radiance in variants 2, 3 and 4, and any two light lists do
    in variant 1. *)
Theorem lights_are_only_sampled `{Libm} `{Materials} (cam : camera)
  (world lights lights2 : hittable) :
  (forall o d, pdf_value lights o d = pdf_value lights2 o d) ->
  (forall o s, random lights o s = random lights2 o s) ->
  forall r depth s,
    (forall lights3,
       ray_color_1 cam r depth world lights s = ray_color_1 cam r depth world lights3 s)
    /\ ray_color_2 cam r depth world lights s = ray_color_2 cam r depth world lights2 s
    /\ (forall includeLe,
          ray_color_3 cam r depth world lights includeLe s
          = ray_color_3 cam r depth world lights2 includeLe s)
    /\ (forall Leweight,
          ray_color_4 cam r depth world lights Leweight s
          = ray_color_4 cam r depth world lights2 Leweight s).
Proof.
  intros Hpdf Hrand r depth s.
  pose proof (same_hits_refl world) as Hhit.
  split; [|split; [|split]].
  - intros lights3. unfold ray_color_1. apply ray_color_1_lights. exact Hhit.
  - unfold ray_color_2. apply ray_color_2_lights; assumption.
  - intros includeLe. unfold ray_color_3. apply ray_color_3_lights; try assumption; lia.
  - intros Leweight. unfold ray_color_4. apply ray_color_4_lights; try assumption; lia.
Qed.

Section EstimatorPaths.

Context `{Libm} `{Materials}.
Variable cam : camera.
Variables world lights : hittable.

(** X16.  On a hit whose material scatters without a density
    ([skip_pdf]), every variant returns the attenuation times the
    radiance along [skip_pdf_ray] at [depth - 1]: the emission of the
    surface hit is dropped, no direction is sampled, and the recursive
    call counts the emission in full ([includeLe = true] in variant 3,
    [Leweight = 1.0] in variant 4) whatever the caller passed. *)
Theorem specular_bounce r depth s rec s1 srec s2 :
  (0 < depth)%Z ->
  hit world r (mkinterval 0.001 infinity) s = (Some rec, s1) ->
  scatter (deref (rec_mat rec)) r rec s1 = (Some srec, s2) ->
  skip_pdf srec = true ->
  ray_color_1 cam r depth world lights s
  = (let (c, s3) := ray_color_1 cam (skip_pdf_ray srec) (depth - 1) world lights s2 in
     ((attenuation srec * c)%vec, s3))
  /\ ray_color_2 cam r depth world lights s
     = (let (c, s3) := ray_color_2 cam (skip_pdf_ray srec) (depth - 1) world lights s2 in
        ((attenuation srec * c)%vec, s3))
  /\ (forall includeLe,
        ray_color_3 cam r depth world lights includeLe s
        = (let (c, s3) :=
             ray_color_3 cam (skip_pdf_ray srec) (depth - 1) world lights true s2 in
           ((attenuation srec * c)%vec, s3)))
  /\ (forall Leweight,
        ray_color_4 cam r depth world lights Leweight s
        = (let (c, s3) :=
             ray_color_4 cam (skip_pdf_ray srec) (depth - 1) world lights 1.0 s2 in
           ((attenuation srec * c)%vec, s3))).
Proof.
  intros Hd Hhit Hsc Hskip. apply Z.leb_gt in Hd. split; [|split; [|split]].
  - rewrite ray_color_1_eq. unfold ray_color_1_body at 1, bind, ret.
    rewrite Hd, Hhit, Hsc, Hskip. reflexivity.
  - rewrite ray_color_2_eq. unfold ray_color_2_body at 1, bind, ret.
    rewrite Hd, Hhit, Hsc, Hskip. reflexivity.
  - intros includeLe. rewrite ray_color_3_eq. unfold ray_color_3_body at 1, bind, ret.
    rewrite Hhit, Hd. cbv zeta. rewrite Hsc, Hskip. reflexivity.
  - intros Leweight. rewrite ray_color_4_eq. unfold ray_color_4_body at 1, bind, ret.
    rewrite Hhit, Hd. cbv zeta. rewrite Hsc, Hskip. reflexivity.
Qed.

(** X17.  On a hit whose material does not scatter (a light, say), the
    path ends at any depth above zero: variants 1 and 2 return the
    emission, variant 3 the emission when [includeLe] holds and black
    otherwise, variant 4 the emission times [Leweight]; the light list is
    not sampled. *)
Theorem absorbing_surface_ends_path r depth s rec s1 s2 :
  (0 < depth)%Z ->
  hit world r (mkinterval 0.001 infinity) s = (Some rec, s1) ->
  scatter (deref (rec_mat rec)) r rec s1 = (None, s2) ->
  ray_color_1 cam r depth world lights s = (emission r rec, s2)
  /\ ray_color_2 cam r depth world lights s = (emission r rec, s2)
  /\ (forall includeLe : bool,
        ray_color_3 cam r depth world lights includeLe s
        = (if includeLe then emission r rec else mkvec3 0 0 0, s2))
  /\ (forall Leweight,
        ray_color_4 cam r depth world lights Leweight s
        = ((Leweight *: emission r rec)%vec, s2)).
Proof.
  intros Hd Hhit Hsc. apply Z.leb_gt in Hd. split; [|split; [|split]].
  - rewrite ray_color_1_eq. unfold ray_color_1_body, bind, ret.
    rewrite Hd, Hhit, Hsc. reflexivity.
  - rewrite ray_color_2_eq. unfold ray_color_2_body, bind, ret.
    rewrite Hd, Hhit, Hsc. reflexivity.
  - intros includeLe. rewrite ray_color_3_eq. unfold ray_color_3_body, bind, ret.
    rewrite Hhit, Hd. cbv zeta. rewrite Hsc. reflexivity.
  - intros Leweight. rewrite ray_color_4_eq. unfold ray_color_4_body, bind, ret.
    rewrite Hhit, Hd. cbv zeta. rewrite Hsc. reflexivity.
Qed.

(** X18.  In [ray_color_3], on a hit whose material scatters with a
    density, the radiance is the emission term plus a direct and an
    indirect term.  The direct term traces the light-sampled direction at
    depth 0 with the emission counted, so that it is the emission of the
    vertex reached; the indirect term traces the material-sampled
    direction at [depth - 1] with the emission left out, so that a path
    that ends at the vertex reached contributes black. *)
Theorem next_event_estimation r depth (includeLe : bool) s rec s1 srec s2
  light_dir s3 direct s4 dir s5 indirect s6 :
  let mat := deref (rec_mat rec) in
  let light_ray := mkray (rec_p rec) light_dir (time r) in
  let bsdf_ray := mkray (rec_p rec) dir (time r) in
  (0 < depth)%Z ->
  hit world r (mkinterval 0.001 infinity) s = (Some rec, s1) ->
  scatter mat r rec s1 = (Some srec, s2) ->
  skip_pdf srec = false ->
  random lights (rec_p rec) s2 = (light_dir, s3) ->
  ray_color_3 cam light_ray 0 world lights true s3 = (direct, s4) ->
  generate (pdf_ptr srec) s4 = (dir, s5) ->
  ray_color_3 cam bsdf_ray (depth - 1) world lights false s5 = (indirect, s6) ->
  let Le := if includeLe then emission r rec else mkvec3 0 0 0 in
  let Ldir :=
    ((attenuation srec :* scattering_pdf mat r rec light_ray) * direct
     /: pdf_value lights (rec_p rec) light_dir)%vec in
  let Lind :=
    ((attenuation srec :* scattering_pdf mat r rec bsdf_ray) * indirect
     /: value (pdf_ptr srec) dir)%vec in
  ray_color_3 cam r depth world lights includeLe s = ((Le + Ldir + Lind)%vec, s6)
  /\ (forall rec' s4',
        hit world light_ray (mkinterval 0.001 infinity) s3 = (Some rec', s4') ->
        direct = emission light_ray rec' /\ s4 = s4')
  /\ (forall s4',
        hit world light_ray (mkinterval 0.001 infinity) s3 = (None, s4') ->
        direct = background cam /\ s4 = s4')
  /\ (forall rec' s6',
        hit world bsdf_ray (mkinterval 0.001 infinity) s5 = (Some rec', s6') ->
        (depth - 1 <= 0)%Z
        \/ scatter (deref (rec_mat rec')) bsdf_ray rec' s6' = (None, s6) ->
        indirect = mkvec3 0 0 0).
Proof.
  intros mat light_ray bsdf_ray Hd Hhit Hsc Hskip Hgl Hdirect Hgb Hindirect Le Ldir Lind.
  subst mat light_ray bsdf_ray Le Ldir Lind.
  split; [|split; [|split]].
  - rewrite ray_color_3_eq. unfold ray_color_3_body at 1, bind, ret.
    apply Z.leb_gt in Hd. rewrite Hhit, Hd. cbv zeta.
    rewrite Hsc, Hskip. cbn [generate value hittable_pdf]. rewrite Hgl. cbn [direction].
    rewrite Hdirect, Hgb. cbn [direction]. rewrite Hindirect. reflexivity.
  - intros rec' s4' Hhit'. rewrite ray_color_3_eq in Hdirect.
    unfold ray_color_3_body, bind, ret in Hdirect. rewrite Hhit' in Hdirect.
    cbn in Hdirect. injection Hdirect as <- <-. split; reflexivity.
  - intros s4' Hhit'. rewrite ray_color_3_eq in Hdirect.
    unfold ray_color_3_body, bind, ret in Hdirect. rewrite Hhit' in Hdirect.
    injection Hdirect as <- <-. split; reflexivity.
  - intros rec' s6' Hhit' Hend. rewrite ray_color_3_eq in Hindirect.
    unfold ray_color_3_body at 1, bind, ret in Hindirect. rewrite Hhit' in Hindirect.
    destruct Hend as [Hend | Hend].
    + apply Z.leb_le in Hend. rewrite Hend in Hindirect.
      apply (f_equal fst) in Hindirect. symmetry. exact Hindirect.
    + destruct (depth - 1 <=? 0)%Z.
      * apply (f_equal fst) in Hindirect. symmetry. exact Hindirect.
      * rewrite Hend in Hindirect. apply (f_equal fst) in Hindirect. symmetry. exact Hindirect.
Qed.

(** X19.  On a hit whose material scatters with a density, variants 1
    and 2 add to the emission one sample of the scattered radiance,
    [attenuation * scattering_pdf * radiance / density].  Variant 1 draws
    the direction from the material's density and divides by it; variant
    2 picks the light list or the material's density on one draw below or
    not below [0.5], and divides by the average of the two densities at
    the direction drawn. *)
Theorem scattered_radiance_sample r depth s rec s1 srec s2 :
  let mat := deref (rec_mat rec) in
  (0 < depth)%Z ->
  hit world r (mkinterval 0.001 infinity) s = (Some rec, s1) ->
  scatter mat r rec s1 = (Some srec, s2) ->
  skip_pdf srec = false ->
  (forall dir s3 sample s4,
     generate (pdf_ptr srec) s2 = (dir, s3) ->
     (length_squared dir <? 0.0001) = false ->
     ray_color_1 cam (mkray (rec_p rec) dir (time r)) (depth - 1) world lights s3
     = (sample, s4) ->
     ray_color_1 cam r depth world lights s
     = ((emission r rec
         + (attenuation srec
              :* scattering_pdf mat r rec (mkray (rec_p rec) dir (time r))
            * sample)
           /: value (pdf_ptr srec) dir)%vec, s4))
  /\ (forall dir s3 sample s4,
        (if s2 0%nat <? 0.5
         then random lights (rec_p rec) (after_draws 1 s2)
         else generate (pdf_ptr srec) (after_draws 1 s2)) = (dir, s3) ->
        ray_color_2 cam (mkray (rec_p rec) dir (time r)) (depth - 1) world lights s3
        = (sample, s4) ->
        ray_color_2 cam r depth world lights s
        = ((emission r rec
            + (attenuation srec
                 :* scattering_pdf mat r rec (mkray (rec_p rec) dir (time r))
               * sample)
              /: (0.5 * pdf_value lights (rec_p rec) dir
                  + 0.5 * value (pdf_ptr srec) dir)%float)%vec, s4)).
Proof.
  intros mat Hd Hhit Hsc Hskip. subst mat. apply Z.leb_gt in Hd. split.
  - intros dir s3 sample s4 Hgen Hlen Hsample.
    rewrite ray_color_1_eq. unfold ray_color_1_body at 1, bind, ret.
    rewrite Hd, Hhit, Hsc, Hskip, Hgen, Hlen. cbn [direction]. rewrite Hsample.
    reflexivity.
  - intros dir s3 sample s4 Hgen Hsample.
    rewrite ray_color_2_eq. unfold ray_color_2_body at 1, bind, ret.
    rewrite Hd, Hhit, Hsc, Hskip.
    cbn [generate value mixture_pdf hittable_pdf direction].
    unfold bind, ret, random_double. cbn [after_draws] in Hgen.
    destruct (s2 0%nat <? 0.5); rewrite Hgen, Hsample; reflexivity.
Qed.

End EstimatorPaths.

(** ** The constant medium *)

Section ConstantMedium.

Context `{Logarithm}.
Variable cm : constant_medium.
Variable r : ray.
Variable ray_t : interval.
Variable rec : hit_record.

(** X20.  When [constant_medium::hit] reports a hit, the boundary was hit
    twice along the ray (on the whole line, then beyond the first hit),
    and the record carries the phase function as its material, the
    normal [(1,0,0)], [front_face = true] and the point of the ray at
    [rec.t]; the fields [u] and [v] are the caller's, untouched. *)
Theorem constant_medium_hit_record s rec' s' :
  constant_medium_hit cm r ray_t rec s = (Some rec', s') ->
  rec_mat rec' = phase_function cm
  /\ rec_normal rec' = mkvec3 1 0 0
  /\ rec_front_face rec' = true
  /\ rec_p rec' = ray_at r (rec_t rec')
  /\ rec_u rec' = rec_u rec
  /\ rec_v rec' = rec_v rec
  /\ exists rec1 s1 rec2 s2,
       hit (boundary cm) r universe s = (Some rec1, s1)
       /\ hit (boundary cm) r (mkinterval (rec_t rec1 + 0.0001) infinity) s1
          = (Some rec2, s2)
       /\ s' = after_draws 1 s2.
Proof.
  unfold constant_medium_hit, bind, ret, random_double.
  destruct (hit (boundary cm) r universe s) as [[rec1|] s1] eqn:H1; [|discriminate].
  destruct (hit (boundary cm) r _ s1) as [[rec2|] s2] eqn:H2; [|discriminate].
  destruct (_ <=? _); [discriminate|].
  destruct (_ <? neg_inv_density cm * _); [discriminate|].
  intros [= <- <-]. cbn.
  do 6 (split; [reflexivity|]).
  exists rec1, s1, rec2, s2. split; [reflexivity|]. split; [exact H2 | reflexivity].
Qed.

(** X21.  [constant_medium::hit] draws a random number only when the
    boundary is hit twice and the part of the ray inside it, clamped to
    [ray_t], is not empty, and then it draws exactly one, whether or not
    it reports a hit; in the other cases it reports a miss without
    drawing. *)
Theorem constant_medium_hit_draws s :
  (forall s1, hit (boundary cm) r universe s = (None, s1) ->
     constant_medium_hit cm r ray_t rec s = (None, s1))
  /\ (forall rec1 s1 s2,
        hit (boundary cm) r universe s = (Some rec1, s1) ->
        hit (boundary cm) r (mkinterval (rec_t rec1 + 0.0001) infinity) s1 = (None, s2) ->
        constant_medium_hit cm r ray_t rec s = (None, s2))
  /\ (forall rec1 s1 rec2 s2,
        hit (boundary cm) r universe s = (Some rec1, s1) ->
        hit (boundary cm) r (mkinterval (rec_t rec1 + 0.0001) infinity) s1
        = (Some rec2, s2) ->
        let t1 := if rec_t rec1 <? imin ray_t then imin ray_t else rec_t rec1 in
        let t2 := if imax ray_t <? rec_t rec2 then imax ray_t else rec_t rec2 in
        if t2 <=? t1
        then constant_medium_hit cm r ray_t rec s = (None, s2)
        else snd (constant_medium_hit cm r ray_t rec s) = after_draws 1 s2).
Proof.
  split; [|split].
  - intros s1 H1. unfold constant_medium_hit, bind, ret. rewrite H1. reflexivity.
  - intros rec1 s1 s2 H1 H2. unfold constant_medium_hit, bind, ret.
    rewrite H1, H2. reflexivity.
  - intros rec1 s1 rec2 s2 H1 H2 t1 t2. subst t1 t2.
    unfold constant_medium_hit, bind, ret, random_double. rewrite H1, H2.
    destruct (_ <=? _); [reflexivity|].
    destruct (_ <? neg_inv_density cm * _); reflexivity.
Qed.

End ConstantMedium.

(** X22.  A medium of density zero is transparent: when the logarithm of
    the number drawn is below zero and the distance inside the boundary
    is finite, [constant_medium::hit] reports a miss, since the distance
    to the scattering event is [infinity]. *)
Theorem zero_density_medium_is_transparent `{Logarithm}
  (b : hittable) (pf : mat_ptr) (r : ray) (ray_t : interval) (rec : hit_record)
  (s : rng) rec1 s1 rec2 s2 :
  let cm := constant_medium_new b 0 pf in
  let t1 := if rec_t rec1 <? imin ray_t then imin ray_t else rec_t rec1 in
  let t2 := if imax ray_t <? rec_t rec2 then imax ray_t else rec_t rec2 in
  let t1' := if t1 <? 0 then 0 else t1 in
  hit b r universe s = (Some rec1, s1) ->
  hit b r (mkinterval (rec_t rec1 + 0.0001) infinity) s1 = (Some rec2, s2) ->
  (std_log (s2 0%nat) <? 0) = true ->
  is_finite ((t2 - t1') * length (direction r)) = true ->
  neg_inv_density cm = neg_infinity
  /\ constant_medium_hit cm r ray_t rec s
     = (None, if t2 <=? t1 then s2 else after_draws 1 s2).
Proof.
  intros cm t1 t2 t1' H1 H2 Hlog Hfin. split; [reflexivity|].
  unfold constant_medium_hit, bind, ret, random_double.
  change (boundary cm) with b. rewrite H1, H2. fold t1 t2.
  destruct (t2 <=? t1); [reflexivity|]. fold t1'.
  change (neg_inv_density cm) with neg_infinity.
  rewrite (@neg_infinity_mul_negative _ Hlog), (@finite_below_infinity _ Hfin).
  reflexivity.
Qed.

(** ** The loop of [phong_pdf::generate] and the sample grid *)

Lemma phong_pdf_candidate_draws `{Libm} `{Externals} (ph : phong_pdf) (s : rng) :
  snd (phong_pdf_candidate ph s) = after_draws 2 s.
Proof. reflexivity. Qed.

Lemma after_draws_constant (n : nat) (c : double) :
  after_draws n (constant_tape c) = constant_tape c.
Proof. induction n as [|n IH]; [reflexivity | exact IH]. Qed.

(** X24.  The loop of [phong_pdf::generate] runs until a candidate lies
    on the side of the normal: while every candidate is rejected it is
    still running, and it returns the first candidate that is accepted,
    in the turn that draws it. *)
Theorem phong_pdf_generate_runs_until_accepted `{Libm} `{Externals}
  (ph : phong_pdf) (s : rng) :
  let accepted j :=
    0 <? dot (fst (phong_pdf_candidate ph (after_draws (2 * j) s))) (ph_n ph) in
  (forall fuel,
     (forall j, (j < fuel)%nat -> accepted j = false) ->
     phong_pdf_generate fuel ph s = None)
  /\ (forall turns fuel,
        (forall j, (j < turns)%nat -> accepted j = false) ->
        accepted turns = true ->
        (turns < fuel)%nat ->
        phong_pdf_generate fuel ph s
        = Some (phong_pdf_candidate ph (after_draws (2 * turns) s))).
Proof.
  cbv zeta. split.
  - intros fuel. revert s. induction fuel as [|fuel IH]; intros s Hrej;
      cbn [phong_pdf_generate]; [reflexivity|].
    pose proof (Hrej 0%nat ltac:(lia)) as Hfirst.
    change (after_draws (2 * 0) s) with s in Hfirst.
    pose proof (phong_pdf_candidate_draws ph s) as Hs1.
    destruct (phong_pdf_candidate ph s) as [d s1]. cbn [fst snd] in Hfirst, Hs1.
    rewrite Hfirst. subst s1. apply IH. intros j Hj.
    rewrite <- after_draws_add. replace (2 + 2 * j)%nat with (2 * S j)%nat by lia.
    apply Hrej. lia.
  - intros turns. revert s. induction turns as [|turns IH]; intros s fuel Hrej Hacc Hfuel;
      (destruct fuel as [|fuel]; [lia|]); cbn [phong_pdf_generate].
    + change (after_draws (2 * 0) s) with s in *.
      destruct (phong_pdf_candidate ph s) as [d s1]. cbn [fst] in Hacc.
      rewrite Hacc. reflexivity.
    + pose proof (Hrej 0%nat ltac:(lia)) as Hfirst.
      change (after_draws (2 * 0) s) with s in Hfirst.
      pose proof (phong_pdf_candidate_draws ph s) as Hs1.
      destruct (phong_pdf_candidate ph s) as [d s1]. cbn [fst snd] in Hfirst, Hs1.
      rewrite Hfirst. subst s1.
      replace (2 * S turns)%nat with (2 + 2 * turns)%nat in * by lia.
      rewrite after_draws_add in *. apply IH; [|exact Hacc|lia].
      intros j Hj. rewrite <- after_draws_add.
      replace (2 + 2 * j)%nat with (2 * S j)%nat by lia. apply Hrej. lia.
Qed.

Lemma counter_values_In (n k : Z) : (0 <= k < n)%Z -> In k (counter_values n).
Proof.
  intros Hk. unfold counter_values. apply in_map_iff.
  exists (Z.to_nat k). split; [lia|]. apply in_seq. lia.
Qed.

(** X25.  For a sample count up to 4096, [sqrt_spp] is the integer square
    root of [samples_per_pixel]: the grid has the largest side [s] with
    [s * s <= samples_per_pixel]. *)
Theorem sqrt_spp_is_integer_square_root `{Libm} (cam : camera) (fr : camera_frame) :
  initialize cam = Some fr ->
  (0 <= samples_per_pixel cam <= 4096)%Z ->
  sqrt_spp fr = Z.sqrt (samples_per_pixel cam)
  /\ (sqrt_spp fr * sqrt_spp fr <= samples_per_pixel cam
      < (sqrt_spp fr + 1) * (sqrt_spp fr + 1))%Z.
Proof.
  intros Hinit Hrange. destruct (@initialize_samples _ cam fr Hinit) as [Hs _].
  pose proof int_sqrt_up_to_4096 as Hall. rewrite forallb_forall in Hall.
  specialize (Hall (samples_per_pixel cam) ltac:(apply counter_values_In; lia)).
  rewrite Hs in Hall. apply Z.eqb_eq in Hall.
  split; [exact Hall|]. rewrite Hall.
  pose proof (Z.sqrt_spec (samples_per_pixel cam) ltac:(lia)) as Hsqrt.
  unfold Z.succ in Hsqrt. exact Hsqrt.
Qed.

(** ** The further theorems on the concrete scene *)

(** [hittable_list_hit_same_min] on the room and the curtained room,
    which differ on the interval [(0, 0.5)]. *)
Lemma hittable_list_hit_same_min_witness :
  hit (room matt_ptr) ray_down (mkinterval 0 0.5) (constant_tape 0.5)
  <> hit (curtained_room matt_ptr) ray_down (mkinterval 0 0.5) (constant_tape 0.5)
  /\ hittable_list_hit [room matt_ptr] ray_down (mkinterval 0.001 5) (constant_tape 0.5)
     = hittable_list_hit [curtained_room matt_ptr] ray_down (mkinterval 0.001 5)
         (constant_tape 0.5).
Proof.
  split; [intros Heq; vm_compute in Heq; discriminate|].
  apply (@hittable_list_hit_same_min [room matt_ptr] [curtained_room matt_ptr] 0.001).
  constructor; [intros r t_max s; reflexivity | constructor].
Defined.

(** [hittable_list_hit_sound] on a list that holds the room: the floor
    record is the room's, and a level ray, which no member hits, is
    missed. *)
Lemma hittable_list_hit_sound_witness :
  (exists object t_max s1 s2,
     In object [empty_world; room matt_ptr]
     /\ hit object ray_down (mkinterval 0.001 t_max) s1 = (Some (floor_hit matt_ptr), s2))
  /\ fst (hittable_list_hit [empty_world; room matt_ptr] ray_level
            (mkinterval 0.001 infinity) (constant_tape 0.5)) = None.
Proof.
  split.
  - exact (proj1 (@hittable_list_hit_sound [empty_world; room matt_ptr] ray_down
                    (mkinterval 0.001 infinity) (constant_tape 0.5))
             (floor_hit matt_ptr) (constant_tape 0.5) eq_refl).
  - apply (proj2 (@hittable_list_hit_sound [empty_world; room matt_ptr] ray_level
                    (mkinterval 0.001 infinity) (constant_tape 0.5))).
    intros object t_max s1 [<- | [<- | []]]; [reflexivity|].
    cbn. destruct (1 <? t_max); reflexivity.
Defined.

(** [hittable_list_of_one] on the list that holds the lamp. *)
Lemma hittable_list_of_one_witness :
  hittable_list_pdf_value [lamp] (mkvec3 0 0 0) up = 0.25
  /\ hittable_list_random [lamp] (mkvec3 0 0 0) (constant_tape 0.5)
     = (Some up, constant_tape 0.5).
Proof.
  destruct (@hittable_list_of_one height_boxes plain_externals lamp (mkvec3 0 0 0))
    as (_ & _ & Hpdf & Hrand).
  split.
  - apply (Hpdf up). intros Heq. apply (f_equal Prim2SF) in Heq.
    vm_compute in Heq. discriminate.
  - exact (Hrand (constant_tape 0.5) (constant_tape 0.5) eq_refl).
Defined.

(** [hittable_list_pdf_value_zero] on a list of two members without a
    density. *)
Lemma hittable_list_pdf_value_zero_witness :
  hittable_list_pdf_value [room matt_ptr; empty_world] (mkvec3 0 0 0) up = 0.
Proof.
  apply hittable_list_pdf_value_zero.
  - intros Hgt. vm_compute in Hgt. discriminate.
  - repeat constructor.
Defined.

(** [phong_pdf_new_alpha] on an exponent above the range, on NaN and on
    an exponent inside the range. *)
Lemma phong_pdf_new_alpha_witness :
  ((0.1 <=? ph_alpha (phong_pdf_new up 5000 down)) = true
   /\ (ph_alpha (phong_pdf_new up 5000 down) <=? 1000) = true)
  /\ ph_alpha (phong_pdf_new up nan down) = nan
  /\ ph_alpha (phong_pdf_new up 30 down) = 30.
Proof.
  split; [|split].
  - exact (proj1 (@phong_pdf_new_alpha plain_externals up 5000 down) eq_refl).
  - exact (proj1 (proj2 (@phong_pdf_new_alpha plain_externals up nan down)) eq_refl).
  - exact (proj2 (proj2 (@phong_pdf_new_alpha plain_externals up 30 down))
             eq_refl eq_refl).
Defined.

(** [phong_pdf_generate_draws] on a lobe whose first candidate is
    rejected and whose second is returned. *)
Lemma phong_pdf_generate_draws_witness :
  exists direction s' turns,
    phong_pdf_generate 2 (phong_pdf_new up 30 slanted) stepped_tape
    = Some (direction, s')
    /\ (turns < 2)%nat
    /\ phong_pdf_candidate (phong_pdf_new up 30 slanted)
         (after_draws (2 * turns) stepped_tape) = (direction, s')
    /\ s' = after_draws (2 * (turns + 1)) stepped_tape.
Proof.
  destruct (phong_pdf_generate 2 (phong_pdf_new up 30 slanted) stepped_tape)
    as [[direction s']|] eqn:Hgen; [|vm_compute in Hgen; discriminate].
  destruct (@phong_pdf_generate_draws crude_libm plain_externals 2
              (phong_pdf_new up 30 slanted) stepped_tape direction s' Hgen)
    as (turns & Hlt & Hcand & Hs' & _).
  exists direction, s', turns.
  split; [reflexivity|]. split; [exact Hlt|]. split; [exact Hcand | exact Hs'].
Defined.

(** [render_image_dimensions] on the camera of [main.cc] with its 2 x 2
    image. *)
Lemma render_image_dimensions_witness :
  exists fr,
    initialize main_camera = Some fr
    /\ image_height fr = 2%Z
    /\ List.length (fst (render_image main_camera fr (room matt_ptr) lamp
                           (constant_tape 0.5))) = 2%nat
    /\ Forall (fun row => List.length row = 2%nat)
              (fst (render_image main_camera fr (room matt_ptr) lamp (constant_tape 0.5))).
Proof.
  destruct (initialize main_camera) as [fr|] eqn:Hinit;
    [|vm_compute in Hinit; discriminate].
  exists fr.
  destruct (@render_image_dimensions crude_libm plain_externals scene_materials
              main_camera fr (room matt_ptr) lamp (constant_tape 0.5)
              ltac:(vm_compute; intros Hgt; discriminate) Hinit)
    as ((h0 & Hh0 & Hh) & Hrows & _ & Hcols).
  assert (Htwo : image_height fr = 2%Z).
  { vm_compute in Hh0. injection Hh0 as <-. exact Hh. }
  rewrite Htwo in Hrows.
  split; [reflexivity|]. split; [exact Htwo|]. split; [exact Hrows | exact Hcols].
Defined.

(** [initialize_undefined] on an aspect ratio of zero and on a sample
    count of [-1]. *)
Lemma initialize_undefined_witness :
  initialize (camera_with 0 10) = None /\ initialize (camera_with 1 (-1)) = None.
Proof.
  split.
  - exact (proj1 (@initialize_undefined crude_libm (camera_with 0 10)) eq_refl).
  - apply (proj2 (@initialize_undefined crude_libm (camera_with 1 (-1)))).
    vm_compute. split; [intros Hgt; discriminate | reflexivity].
Defined.

(** [zero_samples_give_nan] on the default camera with no samples. *)
Lemma zero_samples_give_nan_witness :
  exists fr,
    initialize (camera_with 1 0) = Some fr
    /\ render_pixel (camera_with 1 0) fr (room matt_ptr) lamp 0 0 (constant_tape 0.5)
       = (mkvec3 nan nan nan, constant_tape 0.5).
Proof.
  destruct (initialize (camera_with 1 0)) as [fr|] eqn:Hinit;
    [|vm_compute in Hinit; discriminate].
  exists fr. split; [reflexivity|].
  exact (proj2 (proj2 (@zero_samples_give_nan crude_libm plain_externals scene_materials
                         (camera_with 1 0) fr (room matt_ptr) lamp 0%Z 0%Z
                         (constant_tape 0.5) Hinit eq_refl))).
Defined.

(** [unhit_world_renders_black] on the empty world. *)
Lemma unhit_world_renders_black_witness :
  exists fr,
    initialize (camera_with 1 10) = Some fr
    /\ sqrt_spp fr = 3%Z
    /\ fst (render_pixel (camera_with 1 10) fr empty_world lamp 0 0 (constant_tape 0.5))
       = mkvec3 0 0 0.
Proof.
  destruct (initialize (camera_with 1 10)) as [fr|] eqn:Hinit;
    [|vm_compute in Hinit; discriminate].
  exists fr.
  assert (Hthree : sqrt_spp fr = 3%Z).
  { destruct (@initialize_samples crude_libm (camera_with 1 10) fr Hinit) as [Hs _].
    vm_compute in Hs. injection Hs as Hs. symmetry. exact Hs. }
  split; [reflexivity|]. split; [exact Hthree|].
  apply (@unhit_world_renders_black crude_libm plain_externals scene_materials
           (camera_with 1 10) fr empty_world lamp Hinit eq_refl).
  - rewrite Hthree. intros Hgt. discriminate.
  - intros r s. reflexivity.
Defined.

(** [get_ray_without_defocus] on the default camera: the ray starts at
    the origin and its time is the draw. *)
Lemma get_ray_without_defocus_witness :
  exists fr,
    initialize (default_camera white) = Some fr
    /\ origin (fst (get_ray (default_camera white) fr 0 0 0 0 (constant_tape 0.5)))
       = mkvec3 0 0 0
    /\ time (fst (get_ray (default_camera white) fr 0 0 0 0 (constant_tape 0.5))) = 0.5.
Proof.
  destruct (initialize (default_camera white)) as [fr|] eqn:Hinit;
    [|vm_compute in Hinit; discriminate].
  exists fr. split; [reflexivity|].
  rewrite (@get_ray_without_defocus crude_libm plain_externals (default_camera white) fr
             0%Z 0%Z 0%Z 0%Z (constant_tape 0.5) Hinit eq_refl).
  split; reflexivity.
Defined.

(** [lights_are_only_sampled] on the lamp and the solid lamp, which
    differ in [hit]. *)
Lemma lights_are_only_sampled_witness :
  hit lamp ray_up (mkinterval 0.001 infinity) (constant_tape 0.5)
  <> hit solid_lamp ray_up (mkinterval 0.001 infinity) (constant_tape 0.5)
  /\ ray_color_1 (default_camera white) ray_down 3 (room matt_ptr) lamp (constant_tape 0.5)
     = ray_color_1 (default_camera white) ray_down 3 (room matt_ptr) empty_world
         (constant_tape 0.5)
  /\ ray_color_4 (default_camera white) ray_down 3 (room matt_ptr) lamp 1 (constant_tape 0.5)
     = ray_color_4 (default_camera white) ray_down 3 (room matt_ptr) solid_lamp 1
         (constant_tape 0.5).
Proof.
  split; [intros Heq; vm_compute in Heq; discriminate|].
  destruct (@lights_are_only_sampled crude_libm scene_materials (default_camera white)
              (room matt_ptr) lamp solid_lamp
              ltac:(intros o d; reflexivity) ltac:(intros o s; reflexivity)
              ray_down 3%Z (constant_tape 0.5)) as (H1 & _ & _ & H4).
  split; [apply H1 | apply H4].
Defined.

(** [specular_bounce] on the room with the mirror floor: the ray goes on
    upwards from the floor. *)
Lemma specular_bounce_witness :
  ray_color_3 (default_camera white) ray_down 1 (room mirror_ptr) lamp false
    (constant_tape 0.5)
  = (let (c, s3) :=
       ray_color_3 (default_camera white) (mkray (mkvec3 0 0 0) up 0) 0
         (room mirror_ptr) lamp true (constant_tape 0.5) in
     ((white * c)%vec, s3))
  /\ ray_color_3 (default_camera white) ray_down 1 (room mirror_ptr) lamp false
       (constant_tape 0.5)
     = (mkvec3 15 15 15, constant_tape 0.5).
Proof.
  destruct (@specular_bounce crude_libm scene_materials (default_camera white)
              (room mirror_ptr) lamp ray_down 1%Z (constant_tape 0.5)
              (floor_hit mirror_ptr) (constant_tape 0.5)
              (mkscatter_record white (fixed_pdf 0 up) true (mkray (mkvec3 0 0 0) up 0))
              (constant_tape 0.5) eq_refl eq_refl eq_refl eq_refl)
    as (_ & _ & H3 & _).
  split; [exact (H3 false)|]. rewrite (H3 false). reflexivity.
Defined.

(** [absorbing_surface_ends_path] on a ray that reaches the lamp. *)
Lemma absorbing_surface_ends_path_witness :
  ray_color_1 (default_camera white) ray_up 5 (room matt_ptr) lamp (constant_tape 0.5)
  = (mkvec3 15 15 15, constant_tape 0.5)
  /\ ray_color_3 (default_camera white) ray_up 5 (room matt_ptr) lamp false
       (constant_tape 0.5)
     = (mkvec3 0 0 0, constant_tape 0.5).
Proof.
  destruct (@absorbing_surface_ends_path crude_libm scene_materials (default_camera white)
              (room matt_ptr) lamp ray_up 5%Z (constant_tape 0.5)
              lamp_hit (constant_tape 0.5) (constant_tape 0.5) eq_refl eq_refl eq_refl)
    as (H1 & _ & H3 & _).
  split; [exact H1 | exact (H3 false)].
Defined.

(** [next_event_estimation] on the room with the matt floor: the direct
    term picks up the lamp, the indirect term leaves it out. *)
Lemma next_event_estimation_witness :
  ray_color_3 (default_camera white) ray_down 1 (room matt_ptr) lamp true
    (constant_tape 0.5)
  = (((mkvec3 0 0 0
       + (grey :* 0.25) * mkvec3 15 15 15 /: 0.25
       + (grey :* 0.25) * mkvec3 0 0 0 /: 0.5)%vec), constant_tape 0.5).
Proof.
  refine (proj1 (@next_event_estimation scene_materials
                   (default_camera white) (room matt_ptr) lamp
                   ray_down 1%Z true (constant_tape 0.5)
                   (floor_hit matt_ptr) (constant_tape 0.5)
                   matt_scatter (constant_tape 0.5)
                   up (constant_tape 0.5)
                   (mkvec3 15 15 15) (constant_tape 0.5)
                   up (constant_tape 0.5)
                   (mkvec3 0 0 0) (constant_tape 0.5)
                   _ _ _ _ _ _ _ _));
    reflexivity.
Defined.

(** [scattered_radiance_sample] on the room with the matt floor, at the
    last bounce. *)
Lemma scattered_radiance_sample_witness :
  ray_color_1 (default_camera white) ray_down 1 (room matt_ptr) lamp (constant_tape 0.5)
  = ((mkvec3 0 0 0 + (grey :* 0.25) * mkvec3 0 0 0 /: 0.5)%vec, constant_tape 0.5)
  /\ ray_color_2 (default_camera white) ray_down 1 (room matt_ptr) lamp (constant_tape 0.5)
     = ((mkvec3 0 0 0 + (grey :* 0.25) * mkvec3 0 0 0 /: (0.5 * 0.25 + 0.5 * 0.5)%float)%vec,
        constant_tape 0.5).
Proof.
  destruct (@scattered_radiance_sample scene_materials (default_camera white)
              (room matt_ptr) lamp ray_down 1%Z (constant_tape 0.5)
              (floor_hit matt_ptr) (constant_tape 0.5)
              matt_scatter (constant_tape 0.5) eq_refl eq_refl eq_refl eq_refl)
    as [H1 H2].
  split.
  - exact (H1 up (constant_tape 0.5) (mkvec3 0 0 0) (constant_tape 0.5)
             eq_refl eq_refl eq_refl).
  - exact (H2 up (constant_tape 0.5) (mkvec3 0 0 0) (constant_tape 0.5)
             eq_refl eq_refl).
Defined.

(** [constant_medium_hit_record] on the slab filled at density 2: the
    event is at [t = 1.25], and [u] and [v] are the caller's. *)
Lemma constant_medium_hit_record_witness :
  exists rec' s',
    constant_medium_hit (constant_medium_new slab 2 grazing_ptr) ray_down
      (mkinterval 0.001 infinity) stale_record (constant_tape 0.5) = (Some rec', s')
    /\ rec_t rec' = 1.25
    /\ rec_mat rec' = grazing_ptr
    /\ rec_normal rec' = mkvec3 1 0 0
    /\ rec_u rec' = 0.25
    /\ rec_v rec' = 0.75.
Proof.
  destruct (constant_medium_hit (constant_medium_new slab 2 grazing_ptr) ray_down
              (mkinterval 0.001 infinity) stale_record (constant_tape 0.5))
    as [[rec'|] s'] eqn:Hhit; [|vm_compute in Hhit; discriminate].
  exists rec', s'.
  destruct (@constant_medium_hit_record crude_log (constant_medium_new slab 2 grazing_ptr)
              ray_down (mkinterval 0.001 infinity) stale_record (constant_tape 0.5)
              rec' s' Hhit) as (Hmat & Hn & _ & _ & Hu & Hv & _).
  split; [reflexivity|].
  split; [vm_compute in Hhit; injection Hhit as <- _; reflexivity|].
  split; [exact Hmat|]. split; [exact Hn|]. split; [exact Hu | exact Hv].
Defined.

(** [constant_medium_hit_draws] on a boundary that is missed, on one
    that is entered and not left, on a query interval that ends before
    the slab, and on the slab. *)
Lemma constant_medium_hit_draws_witness :
  constant_medium_hit (constant_medium_new empty_world 2 grazing_ptr) ray_down
    (mkinterval 0.001 infinity) stale_record (constant_tape 0.5)
  = (None, constant_tape 0.5)
  /\ constant_medium_hit (constant_medium_new (room matt_ptr) 2 grazing_ptr) ray_down
       (mkinterval 0.001 infinity) stale_record (constant_tape 0.5)
     = (None, constant_tape 0.5)
  /\ constant_medium_hit (constant_medium_new slab 2 grazing_ptr) ray_down
       (mkinterval 0.001 0.5) stale_record (constant_tape 0.5)
     = (None, constant_tape 0.5)
  /\ snd (constant_medium_hit (constant_medium_new slab 2 grazing_ptr) ray_down
            (mkinterval 0.001 infinity) stale_record (constant_tape 0.5))
     = after_draws 1 (constant_tape 0.5).
Proof.
  split; [|split; [|split]].
  - exact (proj1 (@constant_medium_hit_draws crude_log
                    (constant_medium_new empty_world 2 grazing_ptr) ray_down
                    (mkinterval 0.001 infinity) stale_record (constant_tape 0.5))
             (constant_tape 0.5) eq_refl).
  - exact (proj1 (proj2 (@constant_medium_hit_draws crude_log
                           (constant_medium_new (room matt_ptr) 2 grazing_ptr) ray_down
                           (mkinterval 0.001 infinity) stale_record (constant_tape 0.5)))
             (floor_hit matt_ptr) (constant_tape 0.5) (constant_tape 0.5)
             eq_refl eq_refl).
  - exact (proj2 (proj2 (@constant_medium_hit_draws crude_log
                           (constant_medium_new slab 2 grazing_ptr) ray_down
                           (mkinterval 0.001 0.5) stale_record (constant_tape 0.5)))
             (slab_hit 1) (constant_tape 0.5) (slab_hit 2) (constant_tape 0.5)
             eq_refl eq_refl).
  - exact (proj2 (proj2 (@constant_medium_hit_draws crude_log
                           (constant_medium_new slab 2 grazing_ptr) ray_down
                           (mkinterval 0.001 infinity) stale_record (constant_tape 0.5)))
             (slab_hit 1) (constant_tape 0.5) (slab_hit 2) (constant_tape 0.5)
             eq_refl eq_refl).
Defined.

(** [zero_density_medium_is_transparent] on the slab. *)
Lemma zero_density_medium_is_transparent_witness :
  constant_medium_hit (constant_medium_new slab 0 grazing_ptr) ray_down
    (mkinterval 0.001 infinity) stale_record (constant_tape 0.5)
  = (None, after_draws 1 (constant_tape 0.5)).
Proof.
  exact (proj2 (@zero_density_medium_is_transparent crude_log slab grazing_ptr ray_down
                  (mkinterval 0.001 infinity) stale_record (constant_tape 0.5)
                  (slab_hit 1) (constant_tape 0.5) (slab_hit 2) (constant_tape 0.5)
                  eq_refl eq_refl eq_refl eq_refl)).
Defined.

(** [ray_color_1_degenerate_direction] on the floor whose density
    proposes the null vector. *)
Lemma ray_color_1_degenerate_direction_witness :
  ray_color_1 (default_camera white) ray_down 1 (room grazing_ptr) lamp (constant_tape 0.75)
  = (mkvec3 0 0 0, constant_tape 0.75).
Proof.
  exact (proj2 (@ray_color_1_degenerate_direction scene_materials (default_camera white)
                  (room grazing_ptr) lamp ray_down 1%Z (constant_tape 0.75)
                  (floor_hit grazing_ptr) (constant_tape 0.75)
                  grazing_scatter (constant_tape 0.75)
                  (mkvec3 0 0 0) (constant_tape 0.75)
                  eq_refl eq_refl eq_refl eq_refl eq_refl eq_refl)).
Defined.

(** [phong_pdf_generate_runs_until_accepted] on a lobe that points away
    from its normal, where five turns are not enough, and on a lobe whose
    second candidate is the first accepted. *)
Lemma phong_pdf_generate_runs_until_accepted_witness :
  phong_pdf_generate 5 (phong_pdf_new up 30 down) (constant_tape 0.5) = None
  /\ phong_pdf_generate 2 (phong_pdf_new up 30 slanted) stepped_tape
     = Some (phong_pdf_candidate (phong_pdf_new up 30 slanted)
               (after_draws 2 stepped_tape)).
Proof.
  split.
  - apply (proj1 (@phong_pdf_generate_runs_until_accepted crude_libm plain_externals
                    (phong_pdf_new up 30 down) (constant_tape 0.5))).
    intros j _. rewrite after_draws_constant. reflexivity.
  - apply (proj2 (@phong_pdf_generate_runs_until_accepted crude_libm plain_externals
                    (phong_pdf_new up 30 slanted) stepped_tape) 1%nat 2%nat).
    + intros [|j] Hj; [reflexivity | lia].
    + reflexivity.
    + lia.
Defined.

(** [sqrt_spp_is_integer_square_root] on the default sample count of
    10. *)
Lemma sqrt_spp_is_integer_square_root_witness :
  exists fr,
    initialize (default_camera white) = Some fr
    /\ sqrt_spp fr = 3%Z.
Proof.
  destruct (initialize (default_camera white)) as [fr|] eqn:Hinit;
    [|vm_compute in Hinit; discriminate].
  exists fr. split; [reflexivity|].
  exact (proj1 (@sqrt_spp_is_integer_square_root crude_libm (default_camera white) fr
                  Hinit ltac:(vm_compute; split; intros Hgt; discriminate))).
Defined.

(** * The precondition of [hittable_list::random] *)

(** ** Numbers that are not below zero *)

(** [0 <= x] read off the representation of [x]: NaN and the numbers
    with a set sign other than [-0] fail the test. *)
Lemma leb_zero_spec x :
  (0 <=? x)
  = match Prim2SF x with
    | S754_zero _ => true
    | S754_finite sgn _ _ | S754_infinity sgn => negb sgn
    | S754_nan => false
    end.
Proof.
  rewrite FloatAxioms.leb_spec. change (Prim2SF 0) with (S754_zero false).
  destruct (Prim2SF x) as [sgn| sgn | | sgn m e]; try destruct sgn; reflexivity.
Qed.

(** Rounding a mantissa that is not negative keeps the sign it is given
    and does not give NaN. *)
Lemma binary_round_aux_signed sx mx ex lx :
  (0 <= mx)%Z ->
  match binary_round_aux prec emax sx mx ex lx with
  | S754_zero sgn | S754_finite sgn _ _ | S754_infinity sgn => sgn = sx
  | S754_nan => False
  end.
Proof.
  intros Hm. unfold binary_round_aux.
  destruct (@shr_fexp_bound mx ex lx Hm) as (H0 & _ & _).
  destruct (shr_fexp prec emax mx ex lx) as [mrs' e']. cbn [fst snd] in *.
  pose proof (round_nearest_even_bound (shr_m mrs') (loc_of_shr_record mrs')) as Hr.
  set (m1 := round_nearest_even (shr_m mrs') (loc_of_shr_record mrs')) in *.
  destruct (@shr_fexp_bound m1 e' loc_Exact ltac:(lia)) as (H0' & _ & _).
  destruct (shr_fexp prec emax m1 e' loc_Exact) as [mrs'' e'']. cbn [fst snd] in *.
  destruct (shr_m mrs'') as [|m|m]; [reflexivity| |lia].
  destruct (e'' <=? emax - prec)%Z; reflexivity.
Qed.

(** The sum of two numbers that are not below zero is not below zero:
    it is not NaN either. *)
Lemma add_nonneg a b :
  (0 <=? a) = true -> (0 <=? b) = true -> (0 <=? a + b) = true.
Proof.
  rewrite !leb_zero_spec, FloatAxioms.add_spec. unfold SF64add, SFadd.
  destruct (Prim2SF a) as [sa| sa | | sa ma ea]; try destruct sa; try discriminate;
    destruct (Prim2SF b) as [sb| sb | | sb mb eb]; try destruct sb; try discriminate;
    intros _ _; try reflexivity.
  cbn [cond_Zopp].
  destruct (shl_align ma ea (Z.min ea eb)) as [ma' ea'].
  destruct (shl_align mb eb (Z.min ea eb)) as [mb' eb']. cbn [fst].
  cbn [Z.add binary_normalize]. unfold binary_round.
  destruct (shl_align (ma' + mb') (Z.min ea eb) _) as [mz ez].
  pose proof (@binary_round_aux_signed false (Z.pos mz) ez loc_Exact ltac:(lia)) as Hs.
  destruct (binary_round_aux prec emax false (Z.pos mz) ez loc_Exact)
    as [sgn| sgn | | sgn m e]; try contradiction; subst sgn; reflexivity.
Qed.

(** One divided by a finite positive number with an exponent of at least
    [-52] is a finite positive number: it is not zero. *)
Lemma SFdiv_one_positive m e :
  valid_binary (S754_finite false m e) = true -> (-52 <= e)%Z ->
  exists m' e', SF64div (Prim2SF 1) (S754_finite false m e) = S754_finite false m' e'.
Proof.
  intros Hvalid He. cbn [SpecFloat.valid_binary] in Hvalid.
  unfold bounded, canonical_mantissa in Hvalid.
  apply andb_true_iff in Hvalid. destruct Hvalid as [Hcanon Hmax].
  apply Z.eqb_eq in Hcanon. apply Z.leb_le in Hmax.
  change (emax - prec)%Z with 971%Z in Hmax.
  assert (Hdigits : Z.pos (digits2_pos m) = 53%Z).
  { change (fexp prec emax (Z.pos (digits2_pos m) + e))
      with (Z.max (Z.pos (digits2_pos m) + e - 53) (-1074)) in Hcanon. lia. }
  assert (Hm : (Z.pos m < 2 ^ 53)%Z).
  { pose proof (@Zdigits2_gt (Z.pos m) ltac:(lia)) as Hgt. cbn [Zdigits2] in Hgt.
    rewrite Hdigits in Hgt. exact Hgt. }
  change (Prim2SF 1) with (S754_finite false 4503599627370496 (-52)).
  unfold SF64div, SFdiv. cbn [xorb].
  pose proof (@SFdiv_core_binary_bound 4503599627370496 (-52) m e) as Hcore.
  assert (Hmore : let '(q, e', _) :=
                    SFdiv_core_binary prec emax 4503599627370496 (-52) (Z.pos m) e in
                  (0 < q)%Z /\ (-1074 <= e')%Z).
  { unfold SFdiv_core_binary. cbn [Zdigits2]. rewrite Hdigits.
    change (Z.pos (digits2_pos 4503599627370496)) with 53%Z.
    change (fexp prec emax (53 + -52 - (53 + e)))
      with (Z.max (53 + -52 - (53 + e) - 53) (-1074)).
    set (e' := Z.min _ (-52 - e)).
    assert (He' : (-1074 <= e' <= -53 - e)%Z) by (unfold e'; lia).
    destruct (-52 - e - e')%Z as [|k|k] eqn:Hs; try lia.
    rewrite Z.shiftl_mul_pow2 by lia.
    assert (Hpow : (2 <= 2 ^ Z.pos k)%Z).
    { change 2%Z with (2 ^ 1)%Z at 1. apply Z.pow_le_mono_r; lia. }
    destruct (Z.div_eucl (4503599627370496 * 2 ^ Z.pos k) (Z.pos m)) as [q r] eqn:Hdiv.
    assert (Hq : q = (4503599627370496 * 2 ^ Z.pos k / Z.pos m)%Z).
    { change (4503599627370496 * 2 ^ Z.pos k / Z.pos m)%Z
        with (fst (Z.div_eucl (4503599627370496 * 2 ^ Z.pos k) (Z.pos m))).
      rewrite Hdiv. reflexivity. }
    split; [|lia]. subst q. apply Z.div_str_pos.
    change (2 ^ 53)%Z with 9007199254740992%Z in Hm. lia. }
  destruct (SFdiv_core_binary prec emax 4503599627370496 (-52) (Z.pos m) e)
    as [[q e'] l].
  destruct Hcore as (_ & Hd & He'). destruct Hmore as [Hq Hlow].
  change (Z.pos (digits2_pos 4503599627370496)) with 53%Z in Hd.
  destruct (@binary_round_aux_pos false q e' l Hq ltac:(lia) ltac:(lia))
    as (m' & e'' & Hr & _).
  exists m', e''. exact Hr.
Qed.

(** The reciprocal of a count from 1 up to [2 ^ 63] is a finite positive
    number. *)
Lemma reciprocal_of_count_positive N :
  (1 <= N < 2 ^ 63)%Z ->
  exists m e, Prim2SF (1 / of_uint63 (Uint63.of_Z N)) = S754_finite false m e.
Proof.
  intros HN. rewrite FloatAxioms.div_spec.
  pose proof (Prim2SF_valid (of_uint63 (Uint63.of_Z N))) as Hvalid.
  rewrite FloatAxioms.of_uint63_spec, Uint63.of_Z_spec in *.
  rewrite Z.mod_small in * by (change Uint63.wB with (2 ^ 63)%Z; lia).
  destruct (binary_normalize_count HN) as (m & e & Hn & He).
  rewrite Hn in *. apply SFdiv_one_positive; [exact Hvalid | exact He].
Qed.

(** The product of a finite positive number and a number that is not
    below zero is not below zero; the other factor may be infinite. *)
Lemma mul_positive_nonneg w d m e :
  Prim2SF w = S754_finite false m e -> (0 <=? d) = true -> (0 <=? w * d) = true.
Proof.
  intros Hw. rewrite !leb_zero_spec, FloatAxioms.mul_spec, Hw. unfold SF64mul, SFmul.
  destruct (Prim2SF d) as [sd| sd | | sd md ed]; try destruct sd; try discriminate;
    intros _; try reflexivity.
  cbn [xorb].
  pose proof (@binary_round_aux_signed false (Z.pos (m * md)) (e + ed) loc_Exact
                ltac:(lia)) as Hs.
  destruct (binary_round_aux prec emax false (Z.pos (m * md)) (e + ed) loc_Exact)
    as [sgn| sgn | | sgn m' e']; try contradiction; subst sgn; reflexivity.
Qed.

(** ** The collection as a density and as a sampler *)

Lemma weighted_fold_nonneg (objects : list hittable) origin direction weight m e :
  Prim2SF weight = S754_finite false m e ->
  Forall (fun o => (0 <=? pdf_value o origin direction) = true) objects ->
  forall sum, (0 <=? sum) = true ->
  (0 <=? fold_left (fun sum object => sum + weight * pdf_value object origin direction)
                   objects sum) = true.
Proof.
  intros Hw Hall. induction Hall as [|o objects Ho _ IH]; intros sum Hsum;
    cbn [fold_left]; [exact Hsum|].
  apply IH. apply add_nonneg; [exact Hsum|]. exact (@mul_positive_nonneg _ _ _ _ Hw Ho).
Qed.

(** C10 (amended).  Only [random] needs a member.  [pdf_value] is the
    sum, taken in member order from [0.0], of the member densities each
    times the weight [1.0 / objects.size()], and it is defined on every
    collection whose member count fits the [int] it is converted to:
    when no member density is below zero (or NaN) the result is not below
    zero and not NaN.  On a collection with at least one member the
    weight is finite and above zero, and every index in [0 .. size - 1],
    which is what [random_int(0, size - 1)] may return, is in bounds, so
    that [random] returns a direction.  On the empty collection the
    divisor is zero and the weight [1.0 / 0] is infinite, but it is
    multiplied with nothing and [pdf_value] returns [0.0]; [random]
    indexes out of bounds whatever index it draws. *)
Theorem hittable_list_random_needs_a_member `{Externals}
  (objects : list hittable) (origin : point3) :
  (forall direction,
     hittable_list_pdf_value objects origin direction
     = fold_left (fun sum object =>
                    sum + 1.0 / double_of_int (size objects)
                          * pdf_value object origin direction)
                 objects 0.0)
  /\ ((size objects <= int_max)%Z ->
      forall direction,
        Forall (fun o => (0 <=? pdf_value o origin direction) = true) objects ->
        (0 <=? hittable_list_pdf_value objects origin direction) = true
        /\ is_nan (hittable_list_pdf_value objects origin direction) = false)
  /\ (objects <> [] -> (size objects <= int_max)%Z ->
      (1 <= size objects)%Z
      /\ is_finite (1.0 / double_of_int (size objects)) = true
      /\ (0 <? 1.0 / double_of_int (size objects)) = true
      /\ forall s k s1,
           random_int 0 (size objects - 1) s = (k, s1) ->
           (0 <= k <= size objects - 1)%Z ->
           exists object d s2,
             index objects k = Some object
             /\ random object origin s1 = (d, s2)
             /\ hittable_list_random objects origin s = (Some d, s2))
  /\ (objects = [] ->
      size objects = 0%Z
      /\ 1.0 / double_of_int (size objects) = infinity
      /\ (forall direction, hittable_list_pdf_value objects origin direction = 0.0)
      /\ forall s, fst (hittable_list_random objects origin s) = None).
Proof.
  assert (Hweight : objects <> [] -> (size objects <= int_max)%Z ->
            (1 <= size objects)%Z
            /\ exists m e,
                 Prim2SF (1.0 / double_of_int (size objects)) = S754_finite false m e).
  { intros Hne Hmax.
    assert (Hsize : (1 <= size objects)%Z)
      by (unfold size; destruct objects; [contradiction | cbn; lia]).
    split; [exact Hsize|]. unfold double_of_int.
    replace (size objects <? 0)%Z with false by (symmetry; apply Z.ltb_ge; lia).
    apply reciprocal_of_count_positive. unfold int_max in Hmax. lia. }
  split; [|split; [|split]].
  - intros direction. reflexivity.
  - intros Hmax direction Hall.
    assert (Hle : (0 <=? hittable_list_pdf_value objects origin direction) = true).
    { destruct objects as [|o objects]; [reflexivity|].
      destruct (Hweight ltac:(discriminate) Hmax) as (_ & m & e & Hw).
      unfold hittable_list_pdf_value.
      apply (@weighted_fold_nonneg _ _ _ _ _ _ Hw Hall). reflexivity. }
    split; [exact Hle | apply (leb_not_nan Hle)].
  - intros Hne Hmax. destruct (Hweight Hne Hmax) as (Hsize & m & e & Hw).
    split; [exact Hsize|]. split; [|split].
    + apply is_finite_of_SF. rewrite Hw. exact I.
    + rewrite FloatAxioms.ltb_spec, Hw. reflexivity.
    + intros s k s1 Hk Hrange.
      destruct (@index_in_bounds objects k Hrange) as (object & Hobj & _).
      destruct (random object origin s1) as [d s2] eqn:Hr.
      exists object, d, s2. split; [exact Hobj|]. split; [exact Hr|].
      unfold hittable_list_random, bind, ret.
      rewrite (@last_index_small objects Hmax), Hk, Hobj, Hr. reflexivity.
  - intros ->. split; [reflexivity|]. split; [reflexivity|]. split.
    + intros direction. reflexivity.
    + intros s. unfold hittable_list_random, bind, ret.
      destruct (random_int 0 (wrap_int (wrap_int (size []) - 1)) s) as [k s1].
      rewrite index_nil. reflexivity.
Qed.

(** [hittable_list_random_needs_a_member] on a list of two members and on
    the empty list. *)
Lemma hittable_list_random_needs_a_member_witness :
  ((0 <=? hittable_list_pdf_value [lamp; room matt_ptr] (mkvec3 0 0 0) up) = true
   /\ is_finite (1.0 / double_of_int (size [lamp; room matt_ptr])) = true
   /\ exists d s2,
        hittable_list_random [lamp; room matt_ptr] (mkvec3 0 0 0) (constant_tape 0.5)
        = (Some d, s2))
  /\ 1.0 / double_of_int (size []) = infinity
  /\ hittable_list_pdf_value [] (mkvec3 0 0 0) up = 0
  /\ fst (hittable_list_random [] (mkvec3 0 0 0) (constant_tape 0.5)) = None.
Proof.
  destruct (@hittable_list_random_needs_a_member plain_externals [lamp; room matt_ptr]
              (mkvec3 0 0 0)) as (_ & Hpdf & Hsome & _).
  assert (Hne : [lamp; room matt_ptr] <> []) by discriminate.
  assert (Hmax : (size [lamp; room matt_ptr] <= int_max)%Z)
    by (intros Hgt; discriminate).
  destruct (Hpdf Hmax up) as [Hle _].
  { constructor; [reflexivity|]. constructor; [reflexivity | constructor]. }
  destruct (Hsome Hne Hmax) as (_ & Hfin & _ & Hrand).
  destruct (Hrand (constant_tape 0.5) 1%Z (constant_tape 0.5) eq_refl)
    as (object & d & s2 & _ & _ & Hres).
  { cbn. lia. }
  destruct (@hittable_list_random_needs_a_member plain_externals [] (mkvec3 0 0 0))
    as (_ & _ & _ & Hnone).
  destruct (Hnone eq_refl) as (_ & Hinf & Hzero & Hrandom).
  split; [split; [exact Hle | split; [exact Hfin | exists d, s2; exact Hres]]|].
  split; [exact Hinf|]. split; [apply Hzero | apply Hrandom].
Defined.

(** C10, as stated, fails for [pdf_value]: on the empty collection the
    weight [1.0 / 0] is infinite, but the loop that would use it does not
    run, and the result is the finite number [0.0]. *)
Lemma hittable_list_pdf_value_of_empty :
  1.0 / double_of_int (size []) = infinity
  /\ hittable_list_pdf_value [] (mkvec3 0 0 0) up = 0
  /\ is_finite (hittable_list_pdf_value [] (mkvec3 0 0 0) up) = true
  /\ is_nan (hittable_list_pdf_value [] (mkvec3 0 0 0) up) = false.
Proof. split; [reflexivity|]. split; [reflexivity|]. split; reflexivity. Qed.
